(** * jstreemap: TreeNode, the red-black tree engine and the TreeSet facade

    A shallow embedding of the jstreemap library.  Objects live in an arena
    (a finite map from object identities to records); a JavaScript reference
    is either [null] or the identity of an object of the arena. *)

From stdpp Require Import gmap list strings sorting.

Set Default Proof Using "Type".

(** ** src/internal/tree-node.js *)

(** [const RED = 1; const BLACK = 2]. *)
Inductive Color := RED | BLACK.

Global Instance Color_eq_dec : EqDecision Color.
Proof. solve_decision. Defined.

(** The two sides of a node. *)
Inductive dir := L | R.

Global Instance dir_eq_dec : EqDecision dir.
Proof. solve_decision. Defined.

Definition other (d : dir) : dir := match d with L => R | R => L end.

(** A reference to a node: [None] is JavaScript's [null]. *)
Abbreviation ref := (option positive).
Abbreviation null := (@None positive).

(** What a JavaScript call can end with, other than a value. *)
Inductive Exception :=
| JsError (msg : string)   (* [throw new Error(msg)] *)
| TypeError                (* a property of [null] was read or written *)
| Stuck.                   (* the model ran out of fuel, or met an identity
                              that is not in the arena *)

Inductive Result (A : Type) :=
| Ok (a : A)
| Throw (e : Exception).
Arguments Ok {A} a.
Arguments Throw {A} e.

Global Instance Result_ret : MRet Result := λ A a, Ok a.
Global Instance Result_bind : MBind Result := λ A B f r,
  match r with Ok a => f a | Throw e => Throw e end.

Section TreeNode.
Context {K V : Type}.

(** The fields of [class TreeNode]; [value] is the additional data member
    that map-like containers add to a node. *)
Record TreeNode := mkTreeNode {
  left : ref;
  right : ref;
  parent : ref;
  key : K;
  value : option V;
  color : Color
}.

(** The arena of nodes. *)
Abbreviation Nodes := (gmap positive TreeNode).

(** [constructor()]: no links, a [null] key, and "by default new node is
    red".  [knull] is the [null] of the key type. *)
Definition TreeNode_new (knull : K) : TreeNode :=
  {| left := null; right := null; parent := null;
     key := knull; value := None; color := RED |}.

(** Reading the object behind an identity. *)
Definition node (h : Nodes) (x : positive) : Result TreeNode :=
  match h !! x with Some n => Ok n | None => Throw Stuck end.

(** Reading through a reference: a [null] reference raises [TypeError]. *)
Definition deref (r : ref) : Result positive :=
  match r with Some x => Ok x | None => Throw TypeError end.

(** [grandparent()] *)
Definition grandparent (h : Nodes) (this : positive) : Result ref :=
  n ← node h this;
  match parent n with
  | None => Ok null
  | Some p => pn ← node h p; Ok (parent pn)
  end.

(** [sibling()] *)
Definition sibling (h : Nodes) (this : positive) : Result ref :=
  n ← node h this;
  match parent n with
  | None => Ok null
  | Some p =>
      pn ← node h p;
      if decide (Some this = left pn) then Ok (right pn) else Ok (left pn)
  end.

(** [uncle()] *)
Definition uncle (h : Nodes) (this : positive) : Result ref :=
  n ← node h this;
  match parent n with
  | None => Ok null
  | Some p =>
      pn ← node h p;
      match parent pn with
      | None => Ok null
      | Some g => sibling h p
      end
  end.

(** Field assignments [x.f = v]. *)
Definition with_left (v : ref) (n : TreeNode) : TreeNode :=
  {| left := v; right := right n; parent := parent n;
     key := key n; value := value n; color := color n |}.
Definition with_right (v : ref) (n : TreeNode) : TreeNode :=
  {| left := left n; right := v; parent := parent n;
     key := key n; value := value n; color := color n |}.
Definition with_parent (v : ref) (n : TreeNode) : TreeNode :=
  {| left := left n; right := right n; parent := v;
     key := key n; value := value n; color := color n |}.
Definition with_key (v : K) (n : TreeNode) : TreeNode :=
  {| left := left n; right := right n; parent := parent n;
     key := v; value := value n; color := color n |}.
Definition with_value (v : option V) (n : TreeNode) : TreeNode :=
  {| left := left n; right := right n; parent := parent n;
     key := key n; value := v; color := color n |}.
Definition with_color (v : Color) (n : TreeNode) : TreeNode :=
  {| left := left n; right := right n; parent := parent n;
     key := key n; value := value n; color := v |}.

End TreeNode.

Arguments TreeNode : clear implicits.

(** ** src/internal/tree.js, src/internal/policies.js, src/public/iterators.js
       and src/public/insertion-result.js *)

(** Modelled from the spec: the value policies of src/internal/policies.js
    ("key-only storage (set-like)" and "key+value storage (map-like)"). *)
Inductive ValuePolicy := KeyOnlyPolicy | KeyValuePolicy.

(** Modelled from the spec: the cursor of src/public/iterators.js, "either a
    current node or the end sentinel"; the sentinel is the [null] node. *)
Record Iterator := mkIterator { it_node : ref }.

(** Modelled from the spec: src/public/insertion-result.js,
    "[{wasInserted: bool, cursor}]". *)
Record InsertionResult := mkInsertionResult {
  wasInserted : bool;
  iterator : Iterator
}.

(** Which of the three insertions of section 4.1 is running. *)
Inductive InsertMode := INSERT_UNIQUE | INSERT_MULTI | INSERT_REPLACE.

Section Tree.
Context {K V : Type}.

Abbreviation Nodes := (gmap positive (TreeNode K V)).

(** Modelled from the spec: the [Tree] of src/internal/tree.js, which
    "owns the root node, size counter, comparator, and value policy"
    (sections 2 and 3).  [nodes] is the arena of section 9; a node that is
    no longer linked into the tree stays in the arena, as an object that a
    caller may still hold. *)
Record Tree := mkTree {
  nodes : Nodes;
  root : ref;
  size : nat;
  compare : K → K → comparison;
  valuePolicy : ValuePolicy
}.

Definition with_nodes (h : Nodes) (t : Tree) : Tree :=
  {| nodes := h; root := root t; size := size t;
     compare := compare t; valuePolicy := valuePolicy t |}.
Definition with_root (r : ref) (t : Tree) : Tree :=
  {| nodes := nodes t; root := r; size := size t;
     compare := compare t; valuePolicy := valuePolicy t |}.
Definition with_size (n : nat) (t : Tree) : Tree :=
  {| nodes := nodes t; root := root t; size := n;
     compare := compare t; valuePolicy := valuePolicy t |}.
Definition with_compare (f : K → K → comparison) (t : Tree) : Tree :=
  {| nodes := nodes t; root := root t; size := size t;
     compare := f; valuePolicy := valuePolicy t |}.
Definition with_valuePolicy (p : ValuePolicy) (t : Tree) : Tree :=
  {| nodes := nodes t; root := root t; size := size t;
     compare := compare t; valuePolicy := p |}.

(** [x.f = v] on a node of the tree's arena. *)
Definition upd (f : TreeNode K V → TreeNode K V) (x : positive) (t : Tree) : Tree :=
  with_nodes (alter f x (nodes t)) t.

(** The colour of a reference: "a null/absent child is treated as Black". *)
Definition color_of (h : Nodes) (r : ref) : Result Color :=
  match r with
  | None => Ok BLACK
  | Some x => n ← node h x; Ok (color n)
  end.

(** Modelled from the spec: [new Tree(comparator?, policy)]. *)
Definition Tree_new (cmp : K → K → comparison) : Tree :=
  {| nodes := ∅; root := null; size := 0;
     compare := cmp; valuePolicy := KeyOnlyPolicy |}.

(** [new TreeNode()] in the tree's arena: a fresh identity. *)
Definition alloc (knull : K) (t : Tree) : positive * Tree :=
  let x := fresh (dom (nodes t)) in
  (x, with_nodes (<[x := TreeNode_new knull]> (nodes t)) t).

(** Modelled from the spec: [clear()], "releases the entire graph, resets
    size to 0". *)
Definition clear (t : Tree) : Tree := with_size 0 (with_root null t).

(** Makes [new] the child of [p] in the place of [old]; with no parent, the
    tree's root reference is updated. *)
Definition replace_child (t : Tree) (p : ref) (old : positive) (new : ref) : Result Tree :=
  match p with
  | None => Ok (with_root new t)
  | Some p =>
      np ← node (nodes t) p;
      if decide (left np = Some old) then Ok (upd (with_left new) p t)
      else Ok (upd (with_right new) p t)
  end.

(** [r.parent = p] when [r] is a node. *)
Definition set_parent_of (r : ref) (p : ref) (t : Tree) : Tree :=
  match r with
  | None => t
  | Some c => upd (with_parent p) c t
  end.

(** [r.color = c] when [r] is a node. *)
Definition set_color_of (r : ref) (c : Color) (t : Tree) : Tree :=
  match r with
  | None => t
  | Some x => upd (with_color c) x t
  end.

(** Modelled from the spec: "Rotation (left/right): standard subtree
    rotation around an edge; updates the three affected parent
    back-references and, if the rotated subtree root was the tree root,
    updates the tree's root reference". *)
Definition rotateLeft (t : Tree) (x : positive) : Result Tree :=
  nx ← node (nodes t) x;
  y ← deref (right nx);
  ny ← node (nodes t) y;
  let t := upd (with_right (left ny)) x t in
  let t := set_parent_of (left ny) (Some x) t in
  let t := upd (with_parent (parent nx)) y t in
  t ← replace_child t (parent nx) x (Some y);
  let t := upd (with_left (Some x)) y t in
  let t := upd (with_parent (Some y)) x t in
  Ok t.

Definition rotateRight (t : Tree) (x : positive) : Result Tree :=
  nx ← node (nodes t) x;
  y ← deref (left nx);
  ny ← node (nodes t) y;
  let t := upd (with_left (right ny)) x t in
  let t := set_parent_of (right ny) (Some x) t in
  let t := upd (with_parent (parent nx)) y t in
  t ← replace_child t (parent nx) x (Some y);
  let t := upd (with_right (Some x)) y t in
  let t := upd (with_parent (Some y)) x t in
  Ok t.

(** Modelled from the spec: insert-fixup.  "While the newly linked node's
    parent is Red, three cases apply based on the color of the node's uncle
    and the node's position: (a) uncle Red: recolor parent and uncle Black,
    grandparent Red, continue fixup from grandparent; (b) uncle Black, node
    is an inner grandchild: rotate at parent to convert to the outer case;
    (c) uncle Black, node is an outer grandchild: recolor parent Black and
    grandparent Red, then rotate at grandparent; this terminates the loop." *)
Fixpoint insertFixup (fuel : nat) (t : Tree) (n : positive) : Result Tree :=
  match fuel with
  | 0 => Throw Stuck
  | S fuel =>
      nn ← node (nodes t) n;
      match parent nn with
      | None => Ok t
      | Some p =>
          np ← node (nodes t) p;
          match color np with
          | BLACK => Ok t
          | RED =>
              g ← grandparent (nodes t) n ≫= deref;
              ng ← node (nodes t) g;
              u ← uncle (nodes t) n;
              cu ← color_of (nodes t) u;
              match cu with
              | RED =>
                  (* case (a) *)
                  let t := upd (with_color BLACK) p t in
                  let t := set_color_of u BLACK t in
                  let t := upd (with_color RED) g t in
                  insertFixup fuel t g
              | BLACK =>
                  (* case (b) *)
                  '(t, n, p) ←
                    (if decide (Some n = right np ∧ Some p = left ng) then
                       t ← rotateLeft t p; Ok (t, p, n)
                     else if decide (Some n = left np ∧ Some p = right ng) then
                       t ← rotateRight t p; Ok (t, p, n)
                     else Ok (t, n, p));
                  (* case (c) *)
                  np ← node (nodes t) p;
                  let t := upd (with_color BLACK) p t in
                  let t := upd (with_color RED) g t in
                  if decide (Some n = left np) then rotateRight t g
                  else rotateLeft t g
              end
          end
      end
  end.

(** Modelled from the spec: the "comparator-guided descent" of the three
    insertions.  The result carries the node with an equal key that stopped
    the descent, if any; otherwise [n] has been linked as a child.  With
    [INSERT_MULTI] an equal key sends the descent to the right, so that the
    new node is placed "consistently after all existing equal keys". *)
Fixpoint insertAt (fuel : nat) (t : Tree) (x n : positive) (mode : InsertMode)
  : Result (Tree * ref) :=
  match fuel with
  | 0 => Throw Stuck
  | S fuel =>
      nx ← node (nodes t) x;
      nn ← node (nodes t) n;
      let go_left :=
        match left nx with
        | Some l => insertAt fuel t l n mode
        | None => Ok (upd (with_parent (Some x)) n (upd (with_left (Some n)) x t), null)
        end in
      let go_right :=
        match right nx with
        | Some r => insertAt fuel t r n mode
        | None => Ok (upd (with_parent (Some x)) n (upd (with_right (Some n)) x t), null)
        end in
      match compare t (key nn) (key nx), mode with
      | Lt, _ => go_left
      | Gt, _ => go_right
      | Eq, INSERT_MULTI => go_right
      | Eq, INSERT_UNIQUE => Ok (t, Some x)
      | Eq, INSERT_REPLACE =>
          match valuePolicy t with
          | KeyValuePolicy => Ok (upd (with_value (value nn)) x t, Some x)
          | KeyOnlyPolicy => Ok (t, Some x)
          end
      end
  end.

(** Modelled from the spec: [insertUnique], [insertMulti] and
    [insertOrReplace] of section 4.1: the descent, then, when the node was
    linked, "colored Red, increments size, and runs insert-fixup.  The root
    is always forced Black at the end". *)
Definition insertNode (t : Tree) (n : positive) (mode : InsertMode)
  : Result (Tree * InsertionResult) :=
  '(t, existing) ←
    match root t with
    | None => Ok (with_root (Some n) t, null)
    | Some r => insertAt (S (size t)) t r n mode
    end;
  match existing with
  | Some x => Ok (t, mkInsertionResult false (mkIterator (Some x)))
  | None =>
      let t := upd (with_color RED) n t in
      let t := with_size (S (size t)) t in
      t ← insertFixup (S (size t)) t n;
      let t := set_color_of (root t) BLACK t in
      Ok (t, mkInsertionResult true (mkIterator (Some n)))
  end.

Definition insertUnique (t : Tree) (n : positive) := insertNode t n INSERT_UNIQUE.
Definition insertMulti (t : Tree) (n : positive) := insertNode t n INSERT_MULTI.
Definition insertOrReplace (t : Tree) (n : positive) := insertNode t n INSERT_REPLACE.

(** Modelled from the spec: [find(key)] "descends by comparator; ...
    returns the end cursor if absent". *)
Fixpoint findFrom (fuel : nat) (t : Tree) (x : ref) (k : K) : Result Iterator :=
  match x with
  | None => Ok (mkIterator null)
  | Some x' =>
      match fuel with
      | 0 => Throw Stuck
      | S fuel =>
          nx ← node (nodes t) x';
          match compare t k (key nx) with
          | Lt => findFrom fuel t (left nx) k
          | Gt => findFrom fuel t (right nx) k
          | Eq => Ok (mkIterator x)
          end
      end
  end.

Definition find (t : Tree) (k : K) : Result Iterator :=
  findFrom (S (size t)) t (root t) k.

(** Modelled from the spec: [lowerBound(key)], "cursor to the first element
    whose key is not less than [key] (end cursor if none)".  [y] is the best
    candidate met so far. *)
Fixpoint lowerBoundFrom (fuel : nat) (t : Tree) (x y : ref) (k : K) : Result Iterator :=
  match x with
  | None => Ok (mkIterator y)
  | Some x' =>
      match fuel with
      | 0 => Throw Stuck
      | S fuel =>
          nx ← node (nodes t) x';
          match compare t (key nx) k with
          | Lt => lowerBoundFrom fuel t (right nx) y k
          | _ => lowerBoundFrom fuel t (left nx) x k
          end
      end
  end.

Definition lowerBound (t : Tree) (k : K) : Result Iterator :=
  lowerBoundFrom (S (size t)) t (root t) null k.

(** Modelled from the spec: [upperBound(key)], "cursor to the first element
    whose key is strictly greater than [key] (end cursor if none)". *)
Fixpoint upperBoundFrom (fuel : nat) (t : Tree) (x y : ref) (k : K) : Result Iterator :=
  match x with
  | None => Ok (mkIterator y)
  | Some x' =>
      match fuel with
      | 0 => Throw Stuck
      | S fuel =>
          nx ← node (nodes t) x';
          match compare t k (key nx) with
          | Lt => upperBoundFrom fuel t (left nx) x k
          | _ => upperBoundFrom fuel t (right nx) y k
          end
      end
  end.

Definition upperBound (t : Tree) (k : K) : Result Iterator :=
  upperBoundFrom (S (size t)) t (root t) null k.

(** The leftmost node of the subtree of [x]. *)
Fixpoint minimum (fuel : nat) (h : Nodes) (x : positive) : Result positive :=
  match fuel with
  | 0 => Throw Stuck
  | S fuel =>
      nx ← node h x;
      match left nx with
      | None => Ok x
      | Some l => minimum fuel h l
      end
  end.

(** Modelled from the spec: [begin()], "cursor to the in-order-first node",
    and [end()], "the one-past-last sentinel". *)
Definition begin (t : Tree) : Result Iterator :=
  match root t with
  | None => Ok (mkIterator null)
  | Some r => x ← minimum (S (size t)) (nodes t) r; Ok (mkIterator (Some x))
  end.

Definition end_ (t : Tree) : Iterator := mkIterator null.

(** Modelled from the spec: [equals(other)], "the same node identity (or
    both are the end sentinel)". *)
Definition equals (a b : Iterator) : bool := bool_decide (it_node a = it_node b).

(** "ascend through parents while the current node is a right child,
    stopping at the first ancestor reached via a left-child edge (or
    reaching the end sentinel if none exists)". *)
Fixpoint ascend (fuel : nat) (h : Nodes) (x : positive) : Result ref :=
  match fuel with
  | 0 => Throw Stuck
  | S fuel =>
      nx ← node h x;
      match parent nx with
      | None => Ok null
      | Some p =>
          np ← node h p;
          if decide (right np = Some x) then ascend fuel h p else Ok (Some p)
      end
  end.

(** Modelled from the spec: the cursor's [next()], "moves to the in-order
    successor: if a right subtree exists, descend to its leftmost node;
    otherwise ascend". *)
Definition next (t : Tree) (x : positive) : Result Iterator :=
  nx ← node (nodes t) x;
  match right nx with
  | Some r => y ← minimum (S (size t)) (nodes t) r; Ok (mkIterator (Some y))
  | None => y ← ascend (S (size t)) (nodes t) x; Ok (mkIterator y)
  end.

(** The full forward traversal, from [begin()] up to [end()]: the nodes
    that the cursor visits, each with its key. *)
Fixpoint collect (fuel : nat) (t : Tree) (it : Iterator) : Result (list (positive * K)) :=
  match it_node it with
  | None => Ok []
  | Some x =>
      match fuel with
      | 0 => Throw Stuck
      | S fuel =>
          nx ← node (nodes t) x;
          it' ← next t x;
          es ← collect fuel t it';
          Ok ((x, key nx) :: es)
      end
  end.

Definition entries (t : Tree) : Result (list (positive * K)) :=
  b ← begin t; collect (S (size t)) t b.

(** [for (let k of tree)]: the keys of the traversal. *)
Definition toList (t : Tree) : Result (list K) :=
  es ← entries t; Ok es.*2.

(** Exchanges the structural positions (links and colours) of [n], a node
    with two children, and [s], the leftmost node of its right subtree: "the
    physical node itself" is relinked "into the successor's structural
    position", and no key is copied between nodes. *)
Definition swapWithSuccessor (t : Tree) (n s : positive) : Result Tree :=
  nn ← node (nodes t) n;
  ns ← node (nodes t) s;
  t ← replace_child t (parent nn) n (Some s);
  let t := upd (with_parent (parent nn)) s t in
  let t := upd (with_left (left nn)) s t in
  let t := set_parent_of (left nn) (Some s) t in
  let t := upd (with_color (color nn)) s t in
  t ← (if decide (parent ns = Some n) then
         let t := upd (with_right (Some n)) s t in
         Ok (upd (with_parent (Some s)) n t)
       else
         let t := upd (with_right (right nn)) s t in
         let t := set_parent_of (right nn) (Some s) t in
         let t := upd (with_parent (parent ns)) n t in
         replace_child t (parent ns) s (Some n));
  let t := upd (with_left null) n t in
  let t := upd (with_right (right ns)) n t in
  let t := set_parent_of (right ns) (Some n) t in
  let t := upd (with_color (color ns)) n t in
  Ok t.

(** The child of a node on a side, and the rotation towards a side. *)
Definition child (d : dir) (n : TreeNode K V) : ref :=
  match d with L => left n | R => right n end.

Definition rotate (d : dir) (t : Tree) (x : positive) : Result Tree :=
  match d with L => rotateLeft t x | R => rotateRight t x end.

(** Modelled from the spec: the last case of delete-fixup.  The subtree
    that lacks one Black node is the child of [p'] on the side [d], its
    sibling [s] is Black and the far nephew (the child of [s] away from
    [d]) is Red: "rotate at the parent, recolor appropriately, and the
    deficiency is resolved". *)
Definition eraseFarRed (d : dir) (t : Tree) (p' s : positive) : Result Tree :=
  ns ← node (nodes t) s;
  np ← node (nodes t) p';
  let t := upd (with_color (color np)) s t in
  let t := upd (with_color BLACK) p' t in
  let t := set_color_of (child (other d) ns) BLACK t in
  rotate d t p'.

(** Modelled from the spec: a round of delete-fixup with a Black sibling
    [s]: "if both its children are Black, recolor the sibling Red and
    propagate the deficiency to the parent; if the near nephew is Red and
    far nephew Black, rotate at the sibling to convert to the last case".
    The result carries, when the deficiency is propagated, the reference
    that now lacks a Black node and its parent. *)
Definition eraseBlackSibling (d : dir) (t : Tree) (p' s : positive)
  : Result (Tree * option (ref * ref)) :=
  ns ← node (nodes t) s;
  cnear ← color_of (nodes t) (child d ns);
  cfar ← color_of (nodes t) (child (other d) ns);
  match cnear, cfar with
  | BLACK, BLACK =>
      let t := upd (with_color RED) s t in
      np ← node (nodes t) p';
      Ok (t, Some (Some p', parent np))
  | _, BLACK =>
      let t := set_color_of (child d ns) BLACK t in
      let t := upd (with_color RED) s t in
      t ← rotate (other d) t s;
      np ← node (nodes t) p';
      s ← deref (child (other d) np);
      t ← eraseFarRed d t p' s;
      Ok (t, None)
  | _, RED =>
      t ← eraseFarRed d t p' s;
      Ok (t, None)
  end.

(** Modelled from the spec: one round of delete-fixup, on the side [d] of
    [p']: "if the sibling is Red, rotate to make it Black and retry". *)
Definition eraseFixupRound (d : dir) (t : Tree) (p' : positive)
  : Result (Tree * option (ref * ref)) :=
  np ← node (nodes t) p';
  s ← deref (child (other d) np);
  ns ← node (nodes t) s;
  match color ns with
  | RED =>
      let t := upd (with_color BLACK) s t in
      let t := upd (with_color RED) p' t in
      t ← rotate d t p';
      np ← node (nodes t) p';
      s ← deref (child (other d) np);
      eraseBlackSibling d t p' s
  | BLACK => eraseBlackSibling d t p' s
  end.

(** Modelled from the spec: delete-fixup, "walking up from the point of
    removal ... until the deficiency is absorbed or reaches the root".
    [x] (possibly [null]) is the root of the subtree that lacks one Black
    node and [p] its parent.  A Red [x] absorbs the deficiency by turning
    Black. *)
Fixpoint eraseFixup (fuel : nat) (t : Tree) (x p : ref) : Result Tree :=
  match fuel with
  | 0 => Throw Stuck
  | S fuel =>
      cx ← color_of (nodes t) x;
      match p, cx with
      | Some p', BLACK =>
          np ← node (nodes t) p';
          '(t, up) ← eraseFixupRound (if decide (left np = x) then L else R) t p';
          match up with
          | Some (x, p) => eraseFixup fuel t x p
          | None => Ok t
          end
      | _, _ => Ok (set_color_of x BLACK t)
      end
  end.

(** Modelled from the spec: the structural removal of a node [n] that has
    at most one child: the node is unlinked and its child takes its place;
    "after structural removal, delete-fixup restores invariants 2-4 by
    walking up from the point of removal" when the unlinked node was Black;
    the size is decremented. *)
Definition unlink (t : Tree) (n : positive) : Result Tree :=
  nn ← node (nodes t) n;
  let c := match left nn with Some l => Some l | None => right nn end in
  t ← replace_child t (parent nn) n c;
  let t := set_parent_of c (parent nn) t in
  t ← match color nn with
      | BLACK => eraseFixup (S (size t)) t c (parent nn)
      | RED => Ok t
      end;
  Ok (with_size (pred (size t)) t).

(** Modelled from the spec: [erase(node)], "removes a specific node from
    the tree": a node with two children first changes places with its
    in-order successor, the leftmost node of its right subtree; it is then
    removed from there. *)
Definition erase (t : Tree) (r : ref) : Result Tree :=
  n ← deref r;
  nn ← node (nodes t) n;
  t ← match left nn, right nn with
      | Some _, Some rt =>
          s ← minimum (S (size t)) (nodes t) rt;
          swapWithSuccessor t n s
      | _, _ => Ok t
      end;
  unlink t n.

End Tree.

Arguments Tree : clear implicits.

(** ** src/public/tree-set.js *)

(** What the constructor of a container inspects of its argument: whether
    it is [undefined], [null], has an iterator (which then yields a finite
    sequence of elements), or has none. *)
Inductive JsArg (K : Type) :=
| ArgUndefined
| ArgNull
| ArgIterable (elems : list K)
| ArgNotIterable.
Arguments ArgUndefined {K}.
Arguments ArgNull {K}.
Arguments ArgIterable {K} elems.
Arguments ArgNotIterable {K}.

Module TreeSet.
Section TreeSet.
Context {K : Type}.
(** The [null] of the key type and the comparator a new [Tree] starts with
    (src/internal/utils.js). *)
Variable knull : K.
Variable default_compare : K → K → comparison.

(** [this.__t]: "Internal tree". *)
Record TreeSet := mkTreeSet { __t : Tree K unit }.

(** The node made by [let n = new TreeNode(); n.key = key;]. *)
Definition new_node (key : K) (t : Tree K unit) : positive * Tree K unit :=
  let '(n, t) := alloc knull t in
  (n, upd (with_key key) n t).

(** [add(key)] *)
Definition add (this : TreeSet) (key : K) : Result TreeSet :=
  let '(n, t) := new_node key (__t this) in
  '(t, _) ← insertUnique t n;
  Ok (mkTreeSet t).

(** The loop [for (let k of iterable) { this.add(k); }]. *)
Fixpoint add_all (this : TreeSet) (ks : list K) : Result TreeSet :=
  match ks with
  | [] => Ok this
  | k :: ks => this ← add this k; add_all this ks
  end.

(** [constructor(iterable)] *)
Definition constructor (iterable : JsArg K) : Result TreeSet :=
  let this := mkTreeSet (with_valuePolicy KeyOnlyPolicy (Tree_new default_compare)) in
  match iterable with
  | ArgUndefined | ArgNull => Ok this
  | ArgIterable ks => add_all this ks
  | ArgNotIterable =>
      Throw (JsError "TreeSet constructor accepts only iterable objects")
  end.

(** [clear()] *)
Definition clear (this : TreeSet) : TreeSet := mkTreeSet (clear (__t this)).

(** [delete(key)] *)
Definition delete (this : TreeSet) (key : K) : Result TreeSet :=
  it ← find (__t this) key;
  if negb (equals it (end_ (__t this))) then
    t ← erase (__t this) (it_node it); Ok (mkTreeSet t)
  else Ok this.

(** [has(key)] *)
Definition has (this : TreeSet) (key : K) : Result bool :=
  it ← find (__t this) key;
  if negb (equals it (end_ (__t this))) then Ok true else Ok false.

(** [get size()] *)
Definition size (this : TreeSet) : nat := size (__t this).

(** [[Symbol.iterator]()], consumed to its end. *)
Definition iterate (this : TreeSet) : Result (list K) := toList (__t this).

(** [forEach(callback)]: [for (let k of this.__t) { callback(k, k, this); }].
    What the callback does is what it does to a state of its own, of type
    [A]; it gets the key as value and as key, and the set. *)
Definition forEach {A : Type} (this : TreeSet)
    (callback : K → K → TreeSet → A → A) (a : A) : Result A :=
  ks ← toList (__t this);
  Ok (foldl (λ a k, callback k k this a) a ks).

(** [set compareFunc(func)] *)
Definition set_compareFunc (this : TreeSet) (func : K → K → comparison) : TreeSet :=
  let this := clear this in
  mkTreeSet (with_compare func (__t this)).

(** [begin()], [end()], [find(key)] *)
Definition begin (this : TreeSet) : Result Iterator := begin (__t this).
Definition end_ (this : TreeSet) : Iterator := end_ (__t this).
Definition find (this : TreeSet) (key : K) : Result Iterator := find (__t this) key.

(** [insertUnique(key)] *)
Definition insertUnique (this : TreeSet) (key : K) : Result (TreeSet * InsertionResult) :=
  let '(n, t) := new_node key (__t this) in
  '(t, res) ← insertUnique t n;
  Ok (mkTreeSet t, res).

(** [insertOrReplace(key)] *)
Definition insertOrReplace (this : TreeSet) (key : K) : Result (TreeSet * InsertionResult) :=
  let '(n, t) := new_node key (__t this) in
  '(t, res) ← insertOrReplace t n;
  Ok (mkTreeSet t, res).

(** [erase(iterator)] *)
Definition erase (this : TreeSet) (iterator : Iterator) : Result TreeSet :=
  t ← erase (__t this) (it_node iterator); Ok (mkTreeSet t).

(** [lowerBound(key)], [upperBound(key)] *)
Definition lowerBound (this : TreeSet) (key : K) : Result Iterator := lowerBound (__t this) key.
Definition upperBound (this : TreeSet) (key : K) : Result Iterator := upperBound (__t this) key.

End TreeSet.
End TreeSet.

(** ** The shape behind an arena: trees, contexts and what they say of the links *)

Section Shape.
Context {K V : Type}.

Abbreviation Nodes := (gmap positive (TreeNode K V)).

(** The tree that the [left] and [right] links draw: each node with its
    colour, its identity, its key and its value. *)
Inductive tree :=
| Leaf
| Node (c : Color) (l : tree) (x : positive) (k : K) (v : option V) (r : tree).

Definition ref_of (s : tree) : ref :=
  match s with Leaf => null | Node _ _ x _ _ _ => Some x end.

Definition tcolor (s : tree) : Color :=
  match s with Leaf => BLACK | Node c _ _ _ _ _ => c end.

(** In-order sequences: the nodes with their keys, the identities, the keys. *)
Fixpoint elems (s : tree) : list (positive * K) :=
  match s with
  | Leaf => []
  | Node _ l x k _ r => elems l ++ (x, k) :: elems r
  end.

Fixpoint ids (s : tree) : list positive :=
  match s with
  | Leaf => []
  | Node _ l x _ _ r => ids l ++ x :: ids r
  end.

Fixpoint keys (s : tree) : list K :=
  match s with
  | Leaf => []
  | Node _ l _ k _ r => keys l ++ k :: keys r
  end.

Fixpoint height (s : tree) : nat :=
  match s with
  | Leaf => 0
  | Node _ l _ _ _ r => S (height l `max` height r)
  end.

(** The root recoloured Black. *)
Definition blacken (s : tree) : tree :=
  match s with
  | Leaf => Leaf
  | Node _ l x k v r => Node BLACK l x k v r
  end.

(** [rep h p s]: in the arena [h], the links below a node whose parent link
    is [p] draw the tree [s]. *)
Fixpoint rep (h : Nodes) (p : ref) (s : tree) : Prop :=
  match s with
  | Leaf => True
  | Node c l x k v r =>
      h !! x = Some (mkTreeNode (ref_of l) (ref_of r) p k v c) ∧
      rep h (Some x) l ∧ rep h (Some x) r
  end.

(** Reading the tree back from the arena, links checked on the way. *)
Fixpoint extract (fuel : nat) (h : Nodes) (p x : ref) : option tree :=
  match x with
  | None => Some Leaf
  | Some x' =>
      match fuel with
      | 0 => None
      | S fuel =>
          n ← h !! x';
          guard (parent n = p);;
          l ← extract fuel h x (left n);
          r ← extract fuel h x (right n);
          Some (Node (color n) l x' (key n) (value n) r)
      end
  end.

(** A tree with a hole: the path from the hole up to the top, nearest
    ancestor first.  A frame records on which side of the ancestor the hole
    is, and the ancestor's other subtree. *)
Inductive frame :=
| Frame (d : dir) (c : Color) (x : positive) (k : K) (v : option V) (sib : tree).

Definition ctx := list frame.

Definition fill (f : frame) (s : tree) : tree :=
  match f with
  | Frame L c x k v sib => Node c s x k v sib
  | Frame R c x k v sib => Node c sib x k v s
  end.

Definition plug (s : tree) (c : ctx) : tree := foldl (λ s f, fill f s) s c.

Definition frame_id (f : frame) : positive :=
  match f with Frame _ _ x _ _ _ => x end.

Definition frame_color (f : frame) : Color :=
  match f with Frame _ c _ _ _ _ => c end.

(** The in-order sequence of a context: what comes before the hole and
    what comes after it. *)
Fixpoint ctx_before (c : ctx) : list (positive * K) :=
  match c with
  | [] => []
  | Frame L _ _ _ _ _ :: c => ctx_before c
  | Frame R _ x k _ sib :: c => ctx_before c ++ elems sib ++ [(x, k)]
  end.

Fixpoint ctx_after (c : ctx) : list (positive * K) :=
  match c with
  | [] => []
  | Frame L _ x k _ sib :: c => (x, k) :: elems sib ++ ctx_after c
  | Frame R _ _ _ _ _ :: c => ctx_after c
  end.

(** The identities of a context: its ancestors and what hangs from them. *)
Fixpoint ctx_ids (c : ctx) : list positive :=
  match c with
  | [] => []
  | Frame _ _ x _ _ sib :: c => x :: ids sib ++ ctx_ids c
  end.

(** Two lists of identities with nothing in common. *)
Definition disj (A B : list positive) : Prop := ∀ x, x ∈ A → x ∉ B.

(** The parent link of the node in the hole; [pp] is the parent link of the
    top of the context. *)
Definition ctx_parent (pp : ref) (c : ctx) : ref :=
  match c with
  | [] => pp
  | f :: _ => Some (frame_id f)
  end.

(** The node at the top of a context, or the hole when it is empty. *)
Definition ctx_top (hole : ref) (c : ctx) : ref :=
  match last c with
  | Some f => Some (frame_id f)
  | None => hole
  end.

(** [rep_ctx h c hole top pp]: in the arena [h], the links draw the context
    [c] above the reference [hole], up to the node [top], whose parent link
    is [pp]. *)
Fixpoint rep_ctx (h : Nodes) (c : ctx) (hole top pp : ref) : Prop :=
  match c with
  | [] => hole = top
  | Frame d col x k v sib :: c' =>
      h !! x = Some (mkTreeNode (if d is L then hole else ref_of sib)
                                (if d is L then ref_of sib else hole)
                                (ctx_parent pp c') k v col) ∧
      rep h (Some x) sib ∧
      rep_ctx h c' (Some x) top pp
  end.

(** Red-black shape: [rbh s n] says that no Red node of [s] has a Red child
    and that every path from the root of [s] to an absent child meets [n]
    Black nodes. *)
Fixpoint rbh (s : tree) (n : nat) : Prop :=
  match s with
  | Leaf => n = 0
  | Node RED l _ _ _ r => tcolor l = BLACK ∧ tcolor r = BLACK ∧ rbh l n ∧ rbh r n
  | Node BLACK l _ _ _ r =>
      match n with
      | 0 => False
      | S n' => rbh l n' ∧ rbh r n'
      end
  end.

(** The same, computed: the black height of a well-shaped tree. *)
Fixpoint black_height (s : tree) : option nat :=
  match s with
  | Leaf => Some 0
  | Node c l _ _ _ r =>
      hl ← black_height l;
      hr ← black_height r;
      guard (hl = hr);;
      match c with
      | RED => guard (tcolor l = BLACK ∧ tcolor r = BLACK);; Some hl
      | BLACK => Some (S hl)
      end
  end.

(** A context that is red-black around a hole of black height [n], in a
    tree of black height [m]: a Red frame has a Black sibling and a Black
    frame above it. *)
Fixpoint ctx_rbh (c : ctx) (n m : nat) : Prop :=
  match c with
  | [] => n = m
  | Frame _ RED _ _ _ sib :: c' =>
      tcolor sib = BLACK ∧ rbh sib n ∧
      match c' with f :: _ => frame_color f = BLACK | [] => False end ∧
      ctx_rbh c' n m
  | Frame _ BLACK _ _ _ sib :: c' => rbh sib n ∧ ctx_rbh c' (S n) m
  end.

(** A subtree whose root has the colour [col] fits in the context [c]:
    it is Black at the top of the tree and below a Red node. *)
Definition fits (col : Color) (c : ctx) : Prop :=
  match c with
  | [] => col = BLACK
  | Frame _ RED _ _ _ _ :: _ => col = BLACK
  | Frame _ BLACK _ _ _ _ :: _ => True
  end.

(** The subtree [s] lacks one Black node in the context [c]: either it is
    Black and one short, or it is Red and makes up for it by turning
    Black. *)
Definition deficient (s : tree) (c : ctx) (m : nat) : Prop :=
  ∃ n, ctx_rbh c (S n) m ∧
       ((tcolor s = BLACK ∧ rbh s n) ∨ (tcolor s = RED ∧ rbh (blacken s) (S n))).

(** The tree [s] is what the links of the tree [t] draw, from its root. *)
Definition Rep (t : Tree K V) (s : tree) : Prop :=
  rep (nodes t) null s ∧ root t = ref_of s ∧ NoDup (ids s).

(** The same, seen from a subtree [s] and the context [c] around it. *)
Definition Rep_at (t : Tree K V) (c : ctx) (s : tree) : Prop :=
  rep (nodes t) (ctx_parent null c) s ∧
  rep_ctx (nodes t) c (ref_of s) (root t) null ∧
  NoDup (ids s ++ ctx_ids c).

(** The node at the head of an in-order sequence, or the end sentinel. *)
Definition hd_ref (es : list (positive * K)) : ref :=
  match es with
  | [] => null
  | (y, _) :: _ => Some y
  end.

(** What a descent knows of the path it took: [PL] holds of the keys of
    the ancestors it left to the left, [PR] of those it left to the right. *)
Definition path (PL PR : K → Prop) (c : ctx) : Prop :=
  Forall (λ f, match f with
               | Frame L _ _ k _ _ => PL k
               | Frame R _ _ k _ _ => PR k
               end) c.

Definition frame_dir (f : frame) : dir :=
  match f with Frame d _ _ _ _ _ => d end.

(** What [find(k)] in the tree drawn as [whole] ends with: a node with an
    equal key, or an absent child at the end of the path of [k]. *)
Definition find_post (cmp : K → K → comparison) (k : K) (whole : tree)
    (it : Iterator) : Prop :=
  match it_node it with
  | None =>
      ∃ c', plug Leaf c' = whole ∧
            path (λ k', cmp k k' = Lt) (λ k', cmp k k' = Gt) c'
  | Some y =>
      ∃ c' cy l ky v r,
        plug (Node cy l y ky v r) c' = whole ∧ cmp k ky = Eq ∧
        path (λ k', cmp k k' = Lt) (λ k', cmp k k' = Gt) c'
  end.

(** The two tests of the descent of an insertion of the key [kn]. *)
Definition ins_left (cmp : K → K → comparison) (kn k : K) : Prop :=
  cmp kn k = Lt.
Definition ins_right (cmp : K → K → comparison) (mode : InsertMode) (kn k : K) : Prop :=
  cmp kn k = Gt ∨ (mode = INSERT_MULTI ∧ cmp kn k = Eq).

(** What an operation leaves alone in the tree object. *)
Definition same_meta (t t' : Tree K V) : Prop :=
  size t' = size t ∧ compare t' = compare t ∧ valuePolicy t' = valuePolicy t.

(** The structural invariants of section 3 on a tree object whose links
    draw [s]: red-black shape, a Black root, and a size that counts the
    nodes. *)
Definition Shape (t : Tree K V) (s : tree) : Prop :=
  Rep t s ∧ (∃ m, rbh s m) ∧ tcolor s = BLACK ∧ size t = length (elems s).

(** What the descent of an insertion into the tree drawn as [whole] ends
    with: either the new node [n] sits at an absent child, at the end of a
    path that the comparisons justify, or a node [y] with an equal key has
    been met (and, at most, its value has changed). *)
Definition insertAt_post (mode : InsertMode) (n : positive) (kn : K)
    (vn : option V) (cn : Color) (t : Tree K V) (whole : tree)
    (t' : Tree K V) (res : ref) : Prop :=
  match res with
  | None =>
      ∃ c', plug Leaf c' = whole ∧
            Rep_at t' c' (Node cn Leaf n kn vn Leaf) ∧
            path (ins_left (compare t) kn) (ins_right (compare t) mode kn) c'
  | Some y =>
      mode ≠ INSERT_MULTI ∧ (mode = INSERT_UNIQUE → t' = t) ∧
      ∃ c' cy l k v v' r,
        plug (Node cy l y k v r) c' = whole ∧
        compare t kn k = Eq ∧
        Rep_at t' c' (Node cy l y k v' r)
  end.

(** What a round of delete-fixup ends with: either the tree is red-black
    again, or the deficiency has moved up, to a shorter context or to a Red
    node. *)
Definition round_post (t' : Tree K V) (whole : list (positive * K)) (len m : nat)
    (up : option (ref * ref)) : Prop :=
  match up with
  | None =>
      ∃ s', Rep t' s' ∧ elems s' = whole ∧ (∃ m', rbh s' m') ∧ tcolor s' = BLACK
  | Some (x', pp) =>
      ∃ c' s', x' = ref_of s' ∧ pp = ctx_parent null c' ∧ Rep_at t' c' s' ∧
               (length c' < len ∨ tcolor s' = RED) ∧
               elems (plug s' c') = whole ∧ deficient s' c' m
  end.

(** The same for a round with a Black sibling below a node of colour [cp]
    in the context [c]: the deficiency moves up to that node. *)
Definition black_post (t' : Tree K V) (whole : list (positive * K)) (cp : Color)
    (c : ctx) (m : nat) (up : option (ref * ref)) : Prop :=
  match up with
  | None =>
      ∃ s', Rep t' s' ∧ elems s' = whole ∧ (∃ m', rbh s' m') ∧ tcolor s' = BLACK
  | Some (x', pp) =>
      ∃ s', x' = ref_of s' ∧ pp = ctx_parent null c ∧ Rep_at t' c s' ∧
            tcolor s' = cp ∧ elems (plug s' c) = whole ∧ deficient s' c m
  end.

(** What an insertion of the node [n], with key [kn], into the tree drawn
    as [s] ends with. *)
Definition insertNode_post (mode : InsertMode) (n : positive) (kn : K)
    (t : Tree K V) (s : tree) (t' : Tree K V) (res : InsertionResult) : Prop :=
  compare t' = compare t ∧ valuePolicy t' = valuePolicy t ∧
  ((res = mkInsertionResult true (mkIterator (Some n)) ∧
    size t' = S (size t) ∧
    ∃ s' c', Shape t' s' ∧ plug Leaf c' = s ∧
             elems s' = ctx_before c' ++ (n, kn) :: ctx_after c' ∧
             path (ins_left (compare t) kn) (ins_right (compare t) mode kn) c')
   ∨
   (∃ y, res = mkInsertionResult false (mkIterator (Some y)) ∧
         mode ≠ INSERT_MULTI ∧ (mode = INSERT_UNIQUE → t' = t) ∧
         size t' = size t ∧
         ∃ s' c' cy l k v r,
           Shape t' s' ∧ elems s' = elems s ∧
           plug (Node cy l y k v r) c' = s ∧ compare t kn k = Eq)).

End Shape.

Arguments tree : clear implicits.
Arguments frame : clear implicits.
Arguments ctx : clear implicits.

(** ** Comparators *)

Section Order.
Context {K : Type}.

(** What the containers expect of a comparator: a three-way comparison of
    a total preorder. *)
Record valid_compare (cmp : K → K → comparison) : Prop := {
  cmp_antisym : ∀ a b, cmp b a = CompOpp (cmp a b);
  cmp_trans : ∀ a b c, cmp a b ≠ Gt → cmp b c ≠ Gt → cmp a c ≠ Gt
}.

(** Non-decreasing, and strictly increasing, sequences of keys. *)
Definition nondecreasing (cmp : K → K → comparison) (l : list K) : Prop :=
  StronglySorted (λ a b, cmp a b ≠ Gt) l.
Definition increasing (cmp : K → K → comparison) (l : list K) : Prop :=
  StronglySorted (λ a b, cmp a b = Lt) l.

End Order.

(** ** Reachable states *)

Section Reachable.
Context {K V : Type}.

(** The tree after a client made the node [n] for an insertion:
    [let n = new TreeNode(); n.key = k; n.value = v]. *)
Definition with_new_node (n : positive) (k : K) (v : option V) (t : Tree K V)
  : Tree K V :=
  with_nodes (<[n := mkTreeNode null null null k v RED]> (nodes t)) t.

(** What a container does to insert a key: a new node, handed to the
    insertion of the tree. *)
Definition insert_key (mode : InsertMode) (t : Tree K V) (k : K) (v : option V)
  : Result (Tree K V * InsertionResult) :=
  let n := fresh (dom (nodes t)) in
  insertNode (with_new_node n k v t) n mode.

(** The same for a sequence of keys, in their order. *)
Fixpoint insert_keys (mode : InsertMode) (t : Tree K V) (ks : list K)
  : Result (Tree K V) :=
  match ks with
  | [] => Ok t
  | k :: ks => '(t, _) ← insert_key mode t k None; insert_keys mode t ks
  end.

(** The node [n] is met by the forward traversal of [t]. *)
Definition in_tree (t : Tree K V) (n : positive) : Prop :=
  ∃ es, entries t = Ok es ∧ n ∈ es.*1.

(** The states of a tree: an empty tree, whatever its comparator and
    value policy, then insertions of new nodes, erasures of nodes of the
    tree, and [clear()].  With [unique], no [insertMulti]. *)
Inductive reachable (unique : bool) : Tree K V → Prop :=
| reach_empty t :
    root t = null → size t = 0 → reachable unique t
| reach_insert t n k v mode t' res :
    reachable unique t →
    nodes t !! n = None →
    (unique = true → mode ≠ INSERT_MULTI) →
    insertNode (with_new_node n k v t) n mode = Ok (t', res) →
    reachable unique t'
| reach_erase t n t' :
    reachable unique t →
    in_tree t n →
    erase t (Some n) = Ok t' →
    reachable unique t'
| reach_clear t :
    reachable unique t → reachable unique (clear t).

(** [y] is a node of the subtree that hangs from the reference [x]. *)
Inductive descendant (h : gmap positive (TreeNode K V)) : ref → positive → Prop :=
| desc_here x : descendant h (Some x) x
| desc_child x nx d y :
    h !! x = Some nx → descendant h (child d nx) y → descendant h (Some x) y.

(** A path from the reference [x] down to an absent child passes through
    [n] Black nodes. *)
Inductive black_path (h : gmap positive (TreeNode K V)) : ref → nat → Prop :=
| bp_absent : black_path h null 0
| bp_node x nx d n :
    h !! x = Some nx → black_path h (child d nx) n →
    black_path h (Some x) (match color nx with BLACK => S n | RED => n end).

(** Invariants 2 to 4 of section 3, on the nodes of the tree. *)
Definition root_black (t : Tree K V) : Prop :=
  color_of (nodes t) (root t) = Ok BLACK.

Definition no_red_red (t : Tree K V) : Prop :=
  ∀ x nx d,
    descendant (nodes t) (root t) x → nodes t !! x = Some nx →
    color nx = RED → color_of (nodes t) (child d nx) = Ok BLACK.

Definition black_uniform (t : Tree K V) : Prop :=
  ∀ x, descendant (nodes t) (root t) x →
       ∃ n, black_path (nodes t) (Some x) n ∧
            ∀ m, black_path (nodes t) (Some x) m → m = n.

(** Sequences of keys in the order of the comparator: strictly increasing
    for unique keys. *)
Definition sorted (unique : bool) (cmp : K → K → comparison) (l : list K) : Prop :=
  if unique then increasing cmp l else nondecreasing cmp l.

(** The invariants of section 3 together: the links draw a red-black tree
    whose keys are in order, as far as the comparator is one. *)
Definition Inv (unique : bool) (t : Tree K V) : Prop :=
  ∃ s, Shape t s ∧ (valid_compare (compare t) → sorted unique (compare t) (keys s)).

(** A key equal to [k] is among [l]. *)
Definition present (cmp : K → K → comparison) (k : K) (l : list K) : Prop :=
  Exists (λ k', cmp k k' = Eq) l.

End Reachable.

(** ** A first run on integer keys *)

Definition zset := TreeSet.constructor 0%Z Z.compare.

Definition run_list (l : list Z) : Result (list Z) :=
  s ← zset (ArgIterable l); TreeSet.iterate s.

(** A tree with equal keys: 1, 3, 3, 5, inserted in this order. *)
Definition tree_1335 : Result (Tree Z ()) :=
  insert_keys INSERT_MULTI (Tree_new Z.compare) [1; 3; 3; 5]%Z.

(** Three generations of nodes: 1 is the root, 2 and 3 are its children,
    4 is the left child of 2. *)
Definition family : gmap positive (TreeNode Z ()) :=
  <[1%positive := mkTreeNode (Some 2%positive) (Some 3%positive) null 10%Z None BLACK]>
  (<[2%positive := mkTreeNode (Some 4%positive) null (Some 1%positive) 5%Z None BLACK]>
  (<[3%positive := mkTreeNode null null (Some 1%positive) 15%Z None BLACK]>
  (<[4%positive := mkTreeNode null null (Some 2%positive) 3%Z None RED]> ∅))).

(** * Proofs *)

(** ** Lists of identities *)

Lemma disj_sym (A B : list positive) : disj A B → disj B A.
Proof. unfold disj. intros H x HB HA. exact (H x HA HB). Qed.

Lemma disj_nil_l (B : list positive) : disj [] B.
Proof. intros x Hx. inversion Hx. Qed.

Lemma disj_nil_r (A : list positive) : disj A [].
Proof. intros x _ Hx. inversion Hx. Qed.

Lemma disj_cons_l (a : positive) (A B : list positive) :
  disj (a :: A) B ↔ (a ∉ B) ∧ disj A B.
Proof.
  unfold disj. split.
  - intros H. split; [apply H; left|intros x Hx; apply H; by right].
  - intros [Ha H] x Hx. apply elem_of_cons in Hx as [->|Hx]; auto.
Qed.

Lemma disj_app_l (A1 A2 B : list positive) :
  disj (A1 ++ A2) B ↔ disj A1 B ∧ disj A2 B.
Proof.
  unfold disj. split.
  - intros H. split; intros x Hx; apply H, elem_of_app; auto.
  - intros [H1 H2] x Hx. apply elem_of_app in Hx as [Hx|Hx]; auto.
Qed.

Lemma disj_cons_r (b : positive) (A B : list positive) :
  disj A (b :: B) ↔ (b ∉ A) ∧ disj A B.
Proof.
  split.
  - intros H. apply disj_sym, disj_cons_l in H as [? ?]. auto using disj_sym.
  - intros [? ?]. apply disj_sym, disj_cons_l. auto using disj_sym.
Qed.

Lemma disj_app_r (A B1 B2 : list positive) :
  disj A (B1 ++ B2) ↔ disj A B1 ∧ disj A B2.
Proof.
  split.
  - intros H. apply disj_sym, disj_app_l in H as [? ?]. auto using disj_sym.
  - intros [? ?]. apply disj_sym, disj_app_l. auto using disj_sym.
Qed.

Lemma NoDup_app_disj (A B : list positive) :
  NoDup (A ++ B) ↔ NoDup A ∧ NoDup B ∧ disj A B.
Proof. rewrite NoDup_app. unfold disj. tauto. Qed.

(** Splits every fact on distinct identities into its atoms. *)
Ltac nd_hyps :=
  repeat match goal with
  | H : NoDup (_ ++ _) |- _ => apply NoDup_app_disj in H; destruct H as (? & ? & ?)
  | H : NoDup (_ :: _) |- _ => apply NoDup_cons in H; destruct H as [? ?]
  | H : NoDup [] |- _ => clear H
  | H : disj (_ ++ _) _ |- _ => apply disj_app_l in H; destruct H as [? ?]
  | H : disj _ (_ ++ _) |- _ => apply disj_app_r in H; destruct H as [? ?]
  | H : disj (_ :: _) _ |- _ => apply disj_cons_l in H; destruct H as [? ?]
  | H : disj _ (_ :: _) |- _ => apply disj_cons_r in H; destruct H as [? ?]
  | H : disj [] _ |- _ => clear H
  | H : disj _ [] |- _ => clear H
  | H : _ ∉ _ ++ _ |- _ => apply not_elem_of_app in H; destruct H as [? ?]
  | H : _ ∉ _ :: _ |- _ => apply not_elem_of_cons in H; destruct H as [? ?]
  | H : _ ∉ [] |- _ => clear H
  end.

Ltac nd_atom :=
  solve [ assumption | apply disj_sym; assumption
        | apply not_elem_of_nil | apply NoDup_nil_2
        | apply disj_nil_l | apply disj_nil_r
        | congruence ].

Ltac nd_goal :=
  repeat match goal with
  | |- NoDup (_ ++ _) => apply NoDup_app_disj; split; [|split]
  | |- NoDup (_ :: _) => apply NoDup_cons; split
  | |- disj (_ ++ _) _ => apply disj_app_l; split
  | |- disj _ (_ ++ _) => apply disj_app_r; split
  | |- disj (_ :: _) _ => apply disj_cons_l; split
  | |- disj _ (_ :: _) => apply disj_cons_r; split
  | |- _ ∉ _ ++ _ => apply not_elem_of_app; split
  | |- _ ∉ _ :: _ => apply not_elem_of_cons; split
  | |- _ ∧ _ => split
  end; try nd_atom.

(** Equal lists, up to the bracketing of appends. *)
Ltac list_eq := repeat first [rewrite <-app_assoc | progress simpl]; reflexivity.

Ltac nd := simpl in *; nd_hyps; nd_goal.

Section Proofs.
Context {K V : Type}.
Implicit Types (h : gmap positive (TreeNode K V)) (s l r : tree K V)
  (c : ctx K V) (t : Tree K V) (x y : positive) (p : ref).

(** ** In-order sequences *)

Lemma ids_elems s : ids s = (elems s).*1.
Proof. induction s as [|? l IHl ? ? ? r IHr]; simpl; [done|]. by rewrite fmap_app, fmap_cons, IHl, IHr. Qed.

Lemma keys_elems s : keys s = (elems s).*2.
Proof. induction s as [|? l IHl ? ? ? r IHr]; simpl; [done|]. by rewrite fmap_app, fmap_cons, IHl, IHr. Qed.

Lemma elems_fill (f : frame K V) s :
  elems (fill f s) = ctx_before [f] ++ elems s ++ ctx_after [f].
Proof. destruct f as [[] ? ? ? ? ?]; simpl; by rewrite ?app_nil_r, <-?app_assoc. Qed.

Lemma elems_plug s c :
  elems (plug s c) = ctx_before c ++ elems s ++ ctx_after c.
Proof.
  revert s. induction c as [|[[] ? ? ? ? ?] c IH]; intros s; simpl.
  - by rewrite app_nil_r.
  - unfold plug in *. rewrite IH. simpl. by rewrite <-!app_assoc.
  - unfold plug in *. rewrite IH. simpl. by rewrite <-!app_assoc.
Qed.

Lemma ids_plug s c : ids (plug s c) ≡ₚ ids s ++ ctx_ids c.
Proof.
  revert s. induction c as [|[[] ? ? ? ? ?] c IH]; intros s; simpl.
  - by rewrite app_nil_r.
  - unfold plug in *. rewrite IH. simpl. solve_Permutation.
  - unfold plug in *. rewrite IH. simpl. solve_Permutation.
Qed.

Lemma length_elems_ids s : length (ids s) = length (elems s).
Proof. by rewrite ids_elems, length_fmap. Qed.

(** ** Updates of the arena away from a tree *)

Lemma rep_alter_ne h p s x (f : TreeNode K V → TreeNode K V) :
  x ∉ ids s → rep h p s → rep (alter f x h) p s.
Proof.
  revert p. induction s as [|? l IHl y ? ? r IHr]; intros p Hx; simpl; [done|].
  nd. intros (Hy & Hl & Hr). rewrite lookup_alter_ne by done. auto.
Qed.

Lemma rep_insert_ne h p s x (n : TreeNode K V) :
  x ∉ ids s → rep h p s → rep (<[x := n]> h) p s.
Proof.
  revert p. induction s as [|? l IHl y ? ? r IHr]; intros p Hx; simpl; [done|].
  nd. intros (Hy & Hl & Hr). rewrite lookup_insert_ne by done. auto.
Qed.

Lemma rep_ctx_alter_ne h c hole top pp x (f : TreeNode K V → TreeNode K V) :
  x ∉ ctx_ids c → rep_ctx h c hole top pp → rep_ctx (alter f x h) c hole top pp.
Proof.
  revert hole. induction c as [|[d ? y ? ? sib] c IH]; intros hole Hx; simpl; [done|].
  nd. intros (Hy & Hs & Hc). rewrite lookup_alter_ne by done.
  auto using rep_alter_ne.
Qed.

Lemma rep_ctx_insert_ne h c hole top pp x (n : TreeNode K V) :
  x ∉ ctx_ids c → rep_ctx h c hole top pp → rep_ctx (<[x := n]> h) c hole top pp.
Proof.
  revert hole. induction c as [|[d ? y ? ? sib] c IH]; intros hole Hx; simpl; [done|].
  nd. intros (Hy & Hs & Hc). rewrite lookup_insert_ne by done.
  auto using rep_insert_ne.
Qed.

(** The nodes of a tree are in the arena. *)
Lemma rep_lookup h p s x : rep h p s → x ∈ ids s → is_Some (h !! x).
Proof.
  revert p. induction s as [|? l IHl y ? ? r IHr]; simpl; intros p.
  - intros _ Hx. inversion Hx.
  - intros (Hy & Hl & Hr) Hx. apply elem_of_app in Hx as [Hx|Hx]; [eauto|].
    apply elem_of_cons in Hx as [->|Hx]; eauto.
Qed.

Lemma rep_ctx_lookup h c hole top pp x :
  rep_ctx h c hole top pp → x ∈ ctx_ids c → is_Some (h !! x).
Proof.
  revert hole. induction c as [|[d ? y ? ? sib] c IH]; simpl; intros hole.
  - intros _ Hx. inversion Hx.
  - intros (Hy & Hs & Hc) Hx. apply elem_of_cons in Hx as [->|Hx]; [eauto|].
    apply elem_of_app in Hx as [Hx|Hx]; eauto using rep_lookup.
Qed.

(** ** Moving the focus *)

Lemma Rep_at_nil t s : Rep_at t [] s ↔ Rep t s.
Proof.
  unfold Rep_at, Rep. simpl. rewrite app_nil_r.
  split; intros (? & ? & ?); split_and!; congruence.
Qed.

Lemma Rep_at_fill t c (f : frame K V) s : Rep_at t (f :: c) s ↔ Rep_at t c (fill f s).
Proof.
  unfold Rep_at. destruct f as [[] col x k v sib]; simpl.
  - split.
    + intros (Hs & (Hx & Hsib & Hc) & Hnd). split_and!; try done.
      eapply NoDup_Permutation_proper; [|exact Hnd].
      solve_Permutation.
    + intros ((Hx & Hs & Hsib) & Hc & Hnd). split_and!; try done.
      eapply NoDup_Permutation_proper; [|exact Hnd].
      solve_Permutation.
  - split.
    + intros (Hs & (Hx & Hsib & Hc) & Hnd). split_and!; try done.
      eapply NoDup_Permutation_proper; [|exact Hnd].
      solve_Permutation.
    + intros ((Hx & Hsib & Hs) & Hc & Hnd). split_and!; try done.
      eapply NoDup_Permutation_proper; [|exact Hnd].
      solve_Permutation.
Qed.

Lemma Rep_at_plug t c s : Rep_at t c s ↔ Rep t (plug s c).
Proof.
  revert s. induction c as [|f c IH]; intros s.
  - apply Rep_at_nil.
  - rewrite Rep_at_fill. apply IH.
Qed.


(** ** Rotations *)


Lemma size_set_color_of (r : ref) col t : size (set_color_of r col t) = size t.
Proof. by destruct r. Qed.
Lemma compare_set_color_of (r : ref) col t : compare (set_color_of r col t) = compare t.
Proof. by destruct r. Qed.
Lemma valuePolicy_set_color_of (r : ref) col t :
  valuePolicy (set_color_of r col t) = valuePolicy t.
Proof. by destruct r. Qed.
Lemma size_set_parent_of (r : ref) p t : size (set_parent_of r p t) = size t.
Proof. by destruct r. Qed.
Lemma compare_set_parent_of (r : ref) p t : compare (set_parent_of r p t) = compare t.
Proof. by destruct r. Qed.
Lemma valuePolicy_set_parent_of (r : ref) p t :
  valuePolicy (set_parent_of r p t) = valuePolicy t.
Proof. by destruct r. Qed.

Lemma ref_of_ne s x : x ∉ ids s → ref_of s ≠ Some x.
Proof. destruct s; simpl; [done|]. intros. nd. Qed.

Lemma color_of_rep h p s : rep h p s → color_of h (ref_of s) = Ok (tcolor s).
Proof.
  destruct s; simpl; [done|]. intros (Hx & _). unfold node. by rewrite Hx.
Qed.

End Proofs.

(** What operations leave alone in the tree object. *)
Ltac meta :=
  unfold same_meta in *; simpl in *;
  rewrite ?size_set_color_of, ?compare_set_color_of, ?valuePolicy_set_color_of,
    ?size_set_parent_of, ?compare_set_parent_of, ?valuePolicy_set_parent_of in *;
  destruct_and?; split_and?; (congruence || lia).

(** Symbolic execution on the arena. *)
Ltac ne_solve :=
  solve [ assumption | apply not_eq_sym; assumption
        | apply ref_of_ne; assumption
        | apply not_eq_sym, ref_of_ne; assumption
        | discriminate
        | intros [=]; congruence ].
Ltac eq_false :=
  solve [ discriminate | congruence
        | match goal with
          | H : Some ?x = ref_of ?s |- _ =>
              symmetry in H; revert H; apply ref_of_ne; assumption
          | H : ref_of ?s = Some ?x |- _ =>
              revert H; apply ref_of_ne; assumption
          end ].
Ltac hstep :=
  first
  [ match goal with
    | H : rep ?h _ ?s |- context [color_of ?h (ref_of ?s)] =>
        rewrite (color_of_rep h _ s H)
    | |- context [alter ?f ?x ?h !! ?x] => rewrite (lookup_alter_eq f h x)
    | |- context [alter ?f ?x ?h !! ?y] => rewrite (lookup_alter_ne f h x y) by ne_solve
    | |- context [<[?x := ?n]> ?h !! ?x] => rewrite (lookup_insert_eq h x n)
    | |- context [<[?x := ?n]> ?h !! ?y] => rewrite (lookup_insert_ne h x y n) by ne_solve
    | H : ?h !! ?x = Some _ |- context [?h !! ?x] => rewrite H
    | H : tcolor ?s = _ |- context [tcolor ?s] => rewrite H
    | |- context [decide (?a = ?a)] => rewrite (decide_True (P := a = a)) by reflexivity
    | |- context [decide (?a = ?b)] =>
        first [ rewrite (decide_False (P := a = b)) by ne_solve
              | rewrite (decide_True (P := a = b)) by (assumption || congruence) ]
    | |- context [decide (?a = ?b ∧ ?c = ?d)] =>
        first [ rewrite (decide_True (P := a = b ∧ c = d))
                  by (split; (reflexivity || assumption))
              | rewrite (decide_False (P := a = b ∧ c = d))
                  by (intros [? ?]; eq_false) ]
    end
  | progress (unfold node, grandparent, uncle, sibling)
  | progress simpl ].
Ltac hsimpl := repeat hstep.

Ltac rep_frame :=
  repeat first
  [ assumption
  | apply rep_alter_ne; [solve [nd_atom]|]
  | apply rep_ctx_alter_ne; [solve [nd_atom]|] ].

(** ** Rotations *)

Section Rotations.
Context {K V : Type}.
Implicit Types (h : gmap positive (TreeNode K V)) (s l r : tree K V)
  (c : ctx K V) (t : Tree K V) (x y : positive) (p : ref).

Lemma rotateLeft_spec t c cx a x kx vx cy b y ky vy d :
  Rep_at t c (Node cx a x kx vx (Node cy b y ky vy d)) →
  ∃ t', rotateLeft t x = Ok t' ∧ same_meta t t' ∧
        Rep_at t' c (Node cy (Node cx a x kx vx b) y ky vy d).
Proof.
  unfold Rep_at, rotateLeft, same_meta. simpl.
  intros ((Hx & Ha & Hy & Hb & Hd) & Hc & Hnd). nd.
  destruct b as [|cb bl bx bk bv br]; destruct c as [|[[] cp p kp vp sib] c'];
    simpl in *; nd; destruct_and?; hsimpl.
  all: eexists; split; [reflexivity|]; split; [done|]; hsimpl.
  all: split_and!; try done; rep_frame; nd.
Qed.

Lemma rotateRight_spec t c cx a x kx vx cy b y ky vy d :
  Rep_at t c (Node cx (Node cy d y ky vy b) x kx vx a) →
  ∃ t', rotateRight t x = Ok t' ∧ same_meta t t' ∧
        Rep_at t' c (Node cy d y ky vy (Node cx b x kx vx a)).
Proof.
  unfold Rep_at, rotateRight, same_meta. simpl.
  intros ((Hx & (Hy & Hd & Hb) & Ha) & Hc & Hnd). nd.
  destruct b as [|cb bl bx bk bv br]; destruct c as [|[[] cp p kp vp sib] c'];
    simpl in *; nd; destruct_and?; hsimpl.
  all: eexists; split; [reflexivity|]; split; [done|]; hsimpl.
  all: split_and!; try done; rep_frame; nd.
Qed.

End Rotations.

Section InsertFixup.
Context {K V : Type}.
Implicit Types (h : gmap positive (TreeNode K V)) (s l r : tree K V)
  (c : ctx K V) (t : Tree K V) (x y : positive) (p : ref).

(** ** Red-black shape of trees and contexts *)

Lemma blacken_rbh s n : rbh s n → ∃ m, rbh (blacken s) m.
Proof.
  destruct s as [|[] l x k v r]; simpl.
  - eauto.
  - intros (_ & _ & Hl & Hr). exists (S n). auto.
  - eauto.
Qed.

Lemma plug_rbh c : ∀ s n m,
  rbh s n → ctx_rbh c n m →
  match c with Frame _ RED _ _ _ _ :: _ => tcolor s = BLACK | _ => True end →
  rbh (plug s c) m.
Proof.
  induction c as [|[d [] x k v sib] c IH]; intros s n m Hs Hc Hcol; simpl in *.
  - by subst.
  - destruct Hc as (Hsibc & Hsib & Hup & Hc).
    apply (IH _ n); [destruct d; simpl; auto|done|].
    destruct c as [|[? [] ? ? ? ?] ?]; simpl in *; done.
  - destruct Hc as (Hsib & Hc).
    apply (IH _ (S n)); [destruct d; simpl; auto|done|].
    destruct c as [|[? [] ? ? ? ?] ?]; simpl in *; destruct d; done.
Qed.

Lemma rbh_black_root_plug c s : c ≠ [] → ∀ n m, ctx_rbh c n m → tcolor (plug s c) = BLACK.
Proof.
  revert s. induction c as [|[d col x k v sib] c IH]; intros s Hne n m Hc; [done|].
  simpl. destruct c as [|f c'].
  - destruct col; simpl in Hc; [naive_solver|]. by destruct d.
  - destruct col; simpl in Hc.
    + eapply (IH _ ltac:(done) n m). naive_solver.
    + eapply (IH _ ltac:(done) (S n) m). naive_solver.
Qed.

(** ** Recolouring the node in focus *)

Lemma recolor_focus t c col col' l x k v r :
  Rep_at t c (Node col l x k v r) →
  Rep_at (upd (with_color col') x t) c (Node col' l x k v r).
Proof.
  unfold Rep_at. simpl. intros ((Hx & Hl & Hr) & Hc & Hnd). nd.
  all: hsimpl; try done; rep_frame.
Qed.

Lemma same_meta_refl t : same_meta t t.
Proof. by unfold same_meta. Qed.

Lemma same_meta_trans t1 t2 t3 : same_meta t1 t2 → same_meta t2 t3 → same_meta t1 t3.
Proof. unfold same_meta. intros (?&?&?) (?&?&?). split_and!; congruence. Qed.

Lemma same_meta_upd t f x : same_meta t (upd f x t).
Proof. by unfold same_meta. Qed.


Lemma Rep_at_down_L t c col s x k v sib :
  Rep_at t c (Node col s x k v sib) → Rep_at t (Frame L col x k v sib :: c) s.
Proof. intros H. by apply Rep_at_fill. Qed.

Lemma Rep_at_down_R t c col s x k v sib :
  Rep_at t c (Node col sib x k v s) → Rep_at t (Frame R col x k v sib :: c) s.
Proof. intros H. by apply Rep_at_fill. Qed.

Lemma Rep_at_up_L t c col s x k v sib :
  Rep_at t (Frame L col x k v sib :: c) s → Rep_at t c (Node col s x k v sib).
Proof. intros H. by apply Rep_at_fill in H. Qed.

Lemma Rep_at_up_R t c col s x k v sib :
  Rep_at t (Frame R col x k v sib :: c) s → Rep_at t c (Node col sib x k v s).
Proof. intros H. by apply Rep_at_fill in H. Qed.

Lemma Rep_at_up t c d col s x k v sib :
  Rep_at t (Frame d col x k v sib :: c) s →
  Rep_at t c (fill (Frame d col x k v sib) s).
Proof. intros H. by apply Rep_at_fill in H. Qed.

Lemma Rep_at_node t c col l x k v r :
  Rep_at t c (Node col l x k v r) →
  nodes t !! x = Some (mkTreeNode (ref_of l) (ref_of r) (ctx_parent null c) k v col).
Proof. by intros ((? & _) & _). Qed.

Lemma recolor_frame t c d col col' s x k v sib :
  Rep_at t (Frame d col x k v sib :: c) s →
  Rep_at (upd (with_color col') x t) (Frame d col' x k v sib :: c) s.
Proof.
  intros H. apply Rep_at_fill. apply Rep_at_fill in H.
  destruct d; simpl in *; by apply (recolor_focus _ _ col).
Qed.

Lemma recolor_sibling t c d col cs cs' s x k v sl sx sk sv sr :
  Rep_at t (Frame d col x k v (Node cs sl sx sk sv sr) :: c) s →
  Rep_at (upd (with_color cs') sx t) (Frame d col x k v (Node cs' sl sx sk sv sr) :: c) s.
Proof.
  intros H. apply Rep_at_fill. apply Rep_at_fill in H.
  destruct d; simpl in *.
  - apply Rep_at_up_R, (recolor_focus _ _ cs). by apply Rep_at_down_R.
  - apply Rep_at_up_L, (recolor_focus _ _ cs). by apply Rep_at_down_L.
Qed.

Lemma Rep_at_frame t c d col s x k v sib :
  Rep_at t (Frame d col x k v sib :: c) s →
  nodes t !! x = Some (mkTreeNode (if d is L then ref_of s else ref_of sib)
                                  (if d is L then ref_of sib else ref_of s)
                                  (ctx_parent null c) k v col).
Proof. by intros (_ & (? & _) & _). Qed.

Lemma Rep_at_sibling t c d col s x k v sib :
  Rep_at t (Frame d col x k v sib :: c) s → rep (nodes t) (Some x) sib.
Proof. by intros (_ & (_ & ? & _) & _). Qed.

Lemma Rep_at_NoDup t c s : Rep_at t c s → NoDup (ids s ++ ctx_ids c).
Proof. by intros (_ & _ & ?). Qed.


(** ** Insert-fixup *)

Lemma insertFixup_spec fuel : ∀ c t l n k v r hh m,
  length c < fuel →
  Rep_at t c (Node RED l n k v r) →
  rbh (Node RED l n k v r) hh →
  ctx_rbh c hh m →
  ∃ t' s', insertFixup fuel t n = Ok t' ∧ same_meta t t' ∧ Rep t' s' ∧
           elems s' = elems (plug (Node RED l n k v r) c) ∧
           ∃ m', rbh (blacken s') m'.
Proof.
  induction fuel as [|fuel IH]; intros c t l n k v r hh m Hlen Hrep Hrb Hctx; [lia|].
  destruct c as [|[d cp p kp vp sib] c'].
  { (* [n] is the root *)
    exists t, (Node RED l n k v r).
    pose proof (Rep_at_node _ _ _ _ _ _ _ _ Hrep) as Hn.
    split_and!; [by hsimpl|apply same_meta_refl|by apply Rep_at_nil|done|].
    eapply blacken_rbh, Hrb. }
  destruct cp.
  2:{ (* the parent is Black *)
    exists t, (plug (Node RED l n k v r) (Frame d BLACK p kp vp sib :: c')).
    pose proof (Rep_at_node _ _ _ _ _ _ _ _ Hrep) as Hn.
    pose proof (Rep_at_frame _ _ _ _ _ _ _ _ _ Hrep) as Hp.
    split_and!; [by hsimpl|apply same_meta_refl|by apply Rep_at_plug|done|].
    eapply blacken_rbh, plug_rbh; eauto. }
  (* the parent is Red: the grandparent is Black *)
  simpl in Hctx. destruct Hctx as (Hsibc & Hsib & Hup & Hctx).
  destruct c' as [|[d' cg g kg vg u] c'']; [done|]. simpl in Hup. subst cg.
  simpl in Hctx. destruct Hctx as (Hu & Hctx).
  pose proof (Rep_at_node _ _ _ _ _ _ _ _ Hrep) as Hn.
  pose proof (Rep_at_frame _ _ _ _ _ _ _ _ _ Hrep) as Hp.
  pose proof (Rep_at_up _ _ _ _ _ _ _ _ _ Hrep) as Hrep1.
  pose proof (Rep_at_frame _ _ _ _ _ _ _ _ _ Hrep1) as Hg.
  pose proof (Rep_at_sibling _ _ _ _ _ _ _ _ _ Hrep1) as Hur.
  pose proof (Rep_at_NoDup _ _ _ Hrep) as Hnd.
  destruct (tcolor u) eqn:Hcu.
  - (* case (a): the uncle is Red *)
    destruct u as [|cu ul ux uk uv ur]; [done|]. simpl in Hcu; subst cu.
    assert (Hr3 := recolor_frame _ _ _ _ BLACK _ _ _ _ _ Hrep).
    apply Rep_at_up in Hr3. apply (recolor_sibling _ _ _ _ _ BLACK) in Hr3.
    apply (recolor_frame _ _ _ _ RED) in Hr3. apply Rep_at_up in Hr3.
    destruct d, d'; simpl in *; nd; destruct_and?.
    all: edestruct (IH c'' _ _ _ _ _ _ (S hh) m ltac:(lia) Hr3)
           as (t' & s' & Heq & Hm & Hrep' & Hel & Hrb'); [simpl in *; tauto..|].
    all: exists t', s'; split_and!;
           [ hsimpl; exact Heq
           | exact Hm
           | done
           | rewrite Hel, !elems_plug; list_eq
           | done ].
  - (* cases (b) and (c): the uncle is Black *)
    destruct d, d'; simpl in Hrep1.
    + assert (Hr3 := recolor_focus _ _ _ BLACK _ _ _ _ _ Hrep1).
      apply Rep_at_up in Hr3. apply (recolor_focus _ _ _ RED) in Hr3.
      destruct (rotateRight_spec _ _ _ _ _ _ _ _ _ _ _ _ _ Hr3) as (t' & Heq & Hm & Hr').
      eexists t', _. split_and!; [|exact Hm|apply Rep_at_plug, Hr'| |].
      * nd. hsimpl. exact Heq.
      * rewrite !elems_plug. list_eq.
      * eapply blacken_rbh, (plug_rbh _ _ (S hh)); [simpl in *; tauto|done|by destruct c'' as [|[? [] ? ? ? ?] ?]].
    + destruct (rotateRight_spec _ _ _ _ _ _ _ _ _ _ _ _ _ Hrep1) as (t1 & Heq1 & Hm1 & Hr1).
      pose proof (Rep_at_node _ _ _ _ _ _ _ _ Hr1) as Hn1.
      assert (Hr3 := recolor_focus _ _ _ BLACK _ _ _ _ _ Hr1).
      apply Rep_at_up in Hr3. apply (recolor_focus _ _ _ RED) in Hr3.
      destruct (rotateLeft_spec _ _ _ _ _ _ _ _ _ _ _ _ _ Hr3) as (t' & Heq & Hm & Hr').
      eexists t', _. split_and!; [|clear -Hm Hm1; meta|apply Rep_at_plug, Hr'| |].
      * nd. hsimpl. rewrite Heq1. hsimpl. exact Heq.
      * rewrite !elems_plug. list_eq.
      * eapply blacken_rbh, (plug_rbh _ _ (S hh)); [simpl in *; tauto|done|by destruct c'' as [|[? [] ? ? ? ?] ?]].
    + destruct (rotateLeft_spec _ _ _ _ _ _ _ _ _ _ _ _ _ Hrep1) as (t1 & Heq1 & Hm1 & Hr1).
      pose proof (Rep_at_node _ _ _ _ _ _ _ _ Hr1) as Hn1.
      assert (Hr3 := recolor_focus _ _ _ BLACK _ _ _ _ _ Hr1).
      apply Rep_at_up in Hr3. apply (recolor_focus _ _ _ RED) in Hr3.
      destruct (rotateRight_spec _ _ _ _ _ _ _ _ _ _ _ _ _ Hr3) as (t' & Heq & Hm & Hr').
      eexists t', _. split_and!; [|clear -Hm Hm1; meta|apply Rep_at_plug, Hr'| |].
      * nd. hsimpl. rewrite Heq1. hsimpl. exact Heq.
      * rewrite !elems_plug. list_eq.
      * eapply blacken_rbh, (plug_rbh _ _ (S hh)); [simpl in *; tauto|done|by destruct c'' as [|[? [] ? ? ? ?] ?]].
    + assert (Hr3 := recolor_focus _ _ _ BLACK _ _ _ _ _ Hrep1).
      apply Rep_at_up in Hr3. apply (recolor_focus _ _ _ RED) in Hr3.
      destruct (rotateLeft_spec _ _ _ _ _ _ _ _ _ _ _ _ _ Hr3) as (t' & Heq & Hm & Hr').
      eexists t', _. split_and!; [|exact Hm|apply Rep_at_plug, Hr'| |].
      * nd. hsimpl. exact Heq.
      * rewrite !elems_plug. list_eq.
      * eapply blacken_rbh, (plug_rbh _ _ (S hh)); [simpl in *; tauto|done|by destruct c'' as [|[? [] ? ? ? ?] ?]].
Qed.


End InsertFixup.

(** ** Insertion *)

Section Insert.
Context {K V : Type}.
Implicit Types (h : gmap positive (TreeNode K V)) (s l r : tree K V)
  (c : ctx K V) (t : Tree K V) (x y : positive) (p : ref).

Lemma height_le_size s : height s ≤ length (elems s).
Proof.
  induction s as [|? l IHl ? ? ? r IHr]; simpl; [done|].
  rewrite length_app. simpl. lia.
Qed.

Lemma insertAt_spec mode n kn vn cn : ∀ fuel s c t x,
  height s < fuel → ref_of s = Some x →
  Rep_at t c s →
  nodes t !! n = Some (mkTreeNode null null null kn vn cn) →
  n ∉ ids s ++ ctx_ids c →
  path (ins_left (compare t) kn) (ins_right (compare t) mode kn) c →
  ∃ t' res, insertAt fuel t x n mode = Ok (t', res) ∧ same_meta t t' ∧
            insertAt_post mode n kn vn cn t (plug s c) t' res.
Proof.
  induction fuel as [|fuel IH]; intros s c t x Hfuel Hx Hrep Hn Hfresh Hpath; [lia|].
  destruct s as [|cx l x' kx vx r]; [done|].
  simpl in Hx. injection Hx as ->. simpl in Hfuel.
  pose proof (Rep_at_node _ _ _ _ _ _ _ _ Hrep) as Hnx.
  pose proof (Rep_at_NoDup _ _ _ Hrep) as Hnd.
  assert (Hleft : ins_left (compare t) kn kx →
    ∃ t' res, match ref_of l with
              | Some l' => insertAt fuel t l' n mode
              | None => Ok (upd (with_parent (Some x)) n (upd (with_left (Some n)) x t), null)
              end = Ok (t', res) ∧ same_meta t t' ∧
              insertAt_post mode n kn vn cn t (plug (Node cx l x kx vx r) c) t' res).
  { intros Hcmp. destruct (ref_of l) as [l'|] eqn:El.
    - apply Rep_at_down_L in Hrep.
      apply (IH l (Frame L cx x kx vx r :: c) t l'); [lia|done|done|done| |].
      + clear -Hfresh. nd.
      + constructor; [exact Hcmp|exact Hpath].
    - destruct l; [|done]. clear IH.
      eexists _, None. split_and!; [done|by unfold same_meta|].
      exists (Frame L cx x kx vx r :: c). split_and!; [done| |constructor; [exact Hcmp|exact Hpath]].
      destruct Hrep as ((_ & _ & Hr) & Hc & _). unfold Rep_at. nd.
      all: hsimpl; try done; rep_frame. }
  assert (Hright : ins_right (compare t) mode kn kx →
    ∃ t' res, match ref_of r with
              | Some r' => insertAt fuel t r' n mode
              | None => Ok (upd (with_parent (Some x)) n (upd (with_right (Some n)) x t), null)
              end = Ok (t', res) ∧ same_meta t t' ∧
              insertAt_post mode n kn vn cn t (plug (Node cx l x kx vx r) c) t' res).
  { intros Hcmp. destruct (ref_of r) as [r'|] eqn:El.
    - apply Rep_at_down_R in Hrep.
      apply (IH r (Frame R cx x kx vx l :: c) t r'); [lia|done|done|done| |].
      + clear -Hfresh. nd.
      + constructor; [exact Hcmp|exact Hpath].
    - destruct r; [|done]. clear IH.
      eexists _, None. split_and!; [done|by unfold same_meta|].
      exists (Frame R cx x kx vx l :: c). split_and!; [done| |constructor; [exact Hcmp|exact Hpath]].
      destruct Hrep as ((_ & Hl & _) & Hc & _). unfold Rep_at. nd.
      all: hsimpl; try done; rep_frame. }
  clear IH. simpl. hsimpl. unfold ins_left, ins_right in *.
  destruct (compare t kn kx) eqn:Hcmp.
  - destruct mode.
    + eexists _, _. split_and!; [done|apply same_meta_refl|].
      split_and!; [done|done|]. exists c, cx, l, kx, vx, vx, r. done.
    + apply Hright. auto.
    + destruct (valuePolicy t).
      * eexists _, _. split_and!; [done|apply same_meta_refl|].
        split_and!; [done|done|]. exists c, cx, l, kx, vx, vx, r. done.
      * eexists _, _. split_and!; [done|by unfold same_meta|].
        split_and!; [done|done|]. exists c, cx, l, kx, vx, vn, r. split_and!; [done|done|].
        clear Hleft Hright.
        destruct Hrep as ((_ & Hl & Hr) & Hc & _). unfold Rep_at. nd.
        all: hsimpl; try done; rep_frame.
  - destruct mode; apply Hleft; auto.
  - destruct mode; apply Hright; auto.
Qed.

Lemma unplug_rbh c : ∀ s m,
  rbh (plug s c) m → tcolor (plug s c) = BLACK →
  ∃ n, rbh s n ∧ ctx_rbh c n m ∧
       match c with Frame _ RED _ _ _ _ :: _ => tcolor s = BLACK | _ => True end.
Proof.
  induction c as [|[d col x k v sib] c IH]; intros s m Hrb Hb.
  - exists m. done.
  - destruct (IH (fill (Frame d col x k v sib) s) m Hrb Hb) as (n & Hn & Hc & Hhead).
    destruct col.
    + exists n. assert (tcolor s = BLACK ∧ tcolor sib = BLACK ∧ rbh s n ∧ rbh sib n)
        as (? & ? & ? & ?) by (destruct d; simpl in Hn; tauto).
      split_and!; try done. simpl. split_and!; try done.
      destruct c as [|[d' [] ? ? ? ?] c']; simpl in *.
      * by destruct d.
      * by destruct d.
      * done.
    + destruct n as [|n]; [by destruct d|].
      exists n. assert (rbh s n ∧ rbh sib n) as (? & ?) by (destruct d; simpl in Hn; tauto).
      simpl. done.
Qed.

Lemma ctx_length c : length c ≤ length (ctx_before c ++ ctx_after c).
Proof.
  induction c as [|[[] col x k v sib] c IH]; simpl; [done| |];
    rewrite ?length_app in *; simpl; rewrite ?length_app; simpl; lia.
Qed.

Lemma length_elems_plug s c :
  length (elems (plug s c)) = length (elems s) + length (ctx_before c ++ ctx_after c).
Proof. rewrite elems_plug, !length_app. lia. Qed.

Lemma Rep_blacken t s : Rep t s → Rep (set_color_of (root t) BLACK t) (blacken s).
Proof.
  intros (Hs & Hroot & Hnd). rewrite Hroot. destruct s as [|col l x k v r]; [done|].
  apply Rep_at_nil. apply (recolor_focus _ _ col). by apply Rep_at_nil.
Qed.

Lemma Rep_at_with_size t c s n : Rep_at t c s → Rep_at (with_size n t) c s.
Proof. done. Qed.

Lemma elems_blacken s : elems (blacken s) = elems s.
Proof. by destruct s. Qed.

Lemma tcolor_blacken s : tcolor (blacken s) = BLACK.
Proof. by destruct s. Qed.

(** The end of an insertion, once the new node is linked at an absent
    child. *)
Lemma insert_finish t c n kn vn cn m :
  Rep_at t c (Node cn Leaf n kn vn Leaf) →
  ctx_rbh c 0 m →
  length c ≤ size t →
  ∃ t' s',
    insertFixup (S (S (size t))) (with_size (S (size t)) (upd (with_color RED) n t)) n = Ok t' ∧
    same_meta (with_size (S (size t)) t) t' ∧
    Rep (set_color_of (root t') BLACK t') (blacken s') ∧
    elems s' = elems (plug (Node RED Leaf n kn vn Leaf) c) ∧
    ∃ m', rbh (blacken s') m'.
Proof.
  intros Hrep Hctx Hlen.
  apply (recolor_focus _ _ _ RED) in Hrep. apply (Rep_at_with_size _ _ _ (S (size t))) in Hrep.
  destruct (insertFixup_spec (S (S (size t))) c _ _ _ _ _ _ 0 m ltac:(lia) Hrep)
    as (t' & s' & Heq & Hm & Hrep' & Hel & Hrb); [done..|].
  exists t', s'. split_and!; try done. by apply Rep_blacken.
Qed.

Lemma tcolor_plug s1 s2 c : tcolor s1 = tcolor s2 → tcolor (plug s1 c) = tcolor (plug s2 c).
Proof.
  revert s1 s2. induction c as [|[[] col x k v sib] c IH]; intros s1 s2 H; simpl; [done|..];
    by apply IH.
Qed.

Lemma insertNode_spec mode t s n kn vn cn :
  Shape t s →
  nodes t !! n = Some (mkTreeNode null null null kn vn cn) →
  n ∉ ids s →
  ∃ t' res, insertNode t n mode = Ok (t', res) ∧ insertNode_post mode n kn t s t' res.
Proof.
  intros (Hrep & (m & Hrb) & Hblack & Hsize) Hn Hfresh.
  pose proof Hrep as (Hs & Hroot & Hnd).
  unfold insertNode. rewrite Hroot.
  destruct s as [|cx l x kx vx r] eqn:Es.
  - (* the tree is empty *)
    simpl.
    assert (Hr1 : Rep_at (with_root (Some n) t) [] (Node cn Leaf n kn vn Leaf)).
    { unfold Rep_at. simpl. rewrite Hn. split_and!; try done. apply NoDup_singleton. }
    destruct (insert_finish _ _ _ _ _ _ 0 Hr1 eq_refl ltac:(simpl; lia))
      as (t' & s' & Heq & Hm & Hrep' & Hel & Hrb').
    simpl in Heq |- *. rewrite Heq. simpl.
    eexists _, _. split; [done|]. unfold insertNode_post.
    split_and!; [clear -Hm; meta..|]. left. split_and!; [done|clear -Hm; meta|].
    exists (blacken s'), []. split_and!; try done.
    + split_and!; [done|done|apply tcolor_blacken|].
      rewrite elems_blacken, Hel. simpl in *. clear -Hm Hsize. meta.
    + by rewrite elems_blacken, Hel.
    + constructor.
  - rewrite <-Es in *. assert (Hx : ref_of s = Some x) by by subst.
    apply Rep_at_nil in Hrep.
    destruct (insertAt_spec mode n kn vn cn (S (size t)) s [] t x) as (t1 & res & Heq & Hm1 & Hpost);
      [pose proof (height_le_size s); lia|done|done|done|simpl; by rewrite app_nil_r|constructor|].
    rewrite Hx. cbn beta iota. rewrite Heq. simpl. clear Heq.
    destruct res as [y|]; simpl in Hpost.
    + destruct Hpost as (Hmode & Huniq & c' & cy & l' & k & v & v' & r' & Hplug & Hcmp & Hrep1).
      simpl in Hplug.
      eexists _, _. split; [done|]. unfold insertNode_post.
      split_and!; [clear -Hm1; meta..|]. right. exists y.
      split_and!; [done|done|done|clear -Hm1; meta|].
      exists (plug (Node cy l' y k v' r') c'), c', cy, l', k, v, r'.
      split_and!; try done.
      * rewrite <-Hplug in Hrb, Hblack.
        destruct (unplug_rbh _ _ _ Hrb Hblack) as (n' & Hn' & Hc' & Hhead).
        split_and!.
        -- by apply Rep_at_plug.
        -- exists m. by apply (plug_rbh _ _ n').
        -- rewrite <-Hblack. by apply tcolor_plug.
        -- rewrite <-Hplug, !length_elems_plug in Hsize. rewrite length_elems_plug.
           simpl in *. clear -Hsize Hm1. meta.
      * rewrite <-Hplug, !elems_plug. done.
    + destruct Hpost as (c' & Hplug & Hrep1 & Hpath). simpl in Hplug.
      rewrite <-Hplug in Hrb, Hblack.
      destruct (unplug_rbh _ _ _ Hrb Hblack) as (n' & Hn' & Hc' & Hhead).
      simpl in Hn'. subst n'.
      assert (Hlen : length c' ≤ size t1).
      { pose proof (ctx_length c'). rewrite <-Hplug, length_elems_plug in Hsize.
        simpl in Hsize. clear -Hsize Hm1 H. unfold same_meta in Hm1. lia. }
      destruct (insert_finish _ _ _ _ _ _ m Hrep1 Hc' Hlen)
        as (t' & s' & Heq & Hm & Hrep' & Hel & Hrb').
      simpl in Heq |- *. rewrite Heq. simpl.
      eexists _, _. split; [done|]. unfold insertNode_post.
      split_and!; [clear -Hm Hm1; meta..|]. left. split_and!; [done|clear -Hm Hm1; meta|].
      exists (blacken s'), c'. split_and!; try done.
      * split_and!; [done|done|apply tcolor_blacken|].
        rewrite elems_blacken, Hel, length_elems_plug.
        rewrite <-Hplug, length_elems_plug in Hsize. simpl in *.
        clear -Hm Hm1 Hsize. meta.
      * rewrite elems_blacken, Hel, elems_plug. done.
Qed.

End Insert.

(** ** Comparators and sorted sequences *)

Section Order.
Context {K : Type} (cmp : K → K → comparison) (Hcmp : valid_compare cmp).

Lemma cmp_refl a : cmp a a = Eq.
Proof using Hcmp. pose proof (cmp_antisym cmp Hcmp a a). destruct (cmp a a); done. Qed.

Lemma cmp_lt_gt a b : cmp a b = Lt ↔ cmp b a = Gt.
Proof using Hcmp.
  rewrite (cmp_antisym cmp Hcmp a b). destruct (cmp a b); simpl; split; done.
Qed.

Lemma cmp_eq_sym a b : cmp a b = Eq → cmp b a = Eq.
Proof using Hcmp. rewrite (cmp_antisym cmp Hcmp a b). by intros ->. Qed.

Lemma cmp_lt_le_trans a b c : cmp a b = Lt → cmp b c ≠ Gt → cmp a c = Lt.
Proof using Hcmp.
  intros Hab Hbc. destruct (cmp a c) eqn:Hac; [|done|].
  - exfalso. assert (cmp c a ≠ Gt) by (rewrite (cmp_eq_sym _ _ Hac); done).
    pose proof (cmp_trans cmp Hcmp b c a Hbc H) as Hba.
    apply Hba, cmp_lt_gt, Hab.
  - exfalso. assert (cmp c a ≠ Gt) by (apply cmp_lt_gt in Hac; by rewrite Hac).
    pose proof (cmp_trans cmp Hcmp b c a Hbc H) as Hba.
    apply Hba, cmp_lt_gt, Hab.
Qed.

Lemma cmp_le_lt_trans a b c : cmp a b ≠ Gt → cmp b c = Lt → cmp a c = Lt.
Proof using Hcmp.
  intros Hab Hbc. destruct (cmp a c) eqn:Hac; [|done|].
  - exfalso. assert (cmp c a ≠ Gt) by (rewrite (cmp_eq_sym _ _ Hac); done).
    pose proof (cmp_trans cmp Hcmp c a b H Hab) as Hcb.
    apply Hcb, cmp_lt_gt, Hbc.
  - exfalso. assert (cmp c a ≠ Gt) by (apply cmp_lt_gt in Hac; by rewrite Hac).
    pose proof (cmp_trans cmp Hcmp c a b H Hab) as Hcb.
    apply Hcb, cmp_lt_gt, Hbc.
Qed.

Lemma cmp_lt_le a b : cmp a b = Lt → cmp a b ≠ Gt.
Proof. by intros ->. Qed.

Lemma cmp_gt_ge a b : cmp a b = Gt → cmp b a ≠ Gt.
Proof using Hcmp. intros H. apply cmp_lt_gt in H. by rewrite H. Qed.

Lemma cmp_eq_le a b : cmp a b = Eq → cmp a b ≠ Gt ∧ cmp b a ≠ Gt.
Proof using Hcmp. intros H. rewrite (cmp_eq_sym _ _ H), H. done. Qed.

Lemma increasing_nondecreasing (l : list K) : increasing cmp l → nondecreasing cmp l.
Proof.
  unfold increasing, nondecreasing. induction 1 as [|a l Hl IH Ha]; constructor; [done|].
  eapply Forall_impl; [exact Ha|]. intros b. apply cmp_lt_le.
Qed.

(** Inserting a key between what is not above it and what is above it. *)
Lemma nondecreasing_insert (pre post : list K) k :
  nondecreasing cmp (pre ++ post) →
  Forall (λ a, cmp a k ≠ Gt) pre → Forall (λ b, cmp k b ≠ Gt) post →
  nondecreasing cmp (pre ++ k :: post).
Proof.
  unfold nondecreasing. rewrite !StronglySorted_app, StronglySorted_cons, !Forall_forall.
  intros (H1 & H2 & H3) Hpre Hpost. split_and!; try done.
  intros x1 x2 Hx1 Hx2. apply elem_of_cons in Hx2 as [->|Hx2]; auto.
Qed.

Lemma increasing_insert (pre post : list K) k :
  increasing cmp (pre ++ post) →
  Forall (λ a, cmp a k = Lt) pre → Forall (λ b, cmp k b = Lt) post →
  increasing cmp (pre ++ k :: post).
Proof.
  unfold increasing. rewrite !StronglySorted_app, StronglySorted_cons, !Forall_forall.
  intros (H1 & H2 & H3) Hpre Hpost. split_and!; try done.
  intros x1 x2 Hx1 Hx2. apply elem_of_cons in Hx2 as [->|Hx2]; auto.
Qed.

Lemma nondecreasing_delete (pre post : list K) k :
  nondecreasing cmp (pre ++ k :: post) → nondecreasing cmp (pre ++ post).
Proof.
  unfold nondecreasing. rewrite !StronglySorted_app, StronglySorted_cons.
  intros (H1 & H2 & H3 & H4). split_and!; try done.
  intros x1 x2 Hx1 Hx2. apply H1; [done|]. by apply elem_of_cons; right.
Qed.

Lemma increasing_delete (pre post : list K) k :
  increasing cmp (pre ++ k :: post) → increasing cmp (pre ++ post).
Proof.
  unfold increasing. rewrite !StronglySorted_app, StronglySorted_cons.
  intros (H1 & H2 & H3 & H4). split_and!; try done.
  intros x1 x2 Hx1 Hx2. apply H1; [done|]. by apply elem_of_cons; right.
Qed.

End Order.

Section PathBounds.
Context {K V : Type} (cmp : K → K → comparison) (Hcmp : valid_compare cmp).
Implicit Types (s l r : tree K V) (c : ctx K V).

(** The keys that a descent left behind are on the side that its tests
    say, provided the tests are monotone. *)
Lemma path_bounds (PL PR : K → Prop) c : ∀ s,
  nondecreasing cmp (elems (plug s c)).*2 →
  (∀ k k', PL k → cmp k k' ≠ Gt → PL k') →
  (∀ k k', PR k → cmp k' k ≠ Gt → PR k') →
  path PL PR c →
  Forall PR (ctx_before c).*2 ∧ Forall PL (ctx_after c).*2.
Proof.
  induction c as [|[[] col x k v sib] c IH]; intros s Hsort HPL HPR Hpath; simpl.
  - done.
  - apply Forall_cons in Hpath as [Hk Hpath].
    destruct (IH (Node col s x k v sib) Hsort HPL HPR Hpath) as [Hb Ha].
    split; [done|]. rewrite fmap_app. constructor; [done|]. apply Forall_app. split; [|done].
    rewrite elems_plug in Hsort. simpl in Hsort. unfold nondecreasing in Hsort.
    rewrite !fmap_app, fmap_cons, fmap_app in Hsort.
    apply StronglySorted_app_1_r, StronglySorted_app_1_r, StronglySorted_cons in Hsort as [Hs _].
    apply Forall_app in Hs as [Hs _]. eapply Forall_impl; [exact Hs|]. intros a. by apply HPL.
  - apply Forall_cons in Hpath as [Hk Hpath].
    destruct (IH (Node col sib x k v s) Hsort HPL HPR Hpath) as [Hb Ha].
    split; [|done]. rewrite !fmap_app. apply Forall_app. split; [done|].
    rewrite elems_plug in Hsort. simpl in Hsort. unfold nondecreasing in Hsort.
    rewrite !fmap_app, fmap_cons in Hsort.
    apply StronglySorted_app_1_l, StronglySorted_app_1_r in Hsort.
    apply Forall_app. split; [|by repeat constructor].
    rewrite Forall_forall. intros a Ha'. apply (HPR k); [done|].
    simpl in Hsort.
    apply (StronglySorted_app_1_elem_of (λ a b, cmp a b ≠ Gt) _ _ a k Hsort); [done|].
    apply elem_of_cons; by left.
Qed.

End PathBounds.

(** ** Lookups *)

Section Queries.
Context {K V : Type}.
Implicit Types (h : gmap positive (TreeNode K V)) (s l r : tree K V)
  (c : ctx K V) (t : Tree K V) (x y : positive) (p : ref).

Lemma findFrom_spec k : ∀ fuel s c t,
  height s < fuel → Rep_at t c s →
  path (λ k', compare t k k' = Lt) (λ k', compare t k k' = Gt) c →
  ∃ it, findFrom fuel t (ref_of s) k = Ok it ∧ find_post (compare t) k (plug s c) it.
Proof.
  induction fuel as [|fuel IH]; intros s c t Hfuel Hrep Hpath; [lia|].
  destruct s as [|cx l x kx vx r].
  - eexists. split; [done|]. exists c. done.
  - simpl in Hfuel. pose proof (Rep_at_node _ _ _ _ _ _ _ _ Hrep) as Hx.
    simpl. hsimpl. destruct (compare t k kx) eqn:Hk.
    + eexists. split; [done|]. exists c, cx, l, kx, vx, r. done.
    + apply Rep_at_down_L in Hrep.
      apply (IH l (Frame L cx x kx vx r :: c)); [lia|done|by constructor].
    + apply Rep_at_down_R in Hrep.
      apply (IH r (Frame R cx x kx vx l :: c)); [lia|done|by constructor].
Qed.

Lemma lowerBoundFrom_spec k : ∀ fuel s c t,
  height s < fuel → Rep_at t c s →
  path (λ k', compare t k' k ≠ Lt) (λ k', compare t k' k = Lt) c →
  ∃ c', lowerBoundFrom fuel t (ref_of s) (hd_ref (ctx_after c)) k
          = Ok (mkIterator (hd_ref (ctx_after c'))) ∧
        plug Leaf c' = plug s c ∧
        path (λ k', compare t k' k ≠ Lt) (λ k', compare t k' k = Lt) c'.
Proof.
  induction fuel as [|fuel IH]; intros s c t Hfuel Hrep Hpath; [lia|].
  destruct s as [|cx l x kx vx r].
  - exists c. done.
  - simpl in Hfuel. pose proof (Rep_at_node _ _ _ _ _ _ _ _ Hrep) as Hx.
    simpl. hsimpl.
    assert (Hl : compare t kx k ≠ Lt →
      ∃ c', lowerBoundFrom fuel t (ref_of l) (Some x) k
              = Ok (mkIterator (hd_ref (ctx_after c'))) ∧
            plug Leaf c' = plug (Node cx l x kx vx r) c ∧
            path (λ k', compare t k' k ≠ Lt) (λ k', compare t k' k = Lt) c').
    { intros Hk. apply Rep_at_down_L in Hrep.
      apply (IH l (Frame L cx x kx vx r :: c)); [lia|done|by constructor]. }
    destruct (compare t kx k) eqn:Hk; [by apply Hl| |by apply Hl].
    apply Rep_at_down_R in Hrep.
    apply (IH r (Frame R cx x kx vx l :: c)); [lia|done|by constructor].
Qed.

Lemma upperBoundFrom_spec k : ∀ fuel s c t,
  height s < fuel → Rep_at t c s →
  path (λ k', compare t k k' = Lt) (λ k', compare t k k' ≠ Lt) c →
  ∃ c', upperBoundFrom fuel t (ref_of s) (hd_ref (ctx_after c)) k
          = Ok (mkIterator (hd_ref (ctx_after c'))) ∧
        plug Leaf c' = plug s c ∧
        path (λ k', compare t k k' = Lt) (λ k', compare t k k' ≠ Lt) c'.
Proof.
  induction fuel as [|fuel IH]; intros s c t Hfuel Hrep Hpath; [lia|].
  destruct s as [|cx l x kx vx r].
  - exists c. done.
  - simpl in Hfuel. pose proof (Rep_at_node _ _ _ _ _ _ _ _ Hrep) as Hx.
    simpl. hsimpl.
    assert (Hr : compare t k kx ≠ Lt →
      ∃ c', upperBoundFrom fuel t (ref_of r) (hd_ref (ctx_after c)) k
              = Ok (mkIterator (hd_ref (ctx_after c'))) ∧
            plug Leaf c' = plug (Node cx l x kx vx r) c ∧
            path (λ k', compare t k k' = Lt) (λ k', compare t k k' ≠ Lt) c').
    { intros Hk. apply Rep_at_down_R in Hrep.
      apply (IH r (Frame R cx x kx vx l :: c)); [lia|done|by constructor]. }
    destruct (compare t k kx) eqn:Hk; [by apply Hr| |by apply Hr].
    apply Rep_at_down_L in Hrep.
    apply (IH l (Frame L cx x kx vx r :: c)); [lia|done|by constructor].
Qed.

End Queries.

(** ** Traversal *)

Section Traversal.
Context {K V : Type}.
Implicit Types (h : gmap positive (TreeNode K V)) (s l r : tree K V)
  (c : ctx K V) (t : Tree K V) (x y : positive) (p : ref).

Lemma plug_app s c1 c2 : plug s (c1 ++ c2) = plug (plug s c1) c2.
Proof. apply foldl_app. Qed.

Lemma ctx_before_left c : Forall (λ f, frame_dir f = L) c → ctx_before c = [].
Proof.
  induction 1 as [|[[] ? ? ? ? ?] c Hf Hc IH]; simpl in *; done.
Qed.

(** The leftmost node of a subtree heads its in-order sequence, and the
    path down to it only goes left. *)
Lemma minimum_spec : ∀ fuel s h p x,
  height s ≤ fuel → rep h p s → ref_of s = Some x →
  ∃ cs cy y ky vy ry,
    minimum fuel h x = Ok y ∧
    s = plug (Node cy Leaf y ky vy ry) cs ∧
    Forall (λ f, frame_dir f = L) cs.
Proof.
  induction fuel as [|fuel IH]; intros s h p x Hfuel Hrep Hx.
  - destruct s; simpl in *; [done|lia].
  - destruct s as [|cx l x' kx vx r]; [done|]. simpl in Hx. injection Hx as ->.
    destruct Hrep as (Hx & Hl & Hr). simpl in Hfuel.
    simpl. hsimpl. destruct l as [|cl ll lx lk lv lr] eqn:El.
    + exists [], cx, x, kx, vx, r. done.
    + rewrite <-El in *.
      destruct (IH l h (Some x) lx) as (cs & cy & y & ky & vy & ry & Hmin & Hs & Hcs);
        [lia|done|by subst|].
      exists (cs ++ [Frame L cx x kx vx r]), cy, y, ky, vy, ry.
      split_and!.
      * subst l. simpl. exact Hmin.
      * rewrite plug_app, <-Hs. done.
      * apply Forall_app. split; [done|]. by repeat constructor.
Qed.

Lemma minimum_hd fuel s h p x :
  height s ≤ fuel → rep h p s → ref_of s = Some x →
  ∃ y, minimum fuel h x = Ok y ∧ ∀ es, hd_ref (elems s ++ es) = Some y.
Proof.
  intros Hfuel Hrep Hx.
  destruct (minimum_spec fuel s h p x Hfuel Hrep Hx) as (cs & cy & y & ky & vy & ry & Hmin & Hs & Hcs).
  exists y. split; [done|]. intros es. rewrite Hs, elems_plug, ctx_before_left by done. done.
Qed.

Lemma ascend_spec : ∀ fuel c t s x,
  length c < fuel → Rep_at t c s → ref_of s = Some x →
  ascend fuel (nodes t) x = Ok (hd_ref (ctx_after c)).
Proof.
  induction fuel as [|fuel IH]; intros c t s x Hfuel Hrep Hx; [lia|].
  destruct s as [|cx l x' kx vx r]; [done|]. simpl in Hx. injection Hx as ->.
  pose proof (Rep_at_node _ _ _ _ _ _ _ _ Hrep) as Hnx.
  destruct c as [|[d cp p' kp vp sib] c'].
  - simpl. hsimpl. done.
  - pose proof (Rep_at_frame _ _ _ _ _ _ _ _ _ Hrep) as Hp.
    pose proof (Rep_at_NoDup _ _ _ Hrep) as Hnd.
    simpl in Hfuel. destruct d; simpl in Hp.
    + nd. simpl. hsimpl. done.
    + nd. simpl. hsimpl. apply Rep_at_up in Hrep. simpl in Hrep.
      eapply (IH c' t _ p'); [lia|exact Hrep|done].
Qed.

Lemma next_spec t c cx l x kx vx r :
  Rep_at t c (Node cx l x kx vx r) →
  length (elems (plug (Node cx l x kx vx r) c)) ≤ size t →
  next t x = Ok (mkIterator (hd_ref (elems r ++ ctx_after c))).
Proof.
  intros Hrep Hsize.
  pose proof (Rep_at_node _ _ _ _ _ _ _ _ Hrep) as Hnx.
  rewrite length_elems_plug in Hsize. simpl in Hsize. rewrite length_app in Hsize.
  simpl in Hsize. pose proof (ctx_length c). pose proof (height_le_size r).
  unfold next. remember (S (size t)) as fuel eqn:Hf.
  hsimpl. destruct r as [|cr rl rx rk rv rr] eqn:Er.
  - simpl. erewrite ascend_spec; [done|lia|exact Hrep|done].
  - rewrite <-Er in *. destruct Hrep as ((_ & _ & Hr) & _).
    destruct (minimum_hd fuel r (nodes t) (Some x) rx) as (y & Hmin & Hhd);
      [lia|done|by subst|].
    replace (ref_of r) with (Some rx) by by subst. cbn beta iota.
    rewrite Hmin. simpl. by rewrite <-(Hhd (ctx_after c)).
Qed.

(** The traversal from the first node of a subtree yields the subtree and
    then what comes after it. *)
Lemma collect_spec t : ∀ n fuel s c,
  length (elems s ++ ctx_after c) ≤ n → n ≤ fuel →
  length (elems (plug s c)) ≤ size t →
  Rep_at t c s →
  collect fuel t (mkIterator (hd_ref (elems s ++ ctx_after c))) = Ok (elems s ++ ctx_after c).
Proof.
  induction n as [|n IHn]; intros fuel s c Hn Hfuel Hsize Hrep.
  - destruct (elems s ++ ctx_after c); simpl in *; [by destruct fuel|lia].
  - revert c Hn Hsize Hrep. induction s as [|cx l IHl x kx vx r _]; intros c Hn Hsize Hrep.
    + simpl in Hn |- *. revert Hn Hsize Hrep. generalize (@Leaf K V) as s.
      induction c as [|[[] cp p' kp vp sib] c IHc]; intros s Hn Hsize Hrep.
      * by destruct fuel.
      * destruct fuel as [|fuel]; [lia|]. simpl in Hn.
        pose proof (Rep_at_frame _ _ _ _ _ _ _ _ _ Hrep) as Hp.
        apply Rep_at_up in Hrep. simpl in Hrep, Hsize.
        simpl. hsimpl. rewrite (next_spec _ _ _ _ _ _ _ _ Hrep Hsize). simpl.
        apply Rep_at_down_R in Hrep.
        assert (Hc : collect fuel t (mkIterator (hd_ref (elems sib ++ ctx_after c)))
                     = Ok (elems sib ++ ctx_after c)).
        { apply (IHn fuel sib (Frame R cp p' kp vp s :: c)); [simpl; lia|lia|done|done]. }
        by rewrite Hc.
      * simpl in Hn |- *. apply Rep_at_up in Hrep. by apply (IHc _ Hn Hsize).
    + simpl. rewrite <-app_assoc. simpl.
      apply Rep_at_down_L in Hrep.
      apply (IHl (Frame L cx x kx vx r :: c)); [|done|done].
      simpl in Hn |- *. by rewrite <-app_assoc in Hn.
Qed.

Lemma begin_spec t s :
  Rep t s → length (elems s) ≤ size t → begin t = Ok (mkIterator (hd_ref (elems s))).
Proof.
  intros (Hs & Hroot & _) Hsize. unfold begin. rewrite Hroot.
  destruct s as [|cx l x kx vx r] eqn:Es; [done|]. rewrite <-Es in *.
  pose proof (height_le_size s).
  remember (S (size t)) as fuel eqn:Hf.
  destruct (minimum_hd fuel s (nodes t) None x) as (y & Hmin & Hhd);
    [lia|done|by subst|].
  replace (ref_of s) with (Some x) by by subst. cbn beta iota.
  rewrite Hmin. simpl. specialize (Hhd []). rewrite app_nil_r in Hhd. by rewrite Hhd.
Qed.

Lemma entries_spec t s :
  Rep t s → length (elems s) ≤ size t → entries t = Ok (elems s).
Proof.
  intros Hrep Hsize. unfold entries. rewrite (begin_spec t s) by done. simpl.
  pose proof (collect_spec t (S (size t)) (S (size t)) s []) as Hc.
  simpl in Hc. rewrite app_nil_r in Hc. apply Hc; [lia|lia|done|by apply Rep_at_nil].
Qed.

Lemma toList_spec t s :
  Rep t s → length (elems s) ≤ size t → toList t = Ok (keys s).
Proof.
  intros Hrep Hsize. unfold toList. rewrite (entries_spec t s) by done. simpl.
  by rewrite keys_elems.
Qed.

End Traversal.

(** ** Delete-fixup *)

Section EraseFixup.
Context {K V : Type}.
Implicit Types (h : gmap positive (TreeNode K V)) (s l r a b e X : tree K V)
  (c : ctx K V) (t : Tree K V) (x y : positive) (p : ref) (d : dir)
  (k : K) (v : option V) (col : Color).

(** [N d c a x k v b]: the node [x] with the subtree [a] on its side [d]
    and the subtree [b] on the other side. *)
Local Notation N d c a x k v b := (fill (Frame d c x k v b) a).

Lemma fill_other d col a x k v b :
  N d col a x k v b = N (other d) col b x k v a.
Proof. by destruct d. Qed.

Lemma Rep_at_down t c d col a x k v b :
  Rep_at t c (N d col a x k v b) → Rep_at t (Frame d col x k v b :: c) a.
Proof. intros H. by apply Rep_at_fill. Qed.

Lemma Rep_at_down_other t c d col a x k v b :
  Rep_at t c (N d col a x k v b) → Rep_at t (Frame (other d) col x k v a :: c) b.
Proof. rewrite fill_other. apply Rep_at_down. Qed.

Lemma Rep_at_up_other t c d col a x k v b :
  Rep_at t (Frame (other d) col x k v a :: c) b → Rep_at t c (N d col a x k v b).
Proof. rewrite fill_other. apply Rep_at_up. Qed.

Lemma recolor_fill t c d col col' a x k v b :
  Rep_at t c (N d col a x k v b) →
  Rep_at (upd (with_color col') x t) c (N d col' a x k v b).
Proof. destruct d; apply recolor_focus. Qed.

Lemma rotate_spec d t c cx a x kx vx cy b y ky vy e :
  Rep_at t c (N d cx a x kx vx (N d cy b y ky vy e)) →
  ∃ t', rotate d t x = Ok t' ∧ same_meta t t' ∧
        Rep_at t' c (N d cy (N d cx a x kx vx b) y ky vy e).
Proof. destruct d; [apply rotateLeft_spec|apply rotateRight_spec]. Qed.

Lemma rotate_other_spec d t c cx a x kx vx cy b y ky vy e :
  Rep_at t c (N d cx (N d cy a y ky vy b) x kx vx e) →
  ∃ t', rotate (other d) t x = Ok t' ∧ same_meta t t' ∧
        Rep_at t' c (N d cy a y ky vy (N d cx b x kx vx e)).
Proof. destruct d; [apply rotateRight_spec|apply rotateLeft_spec]. Qed.

Lemma rbh_fill_red d a x k v b n :
  rbh (N d RED a x k v b) n ↔ tcolor a = BLACK ∧ tcolor b = BLACK ∧ rbh a n ∧ rbh b n.
Proof. destruct d; simpl; tauto. Qed.

Lemma rbh_fill_black d a x k v b n :
  rbh (N d BLACK a x k v b) (S n) ↔ rbh a n ∧ rbh b n.
Proof. destruct d; simpl; tauto. Qed.

Lemma tcolor_fill d col a x k v b : tcolor (N d col a x k v b) = col.
Proof. by destruct d. Qed.

Lemma node_fill d s : s ≠ Leaf → ∃ col a x k v b, s = N d col a x k v b.
Proof.
  destruct s as [|col l x k v r]; [done|]. intros _.
  destruct d; [exists col, l, x, k, v, r|exists col, r, x, k, v, l]; done.
Qed.

Lemma eraseFarRed_spec d t c cp q kp vp sn sx sk sv a y ky vy b X :
  Rep_at t (Frame d cp q kp vp (N d BLACK sn sx sk sv (N d RED a y ky vy b)) :: c) X →
  ∃ t', eraseFarRed d t q sx = Ok t' ∧ same_meta t t' ∧
        Rep_at t' c (N d cp (N d BLACK X q kp vp sn) sx sk sv (N d BLACK a y ky vy b)).
Proof.
  intros H0.
  pose proof (Rep_at_frame _ _ _ _ _ _ _ _ _ H0) as Hp.
  pose proof (Rep_at_sibling _ _ _ _ _ _ _ _ _ H0) as Hsib.
  pose proof (Rep_at_NoDup _ _ _ H0) as Hnd.
  assert (H1 := Rep_at_up _ _ _ _ _ _ _ _ _ H0).
  apply Rep_at_down_other, (recolor_fill _ _ _ _ cp) in H1.
  apply Rep_at_up_other, (recolor_fill _ _ _ _ BLACK) in H1.
  apply Rep_at_down_other, Rep_at_down_other, (recolor_fill _ _ _ _ BLACK) in H1.
  apply Rep_at_up_other, Rep_at_up_other in H1.
  destruct (rotate_spec _ _ _ _ _ _ _ _ _ _ _ _ _ _ H1) as (t' & Heq & Hm & H2).
  exists t'. split_and!; [|clear -Hm; meta|exact H2].
  clear H0 H1 H2 Hm. unfold eraseFarRed. destruct d; simpl in *; destruct_and?; nd; hsimpl; exact Heq.
Qed.

Lemma ctx_rbh_frame d cp x k v sib c n m :
  ctx_rbh (Frame d cp x k v sib :: c) n m →
  rbh sib n ∧ fits cp c ∧ (cp = RED → tcolor sib = BLACK) ∧
  ctx_rbh c (match cp with RED => n | BLACK => S n end) m.
Proof.
  destruct cp; simpl.
  - intros (? & ? & Hup & ?). split_and!; try done.
    destruct c as [|[? [] ? ? ? ?] ?]; simpl in *; done.
  - intros (? & ?). split_and!; try done.
    destruct c as [|[? [] ? ? ? ?] ?]; simpl in *; done.
Qed.

(** A red-black subtree that fits its context closes the tree. *)
Lemma plug_fits t c s n m :
  Rep_at t c s → rbh s n → ctx_rbh c n m → fits (tcolor s) c →
  ∃ s', Rep t s' ∧ elems s' = elems (plug s c) ∧ (∃ m', rbh s' m') ∧ tcolor s' = BLACK.
Proof.
  intros Hrep Hs Hc Hfit. exists (plug s c). split_and!.
  - by apply Rep_at_plug.
  - done.
  - exists m. apply (plug_rbh _ _ n); [done|done|].
    destruct c as [|[? [] ? ? ? ?] ?]; simpl in *; done.
  - destruct c as [|f c']; [done|]. by eapply rbh_black_root_plug.
Qed.

Lemma elems_fill_color d col col' a x k v b :
  elems (N d col a x k v b) = elems (N d col' a x k v b).
Proof. by destruct d. Qed.

Lemma eraseBlackSibling_spec d t c cp q kp vp sn sx sk sv sf X n m :
  Rep_at t (Frame d cp q kp vp (N d BLACK sn sx sk sv sf) :: c) X →
  tcolor X = BLACK → rbh X n →
  ctx_rbh (Frame d cp q kp vp (N d BLACK sn sx sk sv sf) :: c) (S n) m →
  ∃ t' up, eraseBlackSibling d t q sx = Ok (t', up) ∧ same_meta t t' ∧
    black_post t' (elems (plug X (Frame d cp q kp vp (N d BLACK sn sx sk sv sf) :: c)))
      cp c m up.
Proof.
  intros H0 HX HXn Hctx.
  apply ctx_rbh_frame in Hctx as (Hsib & Hfit & _ & Hc).
  apply rbh_fill_black in Hsib as (Hsn & Hsf).
  pose proof (Rep_at_frame _ _ _ _ _ _ _ _ _ H0) as Hq.
  pose proof (Rep_at_sibling _ _ _ _ _ _ _ _ _ H0) as Hsib.
  pose proof (Rep_at_NoDup _ _ _ H0) as Hnd.
  assert (H1 := Rep_at_up _ _ _ _ _ _ _ _ _ H0).
  destruct (tcolor sf) eqn:Hcf.
  - (* the far nephew is Red *)
    destruct (node_fill d sf) as (cf & a & y & ky & vy & b & ->); [by destruct sf|].
    rewrite tcolor_fill in Hcf. subst cf.
    destruct (eraseFarRed_spec _ _ _ _ _ _ _ _ _ _ _ _ _ _ _ _ _ H0) as (t' & Heq & Hm & H2).
    exists t', None. split_and!; [|done|].
    + clear H0 H1 H2 Hm. unfold eraseBlackSibling.
      destruct d; simpl in *; destruct_and?; nd; hsimpl; rewrite Heq; simpl;
        by destruct (tcolor sn).
    + apply rbh_fill_red in Hsf as (? & ? & ? & ?).
      destruct (plug_fits _ _ _ (match cp with RED => S n | BLACK => S (S n) end) m H2)
        as (s' & ? & Hel & ? & ?); [| |by rewrite tcolor_fill|].
      * destruct cp; [apply rbh_fill_red|apply rbh_fill_black];
          rewrite ?tcolor_fill, ?rbh_fill_black; done.
      * done.
      * exists s'. split_and!; try done. rewrite Hel, !elems_plug.
        clear. destruct d; list_eq.
  - destruct (tcolor sn) eqn:Hcn.
    + (* the near nephew is Red, the far nephew Black *)
      destruct (node_fill d sn) as (cn & a & y & ky & vy & b & ->); [by destruct sn|].
      rewrite tcolor_fill in Hcn. subst cn.
      assert (H2 := H1).
      apply Rep_at_down_other, Rep_at_down, (recolor_fill _ _ _ _ BLACK), Rep_at_up in H2.
      apply (recolor_fill _ _ _ _ RED) in H2.
      destruct (rotate_other_spec _ _ _ _ _ _ _ _ _ _ _ _ _ _ H2) as (t1 & Heq1 & Hm1 & H3).
      apply Rep_at_up_other, Rep_at_down in H3.
      pose proof (Rep_at_frame _ _ _ _ _ _ _ _ _ H3) as Hq1.
      destruct (eraseFarRed_spec _ _ _ _ _ _ _ _ _ _ _ _ _ _ _ _ _ H3) as (t' & Heq & Hm & H4).
      exists t', None. split_and!; [|clear -Hm Hm1; meta|].
      * clear H0 H1 H2 H3 H4 Hm Hm1. unfold eraseBlackSibling.
        destruct d; simpl in *; destruct_and?; nd; hsimpl; rewrite Heq1; hsimpl;
          rewrite Heq; done.
      * apply rbh_fill_red in Hsn as (? & ? & ? & ?).
        destruct (plug_fits _ _ _ (match cp with RED => S n | BLACK => S (S n) end) m H4)
          as (s' & ? & Hel & ? & ?); [| |by rewrite tcolor_fill|].
        -- destruct cp; [apply rbh_fill_red|apply rbh_fill_black];
             rewrite ?tcolor_fill, ?rbh_fill_black; done.
        -- done.
        -- exists s'. split_and!; try done. rewrite Hel, !elems_plug.
           clear. destruct d; list_eq.
    + (* both nephews are Black *)
      assert (H2 := H1).
      apply Rep_at_down_other, (recolor_fill _ _ _ _ RED), Rep_at_up_other in H2.
      eexists _, _. split_and!.
      * clear H0 H1 H2. unfold eraseBlackSibling.
        destruct d; simpl in *; destruct_and?; nd; hsimpl; done.
      * by unfold same_meta.
      * exists (N d cp X q kp vp (N d RED sn sx sk sv sf)).
        split_and!; [by destruct d|done|exact H2|apply tcolor_fill| |].
        -- rewrite !elems_plug. clear. destruct d; list_eq.
        -- unfold deficient. rewrite tcolor_fill.
           destruct cp; [exists n|exists (S n)]; (split; [done|]); [right|left];
             (split; [done|]).
           ++ destruct d; simpl; rewrite ?Hcn, ?Hcf; done.
           ++ apply rbh_fill_black. split; [done|]. by apply rbh_fill_red.
Qed.

Lemma eraseFixupRound_spec d t c cp q kp vp sib X n m :
  Rep_at t (Frame d cp q kp vp sib :: c) X →
  tcolor X = BLACK → rbh X n →
  ctx_rbh (Frame d cp q kp vp sib :: c) (S n) m →
  ∃ t' up, eraseFixupRound d t q = Ok (t', up) ∧ same_meta t t' ∧
    round_post t' (elems (plug X (Frame d cp q kp vp sib :: c))) (S (length c)) m up.
Proof.
  intros H0 HX HXn Hctx.
  pose proof (ctx_rbh_frame _ _ _ _ _ _ _ _ _ Hctx) as (Hsib & Hfit & Hcs & Hc).
  destruct (node_fill d sib) as (cs & sn & sx & sk & sv & sf & ->);
    [destruct sib; simpl in *; done|].
  pose proof (Rep_at_frame _ _ _ _ _ _ _ _ _ H0) as Hq.
  pose proof (Rep_at_sibling _ _ _ _ _ _ _ _ _ H0) as Hsibr.
  pose proof (Rep_at_NoDup _ _ _ H0) as Hnd.
  destruct cs.
  - (* the sibling is Red *)
    destruct cp; [rewrite tcolor_fill in Hcs; by specialize (Hcs eq_refl)|].
    apply rbh_fill_red in Hsib as (Hcn & Hcf & Hsn & Hsf).
    destruct (node_fill d sn) as (cn & a & y & ky & vy & b & ->);
      [destruct sn; simpl in *; done|].
    rewrite tcolor_fill in Hcn. subst cn.
    assert (H1 := Rep_at_up _ _ _ _ _ _ _ _ _ H0).
    apply Rep_at_down_other, (recolor_fill _ _ _ _ BLACK), Rep_at_up_other in H1.
    apply (recolor_fill _ _ _ _ RED) in H1.
    destruct (rotate_spec _ _ _ _ _ _ _ _ _ _ _ _ _ _ H1) as (t1 & Heq1 & Hm1 & H2).
    apply Rep_at_down, Rep_at_down in H2.
    pose proof (Rep_at_frame _ _ _ _ _ _ _ _ _ H2) as Hq1.
    destruct (eraseBlackSibling_spec _ _ _ _ _ _ _ _ _ _ _ _ _ n m H2 HX HXn)
      as (t' & up & Heq & Hm & Hpost).
    { clear -Hsn Hsf Hc. destruct d; simpl in *; split_and!; tauto. }
    exists t', up. split_and!; [|clear -Hm Hm1; meta|].
    + clear H0 H1 H2 Hm Hm1 Hpost. unfold eraseFixupRound.
      destruct d; simpl in *; destruct_and?; nd; hsimpl; rewrite Heq1; hsimpl; exact Heq.
    + assert (Hel : elems (plug X (Frame d RED q kp vp (N d BLACK a y ky vy b)
                                   :: Frame d BLACK sx sk sv sf :: c))
                  = elems (plug X (Frame d BLACK q kp vp
                                     (N d RED (N d BLACK a y ky vy b) sx sk sv sf) :: c))).
      { rewrite !elems_plug. clear. destruct d; list_eq. }
      rewrite Hel in Hpost. destruct up as [[x' pp]|]; [|exact Hpost].
      destruct Hpost as (s' & ? & ? & ? & ? & ? & ?).
      exists (Frame d BLACK sx sk sv sf :: c), s'. split_and!; auto.
  - (* the sibling is Black *)
    destruct (eraseBlackSibling_spec _ _ _ _ _ _ _ _ _ _ _ _ _ n m H0 HX HXn Hctx)
      as (t' & up & Heq & Hm & Hpost).
    exists t', up. split_and!; [|done|].
    + clear H0 Hm Hpost. unfold eraseFixupRound.
      destruct d; simpl in *; destruct_and?; nd; hsimpl; exact Heq.
    + destruct up as [[x' pp]|]; [|exact Hpost].
      destruct Hpost as (s' & ? & ? & ? & ? & ? & ?).
      exists c, s'. split_and!; auto.
Qed.

Lemma eraseFixup_spec : ∀ fuel c t s m,
  length c + 1 < fuel ∨ (tcolor s = RED ∧ 0 < fuel) →
  Rep_at t c s → deficient s c m →
  ∃ t' s', eraseFixup fuel t (ref_of s) (ctx_parent null c) = Ok t' ∧ same_meta t t' ∧
           Rep t' s' ∧ elems s' = elems (plug s c) ∧ (∃ m', rbh s' m') ∧
           tcolor s' = BLACK.
Proof.
  induction fuel as [|fuel IH]; intros c t s m Hfuel Hrep (n & Hc & Hs); [lia|].
  pose proof Hrep as (Hreps & _ & Hnd).
  assert (Hstop : c = [] ∨ tcolor s = RED →
    ∃ t' s', Ok (set_color_of (ref_of s) BLACK t) = Ok t' ∧ same_meta t t' ∧
             Rep t' s' ∧ elems s' = elems (plug s c) ∧ (∃ m', rbh s' m') ∧
             tcolor s' = BLACK).
  { intros Hcase.
    assert (Hrep' : Rep_at (set_color_of (ref_of s) BLACK t) c (blacken s)).
    { destruct s as [|col l x k v r]; [done|]. by apply (recolor_focus _ _ col). }
    assert (∃ n' m', rbh (blacken s) n' ∧ ctx_rbh c n' m') as (n' & m' & Hn' & Hc').
    { destruct Hs as [[Hb Hs]|[Hr Hs]]; [|by eauto].
      destruct Hcase as [->|?]; [|congruence].
      exists n, n. split; [|done]. destruct s as [|[] ? ? ? ? ?]; done. }
    destruct (plug_fits _ _ _ _ _ Hrep' Hn' Hc') as (s' & ? & Hel & ? & ?).
    { rewrite tcolor_blacken. by destruct c as [|[? [] ? ? ? ?] ?]. }
    eexists _, s'. split_and!; try done.
    - clear. meta.
    - rewrite Hel, !elems_plug, elems_blacken. done. }
  simpl. rewrite (color_of_rep _ _ _ Hreps). simpl.
  destruct c as [|[d cp q kp vp sib] c'].
  { simpl. destruct (tcolor s); apply Hstop; auto. }
  destruct (tcolor s) eqn:Hcol; [simpl; apply Hstop; auto|].
  destruct Hs as [[_ Hs]|[? _]]; [|done]. destruct Hfuel as [Hfuel|[? _]]; [|done].
  simpl in Hfuel. clear Hstop.
  pose proof (Rep_at_frame _ _ _ _ _ _ _ _ _ Hrep) as Hq.
  destruct (eraseFixupRound_spec _ _ _ _ _ _ _ _ _ n m Hrep Hcol Hs Hc)
    as (t1 & up & Heq & Hm1 & Hpost).
  assert (Hdir : (if decide ((if d is L then ref_of s else ref_of sib) = ref_of s)
                  then L else R) = d).
  { destruct d; [by rewrite decide_True|]. rewrite decide_False; [done|].
    pose proof (ctx_rbh_frame _ _ _ _ _ _ _ _ _ Hc) as (Hsib & _).
    destruct sib as [|cs sl sx sk sv sr]; [by destruct cp|].
    clear -Hnd. destruct s; simpl in *; [done|]. nd. }
  simpl. hsimpl. rewrite Hdir, Heq. simpl.
  destruct up as [[x' pp]|]; simpl in Hpost.
  - destruct Hpost as (c1 & s1 & -> & -> & Hrep1 & Hlen & Hel & Hdef).
    destruct (IH c1 t1 s1 m) as (t' & s' & Heq' & Hm' & Hrep' & Hel' & Hrb' & Hb');
      [destruct Hlen; [left; simpl in *; lia|right; split; [done|lia]]|done|done|].
    exists t', s'. split_and!; try done; [clear -Hm1 Hm'; meta|congruence].
  - destruct Hpost as (s' & ? & ? & ? & ?).
    exists t1, s'. done.
Qed.

End EraseFixup.

(** ** Contexts in two parts *)

Section Segments.
Context {K V : Type}.
Implicit Types (h : gmap positive (TreeNode K V)) (s l r : tree K V)
  (c : ctx K V) (t : Tree K V) (x y : positive) (p : ref).

Lemma ctx_before_app c1 c2 : ctx_before (c1 ++ c2) = ctx_before c2 ++ ctx_before c1.
Proof.
  induction c1 as [|[[] ? ? ? ? ?] c1 IH]; simpl.
  - by rewrite app_nil_r.
  - done.
  - by rewrite IH, <-app_assoc.
Qed.

Lemma ctx_after_app c1 c2 : ctx_after (c1 ++ c2) = ctx_after c1 ++ ctx_after c2.
Proof.
  induction c1 as [|[[] ? ? ? ? ?] c1 IH]; simpl; [done| |done].
  by rewrite IH, <-app_assoc.
Qed.

Lemma ctx_ids_app c1 c2 : ctx_ids (c1 ++ c2) = ctx_ids c1 ++ ctx_ids c2.
Proof.
  induction c1 as [|[? ? ? ? ? ?] c1 IH]; simpl; [done|].
  by rewrite IH, <-app_assoc.
Qed.

Lemma ctx_top_cons hole (f : frame K V) c : ctx_top hole (f :: c) = ctx_top (Some (frame_id f)) c.
Proof.
  unfold ctx_top. rewrite last_cons. by destruct (last c).
Qed.

Lemma ctx_parent_app pp c1 c2 :
  ctx_parent pp (c1 ++ c2) = ctx_parent (ctx_parent pp c2) c1.
Proof. by destruct c1. Qed.

Lemma rep_ctx_app h c1 c2 hole top pp :
  rep_ctx h (c1 ++ c2) hole top pp ↔
  rep_ctx h c1 hole (ctx_top hole c1) (ctx_parent pp c2) ∧
  rep_ctx h c2 (ctx_top hole c1) top pp.
Proof.
  revert hole. induction c1 as [|[d col x k v sib] c1 IH]; intros hole.
  - simpl. unfold ctx_top. simpl. naive_solver.
  - simpl. rewrite ctx_top_cons. simpl. rewrite IH, ctx_parent_app. tauto.
Qed.

Lemma rep_ctx_top h c hole top pp :
  rep_ctx h c hole top pp → top = ctx_top hole c.
Proof.
  revert hole. induction c as [|[d col x k v sib] c IH]; intros hole; simpl.
  - done.
  - intros (_ & _ & Hc). rewrite ctx_top_cons. by apply IH.
Qed.

Lemma ctx_top_elem_of hole c tid :
  c ≠ [] → ctx_top hole c = Some tid → tid ∈ ctx_ids c.
Proof.
  revert hole. induction c as [|[d col x k v sib] c IH]; intros hole Hne; [done|].
  rewrite ctx_top_cons. simpl. destruct c as [|f c'].
  - unfold ctx_top. simpl. intros [= ->]. by left.
  - intros Htop. right. apply elem_of_app. right. by apply (IH (Some x)).
Qed.

(** Changing the reference in the hole. *)
Lemma rep_ctx_set_hole h d col x k v sib c hole hole' top pp :
  c ≠ [] ∨ top ≠ hole →
  NoDup (ctx_ids (Frame d col x k v sib :: c)) →
  rep_ctx h (Frame d col x k v sib :: c) hole top pp →
  rep_ctx (alter (if d is L then with_left hole' else with_right hole') x h)
    (Frame d col x k v sib :: c) hole' top pp.
Proof.
  intros _ Hnd (Hx & Hsib & Hc). simpl in Hnd.
  apply NoDup_cons in Hnd as [Hx' Hnd]. apply not_elem_of_app in Hx' as [? ?].
  split_and!.
  - rewrite lookup_alter_eq, Hx. by destruct d.
  - by apply rep_alter_ne.
  - by apply rep_ctx_alter_ne.
Qed.

(** Changing the parent link of the top of a part of a context. *)
Lemma rep_ctx_set_pp h c tid hole pp pp' :
  c ≠ [] → NoDup (ctx_ids c) →
  rep_ctx h c hole (Some tid) pp →
  rep_ctx (alter (with_parent pp') tid h) c hole (Some tid) pp'.
Proof.
  revert hole. induction c as [|[d col x k v sib] c IH]; intros hole Hne Hnd; [done|].
  intros (Hx & Hsib & Hc). simpl in Hnd. destruct c as [|f c'].
  - simpl in Hc. injection Hc as ->. simpl in *.
    apply NoDup_cons in Hnd as [Hx' Hnd]. apply not_elem_of_app in Hx' as [? ?].
    split_and!; [|by apply rep_alter_ne|done].
    by rewrite lookup_alter_eq, Hx.
  - assert (tid ∈ ctx_ids (f :: c')).
    { apply (ctx_top_elem_of (Some x)); [done|]. symmetry. by eapply rep_ctx_top. }
    apply NoDup_cons in Hnd as [Hx' Hnd]. apply NoDup_app in Hnd as (Hnd1 & Hdisj & Hnd2).
    assert (tid ≠ x) by (intros ->; apply Hx', elem_of_app; by right).
    assert (tid ∉ ids sib) by (intros ?; by eapply Hdisj).
    split_and!.
    + rewrite lookup_alter_ne by done. exact Hx.
    + by apply rep_alter_ne.
    + by apply IH.
Qed.

End Segments.

(** ** Changing places with the successor *)

(** Facts on an identity known only as a member of a list. *)
Ltac member_facts :=
  repeat match goal with
  | Hin : ?z ∈ ?A, H : ?x ∉ ?A |- _ =>
      lazymatch goal with
      | _ : x ≠ z |- _ => fail
      | _ => assert (x ≠ z) by (intros ->; exact (H Hin))
      end
  | Hin : ?z ∈ ?A, H : disj ?B ?A |- _ =>
      lazymatch goal with
      | _ : z ∉ B |- _ => fail
      | _ => assert (z ∉ B) by (intros ?; eapply H; eauto)
      end
  | Hin : ?z ∈ ?A, H : disj ?A ?B |- _ =>
      lazymatch goal with
      | _ : z ∉ B |- _ => fail
      | _ => assert (z ∉ B) by (eapply H; eauto)
      end
  end.

Section Swap.
Context {K V : Type}.
Implicit Types (h : gmap positive (TreeNode K V)) (s l r : tree K V)
  (c : ctx K V) (t : Tree K V) (x y : positive) (p : ref).

Lemma swap_adjacent t c cn cl ll lx lk lv lr n kn vn cs z kz vz sr :
  Rep_at t (Frame R cn n kn vn (Node cl ll lx lk lv lr) :: c) (Node cs Leaf z kz vz sr) →
  ∃ t', swapWithSuccessor t n z = Ok t' ∧ same_meta t t' ∧
        Rep_at t' (Frame R cn z kz vz (Node cl ll lx lk lv lr) :: c) (Node cs Leaf n kn vn sr).
Proof.
  unfold Rep_at, swapWithSuccessor, same_meta. simpl.
  intros ((Hz & _ & Hsr) & (Hn & (Hlx & Hll & Hlr) & Hc) & Hnd). nd.
  destruct sr as [|cr rl rx rk rv rr]; destruct c as [|[[] cp q kp vp sib] c'];
    simpl in *; nd; destruct_and?; hsimpl.
  all: eexists; split; [reflexivity|]; split; [clear; meta|]; hsimpl.
  all: split_and!; try done; rep_frame; nd.
Qed.

Lemma swap_one_frame t c cn cl ll lx lk lv lr n kn vn cs z kz vz sr cb bx bk bv bsib :
  Rep_at t (Frame L cb bx bk bv bsib :: Frame R cn n kn vn (Node cl ll lx lk lv lr) :: c)
    (Node cs Leaf z kz vz sr) →
  ∃ t', swapWithSuccessor t n z = Ok t' ∧ same_meta t t' ∧
        Rep_at t' (Frame L cb bx bk bv bsib :: Frame R cn z kz vz (Node cl ll lx lk lv lr) :: c)
          (Node cs Leaf n kn vn sr).
Proof.
  unfold Rep_at, swapWithSuccessor, same_meta. simpl.
  intros ((Hz & _ & Hsr) & (Hb & Hbsib & Hn & (Hlx & Hll & Hlr) & Hc) & Hnd). nd.
  destruct sr as [|cr rl rx rk rv rr]; destruct c as [|[[] cp q kp vp sib] c'];
    simpl in *; nd; destruct_and?; hsimpl.
  all: eexists; split; [reflexivity|]; split; [clear; meta|]; hsimpl.
  all: split_and!; try done; rep_frame; nd.
Qed.

Lemma ctx_parent_nonempty (pp pp' : ref) c : c ≠ [] → ctx_parent pp c = ctx_parent pp' c.
Proof. by destruct c. Qed.

Lemma ctx_top_nonempty (h1 h2 : ref) c : c ≠ [] → ctx_top h1 c = ctx_top h2 c.
Proof. unfold ctx_top. intros Hne. apply last_is_Some in Hne as [f ->]. done. Qed.

Lemma swap_far t c cn cl ll lx lk lv lr n kn vn cs z kz vz sr cb bx bk bv bsib (M : ctx K V) :
  M ≠ [] →
  Rep_at t (Frame L cb bx bk bv bsib :: M ++ Frame R cn n kn vn (Node cl ll lx lk lv lr) :: c)
    (Node cs Leaf z kz vz sr) →
  ∃ t', swapWithSuccessor t n z = Ok t' ∧ same_meta t t' ∧
        Rep_at t' (Frame L cb bx bk bv bsib
                     :: M ++ Frame R cn z kz vz (Node cl ll lx lk lv lr) :: c)
          (Node cs Leaf n kn vn sr).
Proof.
  intros HM. unfold Rep_at, swapWithSuccessor, same_meta.
  intros ((Hz & _ & Hsr) & (Hb & Hbsib & HMc) & Hnd).
  apply rep_ctx_app in HMc as (HMseg & HFn).
  destruct (ctx_top (Some bx) M) as [tid|] eqn:Htop;
    [|unfold ctx_top in Htop; apply last_is_Some in HM as [f Hf]; by rewrite Hf in Htop].
  pose proof (ctx_top_elem_of _ _ _ HM Htop) as Htid.
  destruct HFn as (Hn & (Hlx & Hll & Hlr) & Hc).
  rewrite ctx_parent_app in Hb. simpl in Hz, Hb, HMseg, Hn.
  assert (Hpz : ctx_parent (Some n) M = ctx_parent (Some z) M) by by apply ctx_parent_nonempty.
  simpl in Hnd. rewrite ctx_ids_app in Hnd. simpl in Hnd. nd. member_facts.
  destruct sr as [|cr rl rx rk rv rr]; destruct c as [|[[] cp q kp vp sib] c'];
    simpl in *; nd; destruct_and?; member_facts; hsimpl.
  all: eexists; split; [reflexivity|]; split; [clear; meta|].
  all: rewrite ctx_parent_app, ctx_ids_app; simpl; hsimpl.
  all: split_and!; try done; try (by rewrite Hpz); rep_frame.
  all: try (apply rep_ctx_app; rewrite Htop; simpl; hsimpl; split_and!; try done;
            repeat first [ eassumption
                         | apply rep_alter_ne; [solve [nd_atom]|]
                         | apply rep_ctx_alter_ne; [solve [nd_atom]|]
                         | eapply rep_ctx_set_pp; [done|done|] ]).
  all: nd.
Qed.

End Swap.

(** ** Erasing a node *)

Section Erase.
Context {K V : Type}.
Implicit Types (h : gmap positive (TreeNode K V)) (s l r a b : tree K V)
  (c : ctx K V) (t : Tree K V) (x y : positive) (p : ref).

Lemma Rep_at_plug_app t c M s : Rep_at t c (plug s M) ↔ Rep_at t (M ++ c) s.
Proof.
  revert s. induction M as [|f M IH]; intros s; [done|].
  simpl. rewrite Rep_at_fill. apply IH.
Qed.

Lemma swapWithSuccessor_spec t c cn l n kn vn cs z kz vz sr (M : ctx K V) :
  l ≠ Leaf → Forall (λ f, frame_dir f = L) M →
  Rep_at t c (Node cn l n kn vn (plug (Node cs Leaf z kz vz sr) M)) →
  ∃ t', swapWithSuccessor t n z = Ok t' ∧ same_meta t t' ∧
        Rep_at t' (M ++ Frame R cn z kz vz l :: c) (Node cs Leaf n kn vn sr).
Proof.
  intros Hl HM Hrep. apply Rep_at_down_R, Rep_at_plug_app in Hrep.
  destruct l as [|cl ll lx lk lv lr]; [done|].
  destruct M as [|[[] cb bx bk bv bsib] M'].
  - by apply swap_adjacent.
  - destruct M' as [|f M''] eqn:EM.
    + by apply swap_one_frame.
    + rewrite <-EM in *. apply swap_far; [by subst|done].
  - by apply Forall_cons in HM as [? _].
Qed.

(** The colours and the shape of a context do not depend on which node
    sits in a frame. *)
Lemma ctx_rbh_swap_frame (M : ctx K V) d col x k v x' k' v' sib c n m :
  ctx_rbh (M ++ Frame d col x k v sib :: c) n m →
  ctx_rbh (M ++ Frame d col x' k' v' sib :: c) n m.
Proof.
  revert n. induction M as [|[d0 [] x0 k0 v0 sib0] M IH]; intros n; simpl.
  - by destruct col.
  - intros (? & ? & Hup & ?). split_and!; try done; [|by apply IH].
    by destruct M as [|? ?].
  - intros (? & ?). split; [done|]. by apply IH.
Qed.

Lemma rbh_swap_node col a x k v x' k' v' b n :
  rbh (Node col a x k v b) n → rbh (Node col a x' k' v' b) n.
Proof. by destruct col. Qed.

Lemma unlink_child t c col a n kn vn b :
  a = Leaf ∨ b = Leaf →
  Rep_at t c (Node col a n kn vn b) →
  ∃ t1, replace_child t (ctx_parent null c) n
          (match ref_of a with Some l => Some l | None => ref_of b end) = Ok t1 ∧
        same_meta t t1 ∧
        Rep_at (set_parent_of (match ref_of a with Some l => Some l | None => ref_of b end)
                  (ctx_parent null c) t1) c
          (match a with Leaf => b | _ => a end).
Proof.
  unfold Rep_at, same_meta. intros Hab ((Hn & Ha & Hb) & Hc & Hnd). simpl in Hnd.
  destruct c as [|[[] cp q kp vp sib] c']; simpl in *; nd; destruct_and?;
    destruct a as [|ca al ax ak av ar]; destruct b as [|cb bl bx bk bv br];
    try (destruct Hab; discriminate); simpl in *; nd; destruct_and?; hsimpl.
  all: eexists; split; [reflexivity|]; split; [clear; meta|]; hsimpl.
  all: split_and!; try done; rep_frame; nd.
Qed.

Lemma rbh_zero_leaf s : rbh s 0 → tcolor s = BLACK → s = Leaf.
Proof. destruct s as [|[] ? ? ? ? ?]; simpl; done. Qed.

#[local] Arguments eraseFixup : simpl never.

Lemma unlink_spec t c col a n kn vn b m :
  a = Leaf ∨ b = Leaf →
  Rep_at t c (Node col a n kn vn b) →
  rbh (plug (Node col a n kn vn b) c) m →
  tcolor (plug (Node col a n kn vn b) c) = BLACK →
  size t = length (elems (plug (Node col a n kn vn b) c)) →
  ∃ t' s', unlink t n = Ok t' ∧ Shape t' s' ∧
           elems s' = ctx_before c ++ (elems a ++ elems b) ++ ctx_after c ∧
           compare t' = compare t ∧ valuePolicy t' = valuePolicy t ∧
           size t' = pred (size t).
Proof.
  intros Hab Hrep Hrb Hblack Hsize.
  pose proof (Rep_at_node _ _ _ _ _ _ _ _ Hrep) as Hn.
  destruct (unplug_rbh _ _ _ Hrb Hblack) as (hn & Hnode & Hc & Hhead).
  destruct (unlink_child _ _ _ _ _ _ _ _ Hab Hrep) as (t1 & Heq1 & Hm1 & Hrep1).
  set (ch := match a with Leaf => b | _ => a end) in *.
  assert (Hch : match ref_of a with Some l => Some l | None => ref_of b end = ref_of ch).
  { subst ch. by destruct a. }
  assert (Hel : elems ch = elems a ++ elems b).
  { subst ch. destruct Hab as [-> | ->]; [done|]. destruct a; [done|]. by rewrite app_nil_r. }
  rewrite Hch in Heq1, Hrep1.
  rewrite length_elems_plug in Hsize. simpl in Hsize. rewrite length_app in Hsize.
  simpl in Hsize. pose proof (ctx_length c) as Hlen.
  unfold unlink. hsimpl. rewrite Hch, Heq1. cbn -[eraseFixup].
  destruct col.
  - (* a Red node with at most one child has none *)
    simpl in Hnode. destruct Hnode as (Hca & Hcb & Ha & Hb).
    assert (hn = 0) as ->.
    { destruct Hab as [-> | ->]; simpl in *; done. }
    apply rbh_zero_leaf in Ha, Hb; [|done..]. subst a b. simpl in *.
    eexists _, (plug Leaf c). split_and!; [done| |by rewrite elems_plug|clear -Hm1; meta..].
    split_and!.
    + apply Rep_at_plug. exact Hrep1.
    + exists m. apply (plug_rbh _ _ 0); [done|done|by destruct c as [|[? [] ? ? ? ?] ?]].
    + destruct c as [|f c']; [done|]. by eapply rbh_black_root_plug.
    + rewrite length_elems_plug. simpl in *. clear -Hsize Hm1. meta.
  - destruct hn as [|hh]; [done|]. simpl in Hnode. destruct Hnode as (Ha & Hb).
    assert (Hchh : rbh ch hh) by (subst ch; by destruct a).
    destruct (eraseFixup_spec (S (size t)) c
                (set_parent_of (ref_of ch) (ctx_parent null c) t1) ch m)
      as (t' & s' & Heq & Hm & Hrep' & Hel' & Hrb' & Hb').
    { left. lia. }
    { exact Hrep1. }
    { exists hh. split; [done|]. destruct ch as [|[] ? ? ? ? ?]; [left|right|left]; try done.
      simpl in *. tauto. }
    assert (Hsz : size (set_parent_of (ref_of ch) (ctx_parent null c) t1) = size t).
    { clear -Hm1. meta. }
    rewrite Hsz. rewrite Heq. simpl.
    eexists _, s'. split_and!; [done| | |clear -Hm Hm1; meta..].
    + split_and!; try done. simpl. rewrite Hel', length_elems_plug, Hel, length_app.
      clear -Hsize Hm Hm1. meta.
    + by rewrite Hel', elems_plug, Hel.
Qed.

Lemma erase_spec t c cn l n kn vn r :
  Shape t (plug (Node cn l n kn vn r) c) →
  ∃ t' s', erase t (Some n) = Ok t' ∧ Shape t' s' ∧
           elems s' = ctx_before c ++ (elems l ++ elems r) ++ ctx_after c ∧
           compare t' = compare t ∧ valuePolicy t' = valuePolicy t ∧
           size t' = pred (size t).
Proof.
  intros (Hrep & (m & Hrb) & Hblack & Hsize).
  apply Rep_at_plug in Hrep.
  pose proof (Rep_at_node _ _ _ _ _ _ _ _ Hrep) as Hn.
  unfold erase. remember (S (size t)) as fuel eqn:Hfuel. hsimpl.
  destruct l as [|cl ll lx lk lv lr] eqn:El.
  { simpl. by apply (unlink_spec t c cn Leaf n kn vn r m); [left|..]. }
  destruct r as [|cr rl rx rk rv rr] eqn:Er.
  { simpl. by apply (unlink_spec t c cn (Node cl ll lx lk lv lr) n kn vn Leaf m); [right|..]. }
  rewrite <-El, <-Er in *.
  replace (ref_of l) with (Some lx) by by subst.
  replace (ref_of r) with (Some rx) by by subst. cbn beta iota.
  pose proof Hrep as ((_ & _ & Hr) & _).
  assert (Hlen : length (elems (plug (Node cn l n kn vn r) c))
                 = length (elems l) + S (length (elems r))
                   + length (ctx_before c ++ ctx_after c)).
  { rewrite length_elems_plug. simpl. rewrite length_app. simpl. lia. }
  destruct (minimum_spec fuel r (nodes t) (Some n) rx)
    as (M & cz & z & kz & vz & zr & Hmin & HrM & HM);
    [pose proof (height_le_size r); lia|done|by subst|].
  rewrite Hmin. simpl. rewrite HrM in Hrep.
  assert (Hl : l ≠ Leaf) by by subst l.
  destruct (swapWithSuccessor_spec _ _ _ _ _ _ _ _ _ _ _ _ _ Hl HM Hrep)
    as (t1 & Heq1 & Hm1 & Hrep1).
  rewrite Heq1. simpl.
  assert (Hplug : plug (Node cn l n kn vn r) c
                  = plug (Node cz Leaf z kz vz zr) (M ++ Frame R cn n kn vn l :: c)).
  { rewrite plug_app, HrM. done. }
  rewrite Hplug in Hrb, Hblack.
  destruct (unplug_rbh _ _ _ Hrb Hblack) as (hz & Hz & Hc & Hhead).
  assert (Hrb1 : rbh (plug (Node cz Leaf n kn vn zr) (M ++ Frame R cn z kz vz l :: c)) m).
  { apply (plug_rbh _ _ hz).
    - by eapply rbh_swap_node.
    - by eapply ctx_rbh_swap_frame.
    - clear -Hhead. destruct M as [|[? [] ? ? ? ?] ?]; simpl in *; [|done..]. by destruct cn. }
  assert (Hblack1 : tcolor (plug (Node cz Leaf n kn vn zr)
                                 (M ++ Frame R cn z kz vz l :: c)) = BLACK).
  { eapply rbh_black_root_plug; [by destruct M|]. by eapply ctx_rbh_swap_frame. }
  destruct (unlink_spec t1 _ _ _ _ _ _ _ m (or_introl eq_refl) Hrep1 Hrb1 Hblack1)
    as (t' & s' & Heq & Hshape & Hel & Hcmp' & Hpol' & Hsz').
  { transitivity (size t); [clear -Hm1; meta|]. rewrite Hsize, Hplug.
    rewrite !length_elems_plug, !ctx_before_app, !ctx_after_app. simpl.
    repeat (rewrite !length_app; simpl). lia. }
  assert (compare t1 = compare t ∧ valuePolicy t1 = valuePolicy t ∧ size t1 = size t)
    as (? & ? & ?) by (clear -Hm1; meta).
  exists t', s'. split_and!; try done; [|congruence..].
  rewrite Hel, ctx_before_app, ctx_after_app, HrM, elems_plug, (ctx_before_left M) by done.
  list_eq.
Qed.

End Erase.

(** ** The invariants of reachable states *)

Section Invariants.
Context {K V : Type}.
Implicit Types (h : gmap positive (TreeNode K V)) (s l r : tree K V)
  (c : ctx K V) (t : Tree K V) (x y n : positive) (p : ref).

Lemma focus_id s n :
  n ∈ ids s → ∃ c cn l kn vn r, s = plug (Node cn l n kn vn r) c.
Proof.
  induction s as [|cx l IHl x kx vx r IHr]; simpl; [by intros ?%elem_of_nil|].
  rewrite elem_of_app, elem_of_cons. intros [Hn | [-> | Hn]].
  - destruct (IHl Hn) as (c & cn & l' & kn & vn & r' & ->).
    exists (c ++ [Frame L cx x kx vx r]), cn, l', kn, vn, r'. by rewrite plug_app.
  - by exists [], cx, l, kx, vx, r.
  - destruct (IHr Hn) as (c & cn & l' & kn & vn & r' & ->).
    exists (c ++ [Frame R cx x kx vx l]), cn, l', kn, vn, r'. by rewrite plug_app.
Qed.

Lemma Shape_lookup t s n : Shape t s → n ∈ ids s → is_Some (nodes t !! n).
Proof. intros ((Hrep & _) & _) ?. by eapply rep_lookup. Qed.

Lemma Shape_with_new_node t s n k v :
  Shape t s → nodes t !! n = None →
  Shape (with_new_node n k v t) s ∧ n ∉ ids s.
Proof.
  intros HS Hn.
  assert (Hni : n ∉ ids s).
  { intros Hin. destruct (Shape_lookup _ _ _ HS Hin) as [? ?]. congruence. }
  split; [|done]. destruct HS as ((Hrep & Hroot & Hnd) & Hrb & Hb & Hsz).
  split_and!; try done. split_and!; try done. simpl. by apply rep_insert_ne.
Qed.

Lemma Shape_empty t : root t = null → size t = 0 → Shape t Leaf.
Proof.
  intros Hr Hs. split_and!; simpl; try done.
  - split_and!; simpl; [done|done|constructor].
  - by exists 0.
Qed.

Lemma Shape_clear t : Shape (clear t) Leaf.
Proof. by apply Shape_empty. Qed.

Lemma sorted_nondecreasing u (cmp : K → K → comparison) (ks : list K) :
  sorted u cmp ks → nondecreasing cmp ks.
Proof. destruct u; simpl; [|done]. apply increasing_nondecreasing. Qed.

Lemma sorted_delete u (cmp : K → K → comparison) (pre post : list K) k :
  sorted u cmp (pre ++ k :: post) → sorted u cmp (pre ++ post).
Proof.
  destruct u; simpl.
  - apply increasing_delete.
  - apply nondecreasing_delete.
Qed.

Lemma keys_plug_leaf c :
  keys (plug Leaf c) = (ctx_before c).*2 ++ (ctx_after c).*2.
Proof. by rewrite keys_elems, elems_plug, fmap_app. Qed.

(** The place that the descent of an insertion finds keeps the keys in
    order; and, but for [insertMulti], no key there is equal to the new
    one. *)
Lemma insert_sorted u (cmp : K → K → comparison) mode (kn : K) n c :
  valid_compare cmp →
  (u = true → mode ≠ INSERT_MULTI) →
  sorted u cmp (keys (plug Leaf c)) →
  path (ins_left cmp kn) (ins_right cmp mode kn) c →
  sorted u cmp (ctx_before c ++ (n, kn) :: ctx_after c).*2 ∧
  (mode ≠ INSERT_MULTI → ¬ present cmp kn (keys (plug Leaf c))).
Proof.
  intros Hcmp Hu Hs Hpath.
  pose proof (sorted_nondecreasing _ _ _ Hs) as Hnd.
  rewrite keys_elems in Hnd.
  destruct (path_bounds cmp (ins_left cmp kn) (ins_right cmp mode kn) c Leaf Hnd)
    as [Hbefore Hafter]; [| |done|].
  { unfold ins_left. intros k k' Hk Hkk'. by eapply cmp_lt_le_trans. }
  { unfold ins_right. intros k k' Hk Hk'k.
    assert (cmp k kn ≠ Gt) as Hkkn.
    { destruct Hk as [Hk | [_ Hk]].
      - by apply cmp_gt_ge.
      - by destruct (cmp_eq_le cmp Hcmp _ _ Hk). }
    pose proof (cmp_trans cmp Hcmp _ _ _ Hk'k Hkkn) as Hle.
    rewrite (cmp_antisym cmp Hcmp kn k') in Hle.
    destruct (cmp kn k') eqn:E; simpl in Hle; [|done|by left].
    destruct Hk as [Hk | [? Hk]]; [|by right].
    (* kn > k ≥ k' *)
    apply (cmp_lt_gt cmp Hcmp) in Hk.
    pose proof (cmp_le_lt_trans cmp Hcmp _ _ _ Hk'k Hk) as Hlt.
    apply (cmp_lt_gt cmp Hcmp) in Hlt. congruence. }
  rewrite keys_plug_leaf in *. rewrite fmap_app, fmap_cons. simpl. split.
  - destruct u; simpl in *.
    + apply increasing_insert; [done| |done].
      eapply Forall_impl; [exact Hbefore|]. intros k [Hk | [Hm _]].
      * by apply (cmp_lt_gt cmp Hcmp).
      * by destruct (Hu eq_refl).
    + apply nondecreasing_insert; [done| |].
      * eapply Forall_impl; [exact Hbefore|]. intros k [Hk | [_ Hk]].
        -- by apply cmp_gt_ge.
        -- by destruct (cmp_eq_le cmp Hcmp _ _ Hk).
      * eapply Forall_impl; [exact Hafter|]. intros k Hk. by apply cmp_lt_le.
  - intros Hm. unfold present. rewrite Exists_app, !Exists_exists.
    intros [(k & Hin & Hk) | (k & Hin & Hk)].
    + rewrite Forall_forall in Hbefore. destruct (Hbefore _ Hin) as [? | [? _]]; congruence.
    + rewrite Forall_forall in Hafter. specialize (Hafter _ Hin). unfold ins_left in *.
      congruence.
Qed.

Lemma insert_Inv u t n k v mode :
  Inv u t → nodes t !! n = None → (u = true → mode ≠ INSERT_MULTI) →
  ∃ t' res, insertNode (with_new_node n k v t) n mode = Ok (t', res) ∧ Inv u t'.
Proof.
  intros (s & HS & Hsorted) Hn Hu.
  destruct (Shape_with_new_node _ _ _ k v HS Hn) as [HS1 Hni].
  destruct (insertNode_spec mode _ s n k v RED HS1) as (t' & res & Heq & Hc & Hp & Hpost);
    [simpl; apply lookup_insert_eq|done|].
  exists t', res. split; [done|]. simpl in Hc.
  destruct Hpost as [(_ & _ & s' & c' & HS' & <- & Hel & Hpath)
                    |(y & _ & _ & _ & _ & s' & c' & cy & l & ky & vy & r & HS' & Hel & _)].
  - exists s'. split; [done|]. rewrite Hc. intros Hcmp.
    rewrite keys_elems, Hel. by eapply insert_sorted; [..|apply Hsorted|].
  - exists s'. split; [done|]. rewrite Hc, keys_elems, Hel, <-keys_elems. done.
Qed.

Lemma in_tree_ids t s n : Shape t s → in_tree t n ↔ n ∈ ids s.
Proof.
  intros (Hrep & _ & _ & Hsz). unfold in_tree.
  rewrite (entries_spec t s Hrep) by lia. rewrite ids_elems. split.
  - by intros (es & [= <-] & ?).
  - intros ?. by eexists.
Qed.

Lemma erase_Inv u t n :
  Inv u t → in_tree t n → ∃ t', erase t (Some n) = Ok t' ∧ Inv u t'.
Proof.
  intros (s & HS & Hsorted) Hin. apply (in_tree_ids _ _ _ HS) in Hin.
  destruct (focus_id _ _ Hin) as (c & cn & l & kn & vn & r & ->).
  destruct (erase_spec _ _ _ _ _ _ _ _ HS) as (t' & s' & Heq & HS' & Hel & Hc & _).
  exists t'. split; [done|]. exists s'. split; [done|]. rewrite Hc. intros Hcmp.
  specialize (Hsorted Hcmp). rewrite keys_elems, elems_plug in Hsorted.
  rewrite keys_elems, Hel. simpl in Hsorted.
  replace ((ctx_before c ++ (elems l ++ elems r) ++ ctx_after c).*2)
    with ((ctx_before c ++ elems l).*2 ++ (elems r ++ ctx_after c).*2)
    by (rewrite !fmap_app, <-!app_assoc; done).
  apply (sorted_delete u _ _ _ kn).
  revert Hsorted. rewrite !fmap_app, fmap_cons, <-!app_assoc. done.
Qed.

Lemma Inv_empty u t : root t = null → size t = 0 → Inv u t.
Proof.
  intros Hr Hs. exists Leaf. split; [by apply Shape_empty|].
  intros _. destruct u; constructor.
Qed.

Lemma reachable_Inv u t : reachable u t → Inv u t.
Proof.
  induction 1 as [t Hr Hs|t n k v mode t' res _ IH Hn Hu Heq|t n t' _ IH Hin Heq|t _ IH].
  - by apply Inv_empty.
  - destruct (insert_Inv u t n k v mode IH Hn Hu) as (t1 & res1 & Heq1 & HI).
    congruence.
  - destruct (erase_Inv u t n IH Hin) as (t1 & Heq1 & HI). congruence.
  - by apply Inv_empty.
Qed.

(** *** The red-black invariants on the nodes *)

Lemma rbh_children (col : Color) l x (k : K) (v : option V) r m :
  rbh (Node col l x k v r) m → ∃ m', rbh l m' ∧ rbh r m'.
Proof.
  destruct col; simpl.
  - intros (_ & _ & ? & ?). eauto.
  - destruct m as [|m']; [done|]. eauto.
Qed.

Lemma rep_descendant h y : ∀ rf,
  descendant h rf y → ∀ s p m, rf = ref_of s → rep h p s → rbh s m →
  ∃ (col : Color) l k v r p' m',
    rep h p' (Node col l y k v r) ∧ rbh (Node col l y k v r) m'.
Proof.
  induction 1 as [x | x nx d y Hx Hd IH]; intros s p m Hrf Hrep Hrb.
  - destruct s as [|col l x' k v r]; [done|]. simpl in Hrf. injection Hrf as <-.
    by exists col, l, k, v, r, p, m.
  - destruct s as [|col l x' k v r]; [done|]. simpl in Hrf. injection Hrf as <-.
    destruct (rbh_children _ _ _ _ _ _ _ Hrb) as (m' & Hl' & Hr').
    destruct Hrep as (Hx' & Hl & Hr). rewrite Hx in Hx'. injection Hx' as ->.
    destruct d; simpl in *.
    + by apply (IH l (Some x) m').
    + by apply (IH r (Some x) m').
Qed.

Lemma rep_black_path h : ∀ s p m,
  rep h p s → rbh s m →
  black_path h (ref_of s) m ∧ ∀ m2, black_path h (ref_of s) m2 → m2 = m.
Proof.
  induction s as [|col l IHl x k v r IHr]; intros p m Hrep Hrb.
  - simpl in Hrb. subst m. split; [constructor|]. by inversion 1.
  - destruct Hrep as (Hx & Hl & Hr).
    destruct (rbh_children _ _ _ _ _ _ _ Hrb) as (m' & Hl' & Hr').
    destruct (IHl _ _ Hl Hl') as [Hpl Hul]. destruct (IHr _ _ Hr Hr') as [Hpr Hur].
    assert (Hm : m = match col with BLACK => S m' | RED => m' end).
    { destruct col; simpl in Hrb.
      - destruct Hrb as (_ & _ & Hl2 & _).
        destruct (IHl _ _ Hl Hl2) as [Hp2 _]. by apply Hul in Hp2.
      - destruct m as [|m2]; [done|]. destruct Hrb as [Hl2 _].
        destruct (IHl _ _ Hl Hl2) as [Hp2 _]. apply Hul in Hp2. by subst. }
    subst m. split.
    + by apply (bp_node h x _ L m' Hx).
    + simpl. inversion 1 as [|x' nx d n' Hx' Hp]; subst.
      rewrite Hx in Hx'. injection Hx' as <-. simpl.
      destruct d; simpl in Hp; [apply Hul in Hp|apply Hur in Hp]; by subst.
Qed.

Lemma Shape_root_black t s : Shape t s → root_black t.
Proof.
  intros ((Hrep & Hroot & _) & _ & Hb & _). unfold root_black.
  by rewrite Hroot, (color_of_rep _ _ _ Hrep), Hb.
Qed.

Lemma Shape_no_red_red t s : Shape t s → no_red_red t.
Proof.
  intros ((Hrep & Hroot & _) & (m & Hrb) & _) x nx d Hd Hx Hc.
  rewrite Hroot in Hd.
  destruct (rep_descendant _ _ _ Hd s null m eq_refl Hrep Hrb)
    as (col & l & k & v & r & p' & m' & (Hx' & Hl & Hr) & Hrb').
  rewrite Hx in Hx'. injection Hx' as ->. simpl in Hc. subst col.
  destruct Hrb' as (Hcl & Hcr & _).
  destruct d; simpl.
  - by rewrite (color_of_rep _ _ _ Hl), Hcl.
  - by rewrite (color_of_rep _ _ _ Hr), Hcr.
Qed.

Lemma Shape_black_uniform t s : Shape t s → black_uniform t.
Proof.
  intros ((Hrep & Hroot & _) & (m & Hrb) & _) x Hd.
  rewrite Hroot in Hd.
  destruct (rep_descendant _ _ _ Hd s null m eq_refl Hrep Hrb)
    as (col & l & k & v & r & p' & m' & Hrep' & Hrb').
  exists m'. by apply (rep_black_path _ _ _ _ Hrep' Hrb').
Qed.

End Invariants.

(** ** Lookups in a tree whose keys are in order *)

Section Lookups.
Context {K V : Type}.
Implicit Types (h : gmap positive (TreeNode K V)) (s l r whole : tree K V)
  (c : ctx K V) (t : Tree K V) (x y n : positive) (p : ref).

Lemma Shape_height t s : Shape t s → height s < S (size t).
Proof. intros (_ & _ & _ & ->). pose proof (height_le_size s). lia. Qed.

Lemma find_spec t s k :
  Shape t s → ∃ it, find t k = Ok it ∧ find_post (compare t) k s it.
Proof.
  intros HS. pose proof (Shape_height _ _ HS) as Hh.
  destruct HS as (Hrep & _). pose proof Hrep as (_ & Hroot & _).
  unfold find. rewrite Hroot.
  apply (findFrom_spec k _ s [] t Hh); [by apply Rep_at_nil|constructor].
Qed.

Lemma keys_plug_node (col : Color) l y (ky : K) (v : option V) r c :
  keys (plug (Node col l y ky v r) c)
  = (ctx_before c ++ elems l).*2 ++ ky :: (elems r ++ ctx_after c).*2.
Proof.
  rewrite keys_elems, elems_plug. cbn [elems].
  rewrite !fmap_app, fmap_cons, <-!app_assoc. done.
Qed.

Lemma find_post_node (cmp : K → K → comparison) k whole y :
  find_post cmp k whole (mkIterator (Some y)) →
  ∃ c (col : Color) l ky v r, whole = plug (Node col l y ky v r) c ∧ cmp k ky = Eq.
Proof.
  intros (c & col & l & ky & v & r & <- & Hk & _). by exists c, col, l, ky, v, r.
Qed.

Lemma find_post_end (cmp : K → K → comparison) k whole :
  valid_compare cmp → nondecreasing cmp (keys whole) →
  find_post cmp k whole (mkIterator null) → ¬ present cmp k (keys whole).
Proof.
  intros Hcmp Hnd (c & <- & Hpath). rewrite keys_elems in Hnd.
  destruct (path_bounds cmp (λ k', cmp k k' = Lt) (λ k', cmp k k' = Gt) c Leaf Hnd)
    as [Hbefore Hafter]; [| |exact Hpath|].
  { intros k1 k2 Hk Hle. simpl in *. by eapply cmp_lt_le_trans. }
  { intros k1 k2 Hk Hle. simpl in *.
    apply (cmp_lt_gt cmp Hcmp) in Hk. apply (cmp_lt_gt cmp Hcmp).
    by eapply cmp_le_lt_trans. }
  unfold present. rewrite keys_plug_leaf, Exists_app, !Exists_exists.
  rewrite Forall_forall in Hbefore. rewrite Forall_forall in Hafter.
  intros [(k' & Hin & Hk) | (k' & Hin & Hk)].
  - specialize (Hbefore _ Hin). simpl in *. congruence.
  - specialize (Hafter _ Hin). simpl in *. congruence.
Qed.

(** A key that is not in the tree is not found, whatever the comparator. *)
Lemma find_absent t s k :
  Shape t s → ¬ present (compare t) k (keys s) → find t k = Ok (mkIterator null).
Proof.
  intros HS Hk. destruct (find_spec t s k HS) as ([[y|]] & Heq & Hpost); [|done].
  destruct (find_post_node _ _ _ _ Hpost) as (c & col & l & ky & v & r & -> & Hky).
  destruct Hk. unfold present. rewrite keys_plug_node, Exists_app, Exists_cons. tauto.
Qed.

(** A key that is in the tree is found, at a node with an equal key. *)
Lemma find_present t s k :
  valid_compare (compare t) → Shape t s → nondecreasing (compare t) (keys s) →
  present (compare t) k (keys s) →
  ∃ y c (col : Color) l ky v r,
    find t k = Ok (mkIterator (Some y)) ∧
    s = plug (Node col l y ky v r) c ∧ compare t k ky = Eq.
Proof.
  intros Hcmp HS Hnd Hk. destruct (find_spec t s k HS) as ([[y|]] & Heq & Hpost).
  - destruct (find_post_node _ _ _ _ Hpost) as (c & col & l & ky & v & r & -> & Hky).
    by exists y, c, col, l, ky, v, r.
  - by destruct (find_post_end _ _ _ Hcmp Hnd Hpost).
Qed.

Lemma cmp_not_lt (cmp : K → K → comparison) a b :
  valid_compare cmp → cmp a b ≠ Lt ↔ cmp b a ≠ Gt.
Proof.
  intros Hcmp. rewrite (cmp_antisym cmp Hcmp a b). by destruct (cmp a b).
Qed.

Lemma lowerBound_spec t s k :
  valid_compare (compare t) → Shape t s → nondecreasing (compare t) (keys s) →
  ∃ pre post,
    elems s = pre ++ post ∧
    lowerBound t k = Ok (mkIterator (hd_ref post)) ∧
    Forall (λ e, compare t e.2 k = Lt) pre ∧
    Forall (λ e, compare t e.2 k ≠ Lt) post.
Proof.
  intros Hcmp HS Hnd. pose proof (Shape_height _ _ HS) as Hh.
  destruct HS as (Hrep & _). pose proof Hrep as (_ & Hroot & _).
  destruct (lowerBoundFrom_spec k _ s [] t Hh) as (c & Heq & Hplug & Hpath);
    [by apply Rep_at_nil|constructor|].
  simpl in Hplug. subst s. rewrite keys_elems in Hnd.
  destruct (path_bounds (compare t) (λ k', compare t k' k ≠ Lt)
              (λ k', compare t k' k = Lt) c Leaf Hnd)
    as [Hbefore Hafter]; [| |exact Hpath|].
  { intros k1 k2 Hk Hle. simpl in *. apply (cmp_not_lt _ _ _ Hcmp).
    apply (cmp_not_lt _ _ _ Hcmp) in Hk. by eapply (cmp_trans _ Hcmp). }
  { intros k1 k2 Hk Hle. simpl in *. by eapply cmp_le_lt_trans. }
  exists (ctx_before c), (ctx_after c). split_and!.
  - by rewrite elems_plug.
  - unfold lowerBound. by rewrite Hroot.
  - rewrite Forall_fmap in Hbefore. exact Hbefore.
  - rewrite Forall_fmap in Hafter. exact Hafter.
Qed.

Lemma upperBound_spec t s k :
  valid_compare (compare t) → Shape t s → nondecreasing (compare t) (keys s) →
  ∃ pre post,
    elems s = pre ++ post ∧
    upperBound t k = Ok (mkIterator (hd_ref post)) ∧
    Forall (λ e, compare t k e.2 ≠ Lt) pre ∧
    Forall (λ e, compare t k e.2 = Lt) post.
Proof.
  intros Hcmp HS Hnd. pose proof (Shape_height _ _ HS) as Hh.
  destruct HS as (Hrep & _). pose proof Hrep as (_ & Hroot & _).
  destruct (upperBoundFrom_spec k _ s [] t Hh) as (c & Heq & Hplug & Hpath);
    [by apply Rep_at_nil|constructor|].
  simpl in Hplug. subst s. rewrite keys_elems in Hnd.
  destruct (path_bounds (compare t) (λ k', compare t k k' = Lt)
              (λ k', compare t k k' ≠ Lt) c Leaf Hnd)
    as [Hbefore Hafter]; [| |exact Hpath|].
  { intros k1 k2 Hk Hle. simpl in *. by eapply cmp_lt_le_trans. }
  { intros k1 k2 Hk Hle. simpl in *. apply (cmp_not_lt _ _ _ Hcmp).
    apply (cmp_not_lt _ _ _ Hcmp) in Hk. by eapply (cmp_trans _ Hcmp). }
  exists (ctx_before c), (ctx_after c). split_and!.
  - by rewrite elems_plug.
  - unfold upperBound. by rewrite Hroot.
  - rewrite Forall_fmap in Hbefore. exact Hbefore.
  - rewrite Forall_fmap in Hafter. exact Hafter.
Qed.

End Lookups.

(** ** Insertions of new nodes *)

Section InsertNew.
Context {K V : Type}.
Implicit Types (h : gmap positive (TreeNode K V)) (s l r whole : tree K V)
  (c : ctx K V) (t : Tree K V) (x y n : positive) (p : ref).

Lemma fresh_lookup t : nodes t !! fresh (dom (nodes t)) = None.
Proof. apply not_elem_of_dom, is_fresh. Qed.

Lemma Inv_Shape u t :
  Inv u t →
  ∃ s, Shape t s ∧ entries t = Ok (elems s) ∧ toList t = Ok (keys s) ∧
       (valid_compare (compare t) → sorted u (compare t) (keys s)).
Proof.
  intros (s & HS & Hsorted). exists s. pose proof HS as (Hrep & _ & _ & Hsz).
  split_and!; [done| | |done].
  - apply entries_spec; [done|lia].
  - apply toList_spec; [done|lia].
Qed.

Lemma Shape_toList t s : Shape t s → toList t = Ok (keys s).
Proof. intros (Hrep & _ & _ & Hsz). apply toList_spec; [done|lia]. Qed.

Lemma Shape_entries t s : Shape t s → entries t = Ok (elems s).
Proof. intros (Hrep & _ & _ & Hsz). apply entries_spec; [done|lia]. Qed.

Lemma insert_new_spec u mode t s n k v :
  Shape t s → nodes t !! n = None →
  ∃ t' res,
    insertNode (with_new_node n k v t) n mode = Ok (t', res) ∧
    compare t' = compare t ∧
    ((res = mkInsertionResult true (mkIterator (Some n)) ∧ size t' = S (size t) ∧
      ∃ s' pre post,
        Shape t' s' ∧ elems s = pre ++ post ∧ elems s' = pre ++ (n, k) :: post ∧
        (valid_compare (compare t) → sorted u (compare t) (keys s) →
         (u = true → mode ≠ INSERT_MULTI) →
         sorted u (compare t) (keys s') ∧
         (mode ≠ INSERT_MULTI → ¬ present (compare t) k (keys s))))
     ∨
     (∃ y ky,
        res = mkInsertionResult false (mkIterator (Some y)) ∧
        mode ≠ INSERT_MULTI ∧
        (mode = INSERT_UNIQUE → t' = with_new_node n k v t) ∧
        size t' = size t ∧
        ∃ s', Shape t' s' ∧ elems s' = elems s ∧
              (y, ky) ∈ elems s ∧ compare t k ky = Eq)).
Proof.
  intros HS Hn.
  destruct (Shape_with_new_node _ _ _ k v HS Hn) as [HS1 Hni].
  destruct (insertNode_spec mode _ s n k v RED HS1) as (t' & res & Heq & Hc & Hp & Hpost);
    [simpl; apply lookup_insert_eq|done|].
  exists t', res. simpl in *. split_and!; [done..|].
  destruct Hpost as [(Hres & Hsz & s' & c' & HS' & <- & Hel & Hpath)
    |(y & Hres & Hm & Ht & Hsz & s' & c' & cy & l & ky & vy & r & HS' & Hel & <- & Hk)].
  - left. split_and!; [done..|]. exists s', (ctx_before c'), (ctx_after c').
    split_and!; [done|by rewrite elems_plug|done|].
    intros Hcmp Hsorted Hu. rewrite (keys_elems s'), Hel.
    by apply insert_sorted.
  - right. exists y, ky. split_and!; [done..|]. exists s'. split_and!; [done..| |done].
    rewrite elems_plug. simpl. rewrite !elem_of_app, elem_of_cons. tauto.
Qed.

Lemma reachable_insert_key u mode t k v t' res :
  reachable u t → (u = true → mode ≠ INSERT_MULTI) →
  insert_key mode t k v = Ok (t', res) → reachable u t'.
Proof.
  intros Hr Hu Heq. eapply reach_insert; [exact Hr|apply fresh_lookup|exact Hu|exact Heq].
Qed.

Lemma reachable_insert_keys u mode ks : ∀ t t',
  reachable u t → (u = true → mode ≠ INSERT_MULTI) →
  insert_keys mode t ks = Ok t' → reachable u t'.
Proof.
  induction ks as [|k ks IH]; intros t t' Hr Hu; simpl.
  - by intros [= <-].
  - destruct (insert_key mode t k None) as [[t1 res]|e] eqn:E; simpl; [|done].
    apply IH; [|done]. by eapply reachable_insert_key.
Qed.

Lemma insert_key_compare u mode t k v t' res :
  reachable u t → insert_key mode t k v = Ok (t', res) → compare t' = compare t.
Proof.
  intros Hreach Heq. destruct (reachable_Inv _ _ Hreach) as (s & HS & _).
  destruct (insert_new_spec u mode t s _ k v HS (fresh_lookup t))
    as (t1 & res1 & Heq1 & Hc & _).
  unfold insert_key in Heq. congruence.
Qed.

Lemma insert_keys_compare u mode ks : ∀ t t',
  reachable u t → (u = true → mode ≠ INSERT_MULTI) →
  insert_keys mode t ks = Ok t' → compare t' = compare t.
Proof.
  induction ks as [|k ks IH]; intros t t' Hr Hu; simpl.
  - by intros [= <-].
  - destruct (insert_key mode t k None) as [[t1 res]|e] eqn:E; simpl; [|done].
    intros Heq. rewrite (IH t1 t'); [by eapply insert_key_compare| |done..].
    by eapply reachable_insert_key.
Qed.

Lemma present_mono (cmp : K → K → comparison) k (l1 l2 : list K) :
  (∀ k', k' ∈ l1 → k' ∈ l2) → present cmp k l1 → present cmp k l2.
Proof.
  unfold present. rewrite !Exists_exists. intros Hsub (k' & Hin & Hk). eauto.
Qed.

Lemma present_elem (cmp : K → K → comparison) k s y ky :
  (y, ky) ∈ elems s → cmp k ky = Eq → present cmp k (keys s).
Proof.
  intros Hin Hk. unfold present. rewrite Exists_exists. exists ky. split; [|done].
  rewrite keys_elems. apply list_elem_of_fmap. by exists (y, ky).
Qed.

(** With keys strictly increasing, a key has at most one equal in the
    tree. *)
Lemma increasing_unique (cmp : K → K → comparison) (pre post : list K) ky k :
  valid_compare cmp → increasing cmp (pre ++ ky :: post) → cmp k ky = Eq →
  ¬ present cmp k (pre ++ post).
Proof.
  intros Hcmp. unfold increasing, present.
  rewrite StronglySorted_app, StronglySorted_cons, Forall_forall, Exists_app, !Exists_exists.
  intros (Hpre & _ & Hpost & _) Hk.
  destruct (cmp_eq_le cmp Hcmp _ _ Hk) as [Hle Hge].
  intros [(k' & Hin & Hk') | (k' & Hin & Hk')].
  - assert (cmp k' ky = Lt) as Hlt by (apply Hpre; [done|by left]).
    pose proof (cmp_lt_le_trans cmp Hcmp _ _ _ Hlt Hge) as Hlt'.
    apply (cmp_lt_gt cmp Hcmp) in Hlt'. congruence.
  - pose proof (cmp_le_lt_trans cmp Hcmp _ _ _ Hle (Hpost _ Hin)). congruence.
Qed.

(** [erase(find(k))] for a key of the tree. *)
Lemma erase_find_spec u t k es :
  valid_compare (compare t) → reachable u t →
  entries t = Ok es → present (compare t) k es.*2 →
  ∃ y ky pre post t',
    find t k = Ok (mkIterator (Some y)) ∧
    es = pre ++ (y, ky) :: post ∧ compare t k ky = Eq ∧
    erase t (Some y) = Ok t' ∧ reachable u t' ∧
    entries t' = Ok (pre ++ post) ∧ S (size t') = size t ∧
    (u = true → find t' k = Ok (end_ t')).
Proof.
  intros Hcmp Hreach Hes Hk.
  destruct (Inv_Shape _ _ (reachable_Inv _ _ Hreach)) as (st & HS & Hent & _ & Hsorted).
  rewrite Hent in Hes. injection Hes as <-. specialize (Hsorted Hcmp).
  rewrite <-keys_elems in Hk.
  destruct (find_present t st k Hcmp HS (sorted_nondecreasing _ _ _ Hsorted) Hk)
    as (y & c & col & l & ky & v & r & Hfind & -> & Hky).
  destruct (erase_spec _ _ _ _ _ _ _ _ HS) as (t' & s' & Heq & HS' & Hel & Hc & _ & Hsz).
  exists y, ky, (ctx_before c ++ elems l), (elems r ++ ctx_after c), t'.
  assert (Hin : in_tree t y).
  { apply (in_tree_ids _ _ _ HS). rewrite ids_elems, elems_plug. simpl.
    rewrite !fmap_app, fmap_cons, !elem_of_app, elem_of_cons. simpl. tauto. }
  split_and!; try done.
  - rewrite elems_plug. simpl. by rewrite <-!app_assoc.
  - by eapply reach_erase.
  - rewrite (Shape_entries _ _ HS'), Hel. by rewrite <-!app_assoc.
  - destruct HS as (_ & _ & _ & Hsize). rewrite Hsz, Hsize, length_elems_plug. simpl.
    rewrite length_app. simpl. lia.
  - intros ->. apply (find_absent _ _ _ HS'). rewrite Hc.
    rewrite keys_plug_node in Hsorted. simpl in Hsorted.
    rewrite keys_elems, Hel.
    replace ((ctx_before c ++ (elems l ++ elems r) ++ ctx_after c).*2)
      with ((ctx_before c ++ elems l).*2 ++ (elems r ++ ctx_after c).*2)
      by (rewrite !fmap_app, <-!app_assoc; done).
    by eapply increasing_unique.
Qed.

End InsertNew.

(** ** The container [TreeSet] *)

Section Containers.
Context {K : Type} (knull : K).
Implicit Types (this : @TreeSet.TreeSet K) (st : tree K ()) (k : K).

Lemma new_node_eq k (t : Tree K ()) :
  TreeSet.new_node knull k t
  = (fresh (dom (nodes t)), with_new_node (fresh (dom (nodes t))) k None t).
Proof.
  unfold TreeSet.new_node, alloc, upd, with_new_node. simpl.
  by rewrite alter_insert_eq.
Qed.

Lemma insertUnique_insert_key this k :
  TreeSet.insertUnique knull this k
  = ('(t, res) ← insert_key INSERT_UNIQUE (TreeSet.__t this) k None;
     Ok (TreeSet.mkTreeSet t, res)).
Proof. unfold TreeSet.insertUnique. by rewrite new_node_eq. Qed.

Lemma add_insert_key this k :
  TreeSet.add knull this k
  = ('(t, _) ← insert_key INSERT_UNIQUE (TreeSet.__t this) k None;
     Ok (TreeSet.mkTreeSet t)).
Proof. unfold TreeSet.add. by rewrite new_node_eq. Qed.

Lemma has_present this st k :
  valid_compare (compare (TreeSet.__t this)) → Shape (TreeSet.__t this) st →
  nondecreasing (compare (TreeSet.__t this)) (keys st) →
  present (compare (TreeSet.__t this)) k (keys st) →
  TreeSet.has this k = Ok true.
Proof.
  intros Hcmp HS Hnd Hk.
  destruct (find_present _ _ _ Hcmp HS Hnd Hk) as (y & c & col & l & ky & v & r & Heq & _).
  unfold TreeSet.has. by rewrite Heq.
Qed.

Lemma has_absent this st k :
  Shape (TreeSet.__t this) st →
  ¬ present (compare (TreeSet.__t this)) k (keys st) →
  TreeSet.has this k = Ok false.
Proof.
  intros HS Hk. unfold TreeSet.has. by rewrite (find_absent _ _ _ HS Hk).
Qed.

(** [insertUnique(key)] on a set whose keys are in order. *)
Lemma insertUnique_spec this st k :
  valid_compare (compare (TreeSet.__t this)) → Shape (TreeSet.__t this) st →
  sorted true (compare (TreeSet.__t this)) (keys st) →
  ∃ this' res st' b,
    TreeSet.insertUnique knull this k = Ok (this', res) ∧
    TreeSet.has this k = Ok b ∧ wasInserted res = negb b ∧
    compare (TreeSet.__t this') = compare (TreeSet.__t this) ∧
    Shape (TreeSet.__t this') st' ∧
    sorted true (compare (TreeSet.__t this)) (keys st') ∧
    present (compare (TreeSet.__t this)) k (keys st') ∧
    TreeSet.size this' = TreeSet.size this + (if b then 0 else 1) ∧
    (b = true →
     (∃ n, nodes (TreeSet.__t this) !! n = None ∧
           TreeSet.__t this' = with_new_node n k None (TreeSet.__t this)) ∧
     elems st' = elems st ∧
     ∃ y ky, iterator res = mkIterator (Some y) ∧ (y, ky) ∈ elems st ∧
             compare (TreeSet.__t this) k ky = Eq).
Proof.
  intros Hcmp HS Hsorted. destruct this as [t]. simpl in *.
  pose proof (fresh_lookup t) as Hn.
  destruct (insert_new_spec true INSERT_UNIQUE t st _ k None HS Hn)
    as (t' & res & Heq & Hc & Hcases).
  rewrite insertUnique_insert_key. unfold insert_key. simpl. rewrite Heq. simpl.
  destruct Hcases as [(-> & Hsz & st' & pre & post & HS' & Hel & Hel' & Hord)
    |(y & ky & -> & _ & Ht & Hsz & st' & HS' & Hel & Hin & Hk)].
  - destruct (Hord Hcmp Hsorted) as [Hsorted' Habs]; [done|].
    exists (TreeSet.mkTreeSet t'), (mkInsertionResult true (mkIterator (Some (fresh (dom (nodes t)))))),
      st', false.
    split_and!; try done.
    + by apply (has_absent (TreeSet.mkTreeSet t) st); [|apply Habs].
    + unfold present. rewrite keys_elems, Hel', fmap_app, fmap_cons, Exists_app, Exists_cons.
      right. left. by apply cmp_refl.
    + unfold TreeSet.size. simpl. lia.
  - exists (TreeSet.mkTreeSet t'), (mkInsertionResult false (mkIterator (Some y))), st', true.
    assert (Hpres : present (compare t) k (keys st)) by by eapply present_elem.
    split_and!; try done.
    + apply (has_present (TreeSet.mkTreeSet t) st); try done.
      by apply (sorted_nondecreasing true).
    + by rewrite keys_elems, Hel, <-keys_elems.
    + by rewrite keys_elems, Hel, <-keys_elems.
    + unfold TreeSet.size. simpl. lia.
    + intros _. split_and!; [|done|by exists y, ky].
      exists (fresh (dom (nodes t))). split; [done|]. simpl. by apply Ht.
Qed.

Lemma add_spec this k :
  reachable true (TreeSet.__t this) →
  ∃ this' l l',
    TreeSet.add knull this k = Ok this' ∧ reachable true (TreeSet.__t this') ∧
    compare (TreeSet.__t this') = compare (TreeSet.__t this) ∧
    TreeSet.iterate this = Ok l ∧ TreeSet.iterate this' = Ok l' ∧
    (∀ k', k' ∈ l' → k' ∈ l ∨ k' = k) ∧ (∀ k', k' ∈ l → k' ∈ l') ∧
    (valid_compare (compare (TreeSet.__t this)) →
     present (compare (TreeSet.__t this)) k l').
Proof.
  intros Hreach. destruct this as [t]. simpl in *.
  destruct (reachable_Inv _ _ Hreach) as (st & HS & _).
  pose proof (fresh_lookup t) as Hn.
  destruct (insert_new_spec true INSERT_UNIQUE t st _ k None HS Hn)
    as (t' & res & Heq & Hc & Hcases).
  exists (TreeSet.mkTreeSet t'), (keys st).
  assert (Hreach' : reachable true t').
  { by apply (reach_insert true t _ k None INSERT_UNIQUE t' res Hreach Hn). }
  rewrite add_insert_key. unfold insert_key, TreeSet.iterate. simpl. rewrite Heq. simpl.
  rewrite (Shape_toList _ _ HS).
  destruct Hcases as [(-> & Hsz & st' & pre & post & HS' & Hel & Hel' & Hord)
    |(y & ky & -> & _ & Ht & Hsz & st' & HS' & Hel & Hin & Hk)].
  - exists (keys st'). rewrite (Shape_toList _ _ HS').
    rewrite !keys_elems, Hel, Hel', !fmap_app, fmap_cons. simpl.
    split_and!; try done.
    + intros k'. rewrite !elem_of_app, elem_of_cons. tauto.
    + intros k'. rewrite !elem_of_app, elem_of_cons. tauto.
    + intros Hcmp. unfold present. rewrite Exists_app, Exists_cons.
      right. left. by apply cmp_refl.
  - exists (keys st'). rewrite (Shape_toList _ _ HS').
    rewrite (keys_elems st'), Hel, <-keys_elems.
    split_and!; try done; [tauto|]. intros _. by eapply present_elem.
Qed.

Lemma add_all_spec ks : ∀ this,
  reachable true (TreeSet.__t this) →
  ∃ this' l l',
    TreeSet.add_all knull this ks = Ok this' ∧ reachable true (TreeSet.__t this') ∧
    compare (TreeSet.__t this') = compare (TreeSet.__t this) ∧
    TreeSet.iterate this = Ok l ∧ TreeSet.iterate this' = Ok l' ∧
    (∀ k', k' ∈ l' → k' ∈ l ∨ k' ∈ ks) ∧ (∀ k', k' ∈ l → k' ∈ l') ∧
    (valid_compare (compare (TreeSet.__t this)) →
     ∀ k, k ∈ ks → present (compare (TreeSet.__t this)) k l').
Proof.
  induction ks as [|k ks IH]; intros this Hreach.
  - destruct (Inv_Shape _ _ (reachable_Inv _ _ Hreach)) as (st & _ & _ & Hl & _).
    exists this, (keys st), (keys st). simpl. split_and!; try done; [tauto|].
    by intros _ k ?%elem_of_nil.
  - destruct (add_spec this k Hreach)
      as (this1 & l & l1 & Heq1 & Hreach1 & Hc1 & Hl & Hl1 & Hsub1 & Hinc1 & Hpres1).
    destruct (IH this1 Hreach1)
      as (this' & l1' & l' & Heq & Hreach' & Hc & Hl1' & Hl' & Hsub & Hinc & Hpres).
    rewrite Hl1 in Hl1'. injection Hl1' as <-.
    exists this', l, l'. simpl. rewrite Heq1. simpl.
    split_and!; try done; [congruence| | |].
    + intros k' Hk'. rewrite elem_of_cons.
      destruct (Hsub _ Hk') as [Hk1|?]; [|tauto]. destruct (Hsub1 _ Hk1); tauto.
    + auto.
    + intros Hcmp k' [->|Hk']%elem_of_cons.
      * eapply present_mono; [exact Hinc|]. by apply Hpres1.
      * rewrite <-Hc1. apply Hpres; [by rewrite Hc1|done].
Qed.

Lemma has_of_present this l k :
  valid_compare (compare (TreeSet.__t this)) → reachable true (TreeSet.__t this) →
  TreeSet.iterate this = Ok l → present (compare (TreeSet.__t this)) k l →
  TreeSet.has this k = Ok true.
Proof.
  intros Hcmp Hreach Hl Hk.
  destruct (Inv_Shape _ _ (reachable_Inv _ _ Hreach)) as (st & HS & _ & Hl' & Hsorted).
  unfold TreeSet.iterate in Hl. rewrite Hl' in Hl. injection Hl as <-.
  apply (has_present this st); try done.
  by apply (sorted_nondecreasing true), Hsorted.
Qed.

Lemma delete_absent this l k :
  reachable true (TreeSet.__t this) → TreeSet.iterate this = Ok l →
  ¬ present (compare (TreeSet.__t this)) k l →
  TreeSet.delete this k = Ok this.
Proof.
  intros Hreach Hl Hk.
  destruct (Inv_Shape _ _ (reachable_Inv _ _ Hreach)) as (st & HS & _ & Hl' & _).
  unfold TreeSet.iterate in Hl. rewrite Hl' in Hl. injection Hl as <-.
  unfold TreeSet.delete. by rewrite (find_absent _ _ _ HS Hk).
Qed.

End Containers.

(** * The properties of the specification *)

Lemma Z_compare_valid : valid_compare Z.compare.
Proof.
  split.
  - intros a b. apply Z.compare_antisym.
  - intros a b c Hab Hbc. change ((a ≤ c)%Z). etrans; [exact Hab|exact Hbc].
Qed.

Lemma reachable_new {K V : Type} u (cmp : K → K → comparison) :
  reachable u (Tree_new cmp : Tree K V).
Proof. by apply reach_empty. Qed.

(** C1: in every state that the insertions, [erase] and [clear] reach
    from an empty tree, the root, if present, is Black, no Red node has a
    Red child, and all the paths from a node of the tree down to an absent
    child pass through the same number of Black nodes. *)
Theorem reachable_red_black {K V : Type} (u : bool) (t : Tree K V) :
  reachable u t → root_black t ∧ no_red_red t ∧ black_uniform t.
Proof.
  intros Hreach. destruct (reachable_Inv _ _ Hreach) as (s & HS & _).
  split_and!.
  - by eapply Shape_root_black.
  - by eapply Shape_no_red_red.
  - by eapply Shape_black_uniform.
Qed.

Lemma reachable_red_black_witness :
  ∃ t : Tree Z (),
    insert_keys INSERT_UNIQUE (Tree_new Z.compare) [5; 1; 3; 2; 4]%Z = Ok t ∧
    root_black t ∧ no_red_red t ∧ black_uniform t.
Proof.
  destruct (insert_keys INSERT_UNIQUE (Tree_new Z.compare : Tree Z ()) [5; 1; 3; 2; 4]%Z)
    as [t|e] eqn:E; [|by vm_compute in E].
  exists t. split; [done|]. apply (reachable_red_black true).
  eapply reachable_insert_keys; [| |exact E]; [apply reachable_new|done].
Defined.

(** C2: after any sequence of insertions and erasures from an empty tree,
    the forward traversal yields the keys in non-decreasing order of the
    comparator, and strictly increasing (no two keys equal) when only the
    unique insertions were used; a set made from 5, 1, 3, 2, 4 is traversed
    as 1, 2, 3, 4, 5. *)
Theorem traversal_sorted :
  (∀ (K V : Type) (u : bool) (t : Tree K V),
     valid_compare (compare t) → reachable u t →
     ∃ l, toList t = Ok l ∧ nondecreasing (compare t) l ∧
          (u = true → increasing (compare t) l)) ∧
  run_list [5; 1; 3; 2; 4]%Z = Ok [1; 2; 3; 4; 5]%Z.
Proof.
  split; [|by vm_compute].
  intros K V u t Hcmp Hreach.
  destruct (Inv_Shape _ _ (reachable_Inv _ _ Hreach)) as (s & _ & _ & Hl & Hsorted).
  exists (keys s). split_and!; [done| |].
  - by eapply sorted_nondecreasing, Hsorted.
  - intros ->. by apply Hsorted.
Qed.

Lemma traversal_sorted_witness :
  ∃ (t : Tree Z ()) l,
    insert_keys INSERT_UNIQUE (Tree_new Z.compare) [5; 1; 3; 2; 4]%Z = Ok t ∧
    toList t = Ok l ∧ nondecreasing Z.compare l ∧ increasing Z.compare l.
Proof.
  destruct (insert_keys INSERT_UNIQUE (Tree_new Z.compare : Tree Z ()) [5; 1; 3; 2; 4]%Z)
    as [t|e] eqn:E; [|by vm_compute in E].
  assert (Hreach : reachable true t).
  { eapply reachable_insert_keys; [| |exact E]; [apply reachable_new|done]. }
  assert (Hc : compare t = Z.compare).
  { change Z.compare with (compare (Tree_new Z.compare : Tree Z ())).
    eapply (insert_keys_compare true INSERT_UNIQUE); [apply reachable_new|done|exact E]. }
  assert (Hcmp : valid_compare (compare t)) by (rewrite Hc; apply Z_compare_valid).
  destruct (proj1 traversal_sorted Z unit true t Hcmp Hreach) as (l & Hl & Hnd & Hinc).
  exists t, l. rewrite Hc in Hnd, Hinc. split_and!; [done..|by apply Hinc].
Defined.

(** C3: on a set with a proper comparator, two calls of [insertUnique(k)]
    in a row throw nothing; the second one inserts nothing
    ([wasInserted] is false), leaves the tree as it was but for the
    unused new node, and its cursor is on the node of the tree whose key
    is equal to [k]; the size grows by one in all when no key equal to [k]
    was in the set before, and not at all otherwise. *)
Theorem insertUnique_twice {K : Type} (knull : K) (this : TreeSet.TreeSet) (k : K) :
  valid_compare (compare (TreeSet.__t this)) → reachable true (TreeSet.__t this) →
  ∃ this1 r1 this2 r2 b,
    TreeSet.has this k = Ok b ∧
    TreeSet.insertUnique knull this k = Ok (this1, r1) ∧ wasInserted r1 = negb b ∧
    TreeSet.insertUnique knull this1 k = Ok (this2, r2) ∧ wasInserted r2 = false ∧
    TreeSet.size this2 = TreeSet.size this + (if b then 0 else 1) ∧
    TreeSet.size this2 = TreeSet.size this1 ∧
    TreeSet.iterate this2 = TreeSet.iterate this1 ∧
    (∃ n, nodes (TreeSet.__t this1) !! n = None ∧
          TreeSet.__t this2 = with_new_node n k None (TreeSet.__t this1)) ∧
    ∃ y ky es,
      iterator r2 = mkIterator (Some y) ∧ entries (TreeSet.__t this1) = Ok es ∧
      (y, ky) ∈ es ∧ compare (TreeSet.__t this1) k ky = Eq.
Proof.
  intros Hcmp Hreach.
  destruct (Inv_Shape _ _ (reachable_Inv _ _ Hreach)) as (st & HS & _ & _ & Hsorted).
  destruct (insertUnique_spec knull this st k Hcmp HS (Hsorted Hcmp))
    as (this1 & r1 & st1 & b & Heq1 & Hhas & Hr1 & Hc1 & HS1 & Hsorted1 & Hpres1 & Hsz1 & _).
  rewrite <-Hc1 in Hcmp, Hsorted1, Hpres1.
  destruct (insertUnique_spec knull this1 st1 k Hcmp HS1 Hsorted1)
    as (this2 & r2 & st2 & b2 & Heq2 & Hhas2 & Hr2 & Hc2 & HS2 & _ & _ & Hsz2 & Hdup).
  rewrite (has_present this1 st1 k Hcmp HS1 (sorted_nondecreasing _ _ _ Hsorted1) Hpres1)
    in Hhas2.
  injection Hhas2 as <-.
  destruct (Hdup eq_refl) as (Hnew & Hel & y & ky & Hit & Hin & Hky).
  exists this1, r1, this2, r2, b. split_and!; try done.
  - lia.
  - lia.
  - unfold TreeSet.iterate.
    by rewrite (Shape_toList _ _ HS2), (Shape_toList _ _ HS1), !keys_elems, Hel.
  - exists y, ky, (elems st1). by rewrite (Shape_entries _ _ HS1).
Qed.

Lemma insertUnique_twice_witness :
  ∃ this1 r1 this2 r2,
    TreeSet.insertUnique 0%Z (TreeSet.mkTreeSet (Tree_new Z.compare)) 7%Z = Ok (this1, r1) ∧
    TreeSet.insertUnique 0%Z this1 7%Z = Ok (this2, r2) ∧
    wasInserted r2 = false ∧ TreeSet.size this2 = 1.
Proof.
  destruct (insertUnique_twice 0%Z (TreeSet.mkTreeSet (Tree_new Z.compare)) 7%Z
              Z_compare_valid (reachable_new true _))
    as (this1 & r1 & this2 & r2 & b & Hhas & H1 & _ & H2 & Hr2 & Hsz & _).
  exists this1, r1, this2, r2. split_and!; try done.
  vm_compute in Hhas. injection Hhas as <-. exact Hsz.
Defined.

(** The size does not grow when the key is in the set already. *)
Lemma insertUnique_twice_present :
  ∃ this this1 r1 this2 r2,
    zset (ArgIterable [1%Z]) = Ok this ∧
    TreeSet.insertUnique 0%Z this 1%Z = Ok (this1, r1) ∧
    TreeSet.insertUnique 0%Z this1 1%Z = Ok (this2, r2) ∧
    TreeSet.size this2 ≠ TreeSet.size this + 1.
Proof.
  eexists _, _, _, _, _. split_and!; [vm_compute; reflexivity..|].
  vm_compute. lia.
Qed.

(** C4: in a tree whose keys are in order, [lowerBound(k)] is the cursor
    on the first node of the traversal whose key is not less than [k], and
    [upperBound(k)] on the first whose key is greater than [k]; each is the
    end cursor when there is no such node.  With the keys 1, 3, 3, 5,
    [lowerBound(3)] is on the first 3 and [upperBound(3)] on 5. *)
Theorem bounds_spec :
  (∀ (K V : Type) (u : bool) (t : Tree K V) (k : K),
     valid_compare (compare t) → reachable u t →
     ∃ es, entries t = Ok es ∧
       (∃ pre post,
          es = pre ++ post ∧
          Forall (λ e, compare t e.2 k = Lt) pre ∧
          Forall (λ e, compare t e.2 k ≠ Lt) post ∧
          lowerBound t k = Ok (mkIterator (hd_ref post))) ∧
       (∃ pre post,
          es = pre ++ post ∧
          Forall (λ e, compare t k e.2 ≠ Lt) pre ∧
          Forall (λ e, compare t k e.2 = Lt) post ∧
          upperBound t k = Ok (mkIterator (hd_ref post)))) ∧
  ∃ t, tree_1335 = Ok t ∧
       entries t = Ok [(1%positive, 1%Z); (2%positive, 3%Z);
                       (3%positive, 3%Z); (4%positive, 5%Z)] ∧
       lowerBound t 3%Z = Ok (mkIterator (Some 2%positive)) ∧
       upperBound t 3%Z = Ok (mkIterator (Some 4%positive)).
Proof.
  split.
  - intros K V u t k Hcmp Hreach.
    destruct (Inv_Shape _ _ (reachable_Inv _ _ Hreach)) as (s & HS & Hes & _ & Hsorted).
    pose proof (sorted_nondecreasing _ _ _ (Hsorted Hcmp)) as Hnd.
    exists (elems s). split; [done|]. split.
    + destruct (lowerBound_spec t s k Hcmp HS Hnd) as (pre & post & ? & ? & ? & ?).
      by exists pre, post.
    + destruct (upperBound_spec t s k Hcmp HS Hnd) as (pre & post & ? & ? & ? & ?).
      by exists pre, post.
  - eexists. split_and!; vm_compute; reflexivity.
Qed.

Lemma bounds_spec_witness :
  ∃ t es pre post,
    tree_1335 = Ok t ∧ entries t = Ok es ∧ es = pre ++ post ∧
    Forall (λ e, compare t e.2 3%Z = Lt) pre ∧
    Forall (λ e, compare t e.2 3%Z ≠ Lt) post ∧
    lowerBound t 3%Z = Ok (mkIterator (hd_ref post)).
Proof.
  destruct tree_1335 as [t|e] eqn:E; [|by vm_compute in E].
  assert (Hreach : reachable false t).
  { eapply (reachable_insert_keys false INSERT_MULTI); [| |exact E];
      [apply reachable_new|done]. }
  assert (Hc : compare t = Z.compare).
  { change Z.compare with (compare (Tree_new Z.compare : Tree Z ())).
    eapply (insert_keys_compare false INSERT_MULTI); [apply reachable_new|done|exact E]. }
  assert (Hcmp : valid_compare (compare t)) by (rewrite Hc; apply Z_compare_valid).
  destruct (proj1 bounds_spec Z unit false t 3%Z Hcmp Hreach)
    as (es & Hes & (pre & post & Hsplit & Hpre & Hpost & Hlb) & _).
  exists t, es, pre, post. clear E Hreach. split_and!; [reflexivity|assumption..].
Defined.

(** C5: when a key equal to [k] is in the tree, [find(k)] is the cursor
    on a node with such a key, and erasing that node removes this one node
    from the traversal and decrements the size; after unique insertions
    only, [find(k)] is then the end cursor. *)
Theorem erase_find {K V : Type} (u : bool) (t : Tree K V) (k : K) es :
  valid_compare (compare t) → reachable u t →
  entries t = Ok es → present (compare t) k es.*2 →
  ∃ y ky pre post t',
    find t k = Ok (mkIterator (Some y)) ∧
    es = pre ++ (y, ky) :: post ∧ compare t k ky = Eq ∧
    erase t (Some y) = Ok t' ∧
    entries t' = Ok (pre ++ post) ∧ S (size t') = size t ∧
    (u = true → find t' k = Ok (end_ t')).
Proof.
  intros Hcmp Hreach Hes Hk.
  destruct (erase_find_spec u t k es Hcmp Hreach Hes Hk)
    as (y & ky & pre & post & t' & ? & ? & ? & ? & _ & ? & ? & ?).
  by exists y, ky, pre, post, t'.
Qed.

Lemma erase_find_witness :
  ∃ (t : Tree Z ()) y t',
    insert_keys INSERT_UNIQUE (Tree_new Z.compare) [5; 1; 3; 2; 4]%Z = Ok t ∧
    find t 3%Z = Ok (mkIterator (Some y)) ∧
    erase t (Some y) = Ok t' ∧ S (size t') = size t ∧
    find t' 3%Z = Ok (end_ t').
Proof.
  assert (∃ t : Tree Z (),
            insert_keys INSERT_UNIQUE (Tree_new Z.compare) [5; 1; 3; 2; 4]%Z = Ok t ∧
            entries t = Ok [(2%positive, 1%Z); (4%positive, 2%Z); (3%positive, 3%Z);
                            (5%positive, 4%Z); (1%positive, 5%Z)])
    as (t & E & Hes) by (eexists; split; vm_compute; reflexivity).
  assert (Hreach : reachable true t).
  { eapply (reachable_insert_keys true INSERT_UNIQUE); [| |exact E];
      [apply reachable_new|done]. }
  assert (Hc : compare t = Z.compare).
  { change Z.compare with (compare (Tree_new Z.compare : Tree Z ())).
    eapply (insert_keys_compare true INSERT_UNIQUE); [apply reachable_new|done|exact E]. }
  assert (Hcmp : valid_compare (compare t)) by (rewrite Hc; apply Z_compare_valid).
  assert (Hk : present (compare t) 3%Z
                 ([(2%positive, 1%Z); (4%positive, 2%Z); (3%positive, 3%Z);
                   (5%positive, 4%Z); (1%positive, 5%Z)].*2)).
  { rewrite Hc. unfold present. simpl. rewrite !Exists_cons. right. right. by left. }
  destruct (erase_find true t 3%Z _ Hcmp Hreach Hes Hk)
    as (y & ky & pre & post & t' & Hfind & _ & _ & Herase & _ & Hsz & Hend).
  exists t, y, t'. clear Hes Hreach Hk. split_and!; [assumption..|by apply Hend].
Defined.

(** C6: setting [compareFunc] empties the set, whatever it held: the size
    is 0, [begin()] equals [end()], nothing is traversed, and the new
    comparator is in place. *)
Theorem set_compareFunc_clears {K : Type} (this : TreeSet.TreeSet)
    (func : K → K → comparison) :
  TreeSet.size (TreeSet.set_compareFunc this func) = 0 ∧
  (∃ b, TreeSet.begin (TreeSet.set_compareFunc this func) = Ok b ∧
        equals b (TreeSet.end_ (TreeSet.set_compareFunc this func)) = true) ∧
  TreeSet.iterate (TreeSet.set_compareFunc this func) = Ok [] ∧
  compare (TreeSet.__t (TreeSet.set_compareFunc this func)) = func.
Proof.
  split_and!; try reflexivity. by exists (mkIterator null).
Qed.

(** C7: the constructor throws the error "TreeSet constructor accepts only
    iterable objects" for an argument that is not [undefined], not [null]
    and not iterable; for an iterable it returns the set to which [add] has
    been applied for each element in turn: the set holds keys of the
    iterable only and, with a proper comparator, [has] is true of each
    element. *)
Theorem constructor_iterable {K : Type} (knull : K) (cmp : K → K → comparison) :
  TreeSet.constructor knull cmp ArgNotIterable
  = Throw (JsError "TreeSet constructor accepts only iterable objects") ∧
  ∀ ks, ∃ this l,
    TreeSet.constructor knull cmp (ArgIterable ks) = Ok this ∧
    TreeSet.add_all knull
      (TreeSet.mkTreeSet (with_valuePolicy KeyOnlyPolicy (Tree_new cmp))) ks = Ok this ∧
    TreeSet.iterate this = Ok l ∧ (∀ k, k ∈ l → k ∈ ks) ∧
    (valid_compare cmp → ∀ k, k ∈ ks → TreeSet.has this k = Ok true).
Proof.
  split; [done|]. intros ks.
  set (this0 := TreeSet.mkTreeSet (with_valuePolicy KeyOnlyPolicy (Tree_new cmp))).
  assert (Hreach0 : reachable true (TreeSet.__t this0)) by by apply reach_empty.
  destruct (add_all_spec knull ks this0 Hreach0)
    as (this & l0 & l & Heq & Hreach & Hc & Hl0 & Hl & Hsub & _ & Hpres).
  injection Hl0 as <-. exists this, l. split_and!; try done.
  - intros k Hk. destruct (Hsub k Hk) as [?%elem_of_nil|?]; done.
  - intros Hcmp k Hk. apply (has_of_present this l k); try done.
    + by rewrite Hc.
    + rewrite Hc. by apply Hpres.
Qed.

Lemma constructor_iterable_witness :
  ∃ this, zset (ArgIterable [5; 1; 3; 2; 4]%Z) = Ok this ∧
          TreeSet.has this 3%Z = Ok true.
Proof.
  destruct (proj2 (constructor_iterable 0%Z Z.compare) [5; 1; 3; 2; 4]%Z)
    as (this & l & Heq & _ & _ & _ & Hhas).
  exists this. split; [exact Heq|]. apply (Hhas Z_compare_valid).
  rewrite !elem_of_cons. tauto.
Defined.

Lemma constructor_reachable {K : Type} (knull : K) (cmp : K → K → comparison) a this :
  TreeSet.constructor knull cmp a = Ok this →
  reachable true (TreeSet.__t this) ∧ compare (TreeSet.__t this) = cmp.
Proof.
  set (this0 := TreeSet.mkTreeSet (with_valuePolicy KeyOnlyPolicy (Tree_new cmp))).
  assert (Hreach0 : reachable true (TreeSet.__t this0)) by by apply reach_empty.
  destruct a as [| |ks|]; simpl; [by intros [= <-]..| |done].
  destruct (add_all_spec knull ks this0 Hreach0) as (this' & l0 & l & Heq & Hreach & Hc & _).
  fold this0. rewrite Heq. by intros [= <-].
Qed.

(** C8: [delete(k)] of a key that is not in the set throws nothing and
    leaves the set as it is: the same size, the same traversal. *)
Theorem delete_absent_noop {K : Type} (this : TreeSet.TreeSet) (k : K) l :
  reachable true (TreeSet.__t this) → TreeSet.iterate this = Ok l →
  ¬ present (compare (TreeSet.__t this)) k l →
  ∃ this', TreeSet.delete this k = Ok this' ∧ this' = this ∧
           TreeSet.size this' = TreeSet.size this ∧ TreeSet.iterate this' = Ok l.
Proof.
  intros Hreach Hl Hk. exists this. by rewrite (delete_absent this l k).
Qed.

Lemma delete_absent_noop_witness :
  ∃ this, zset (ArgIterable [5; 1; 3; 2; 4]%Z) = Ok this ∧
          TreeSet.delete this 7%Z = Ok this ∧ TreeSet.size this = 5.
Proof.
  assert (∃ this, zset (ArgIterable [5; 1; 3; 2; 4]%Z) = Ok this ∧
                  TreeSet.iterate this = Ok [1; 2; 3; 4; 5]%Z ∧ TreeSet.size this = 5)
    as (this & E & Hl & Hsz) by (eexists; split_and!; vm_compute; reflexivity).
  destruct (constructor_reachable _ _ _ _ E) as [Hreach Hc].
  assert (Hk : ¬ present (compare (TreeSet.__t this)) 7%Z [1; 2; 3; 4; 5]%Z).
  { rewrite Hc. unfold present. rewrite !Exists_cons, Exists_nil. simpl.
    intros [?|[?|[?|[?|[?|[]]]]]]; discriminate. }
  destruct (delete_absent_noop this 7%Z _ Hreach Hl Hk) as (this' & Hdel & -> & _).
  exists this. clear Hl Hreach Hk. split_and!; assumption.
Defined.

Lemma constructor_succeeds {K : Type} (knull : K) (cmp : K → K → comparison) ks :
  ∃ this, TreeSet.constructor knull cmp (ArgIterable ks) = Ok this.
Proof.
  set (this0 := TreeSet.mkTreeSet (with_valuePolicy KeyOnlyPolicy (Tree_new cmp))).
  assert (Hreach0 : reachable true (TreeSet.__t this0)) by by apply reach_empty.
  destruct (add_all_spec knull ks this0 Hreach0) as (this & l0 & l & Heq & _).
  by exists this.
Qed.

(** C9: with [undefined] (no argument) or [null], the constructor throws
    nothing and returns an empty set, of size 0; it throws for no argument
    but one that is neither of them and is not iterable. *)
Theorem constructor_no_argument {K : Type} (knull : K) (cmp : K → K → comparison) :
  (∃ this, TreeSet.constructor knull cmp ArgUndefined = Ok this ∧
           TreeSet.size this = 0 ∧ TreeSet.iterate this = Ok []) ∧
  (∃ this, TreeSet.constructor knull cmp ArgNull = Ok this ∧
           TreeSet.size this = 0 ∧ TreeSet.iterate this = Ok []) ∧
  ∀ a e, TreeSet.constructor knull cmp a = Throw e → a = ArgNotIterable.
Proof.
  split_and!.
  - by eexists.
  - by eexists.
  - intros [| |ks|] e; simpl; try done.
    destruct (constructor_succeeds knull cmp ks) as (this & Heq).
    simpl in Heq. by rewrite Heq.
Qed.

(** C10: [grandparent()], [sibling()] and [uncle()] return [null] for a
    node without a parent, and [uncle()] also for one without a
    grandparent; otherwise they return the parent of the parent, the other
    child of the parent, and the other child of the grandparent. *)
Theorem navigation_total {K V : Type} (h : gmap positive (TreeNode K V))
    (this : positive) (n : TreeNode K V) :
  h !! this = Some n →
  match parent n with
  | None =>
      grandparent h this = Ok null ∧ sibling h this = Ok null ∧
      uncle h this = Ok null
  | Some p =>
      ∀ pn, h !! p = Some pn →
        grandparent h this = Ok (parent pn) ∧
        sibling h this
        = Ok (if decide (Some this = left pn) then right pn else left pn) ∧
        match parent pn with
        | None => uncle h this = Ok null
        | Some g =>
            ∀ gn, h !! g = Some gn →
              uncle h this
              = Ok (if decide (Some p = left gn) then right gn else left gn)
        end
  end.
Proof.
  intros Hn. unfold grandparent, sibling, uncle, node. rewrite Hn. simpl.
  destruct (parent n) as [p|] eqn:Hp; [|done].
  intros pn Hpn. rewrite Hpn. simpl. split_and!; [done|by destruct (decide _)|].
  destruct (parent pn) as [g|] eqn:Hg; [|done].
  intros gn Hgn. rewrite ?Hpn, ?Hg, ?Hgn; simpl; rewrite ?Hg, ?Hgn. simpl. unfold sibling, node. rewrite Hpn. simpl. rewrite Hg, Hgn. simpl. by destruct (decide _).
Qed.

Lemma navigation_total_witness :
  grandparent family 4 = Ok (Some 1%positive) ∧
  sibling family 4 = Ok null ∧
  uncle family 4 = Ok (Some 3%positive).
Proof.
  pose proof (navigation_total family 4
                (mkTreeNode null null (Some 2%positive) 3%Z None RED) eq_refl
                (mkTreeNode (Some 4%positive) null (Some 1%positive) 5%Z None BLACK)
                eq_refl) as (Hg & Hs & Hu).
  split_and!; [exact Hg|exact Hs|].
  exact (Hu (mkTreeNode (Some 2%positive) (Some 3%positive) null 10%Z None BLACK) eq_refl).
Defined.

(** * Further properties of [TreeSet] and [TreeNode] *)

Section SetLemmas.
Context {K : Type}.
Implicit Types (this : @TreeSet.TreeSet K) (st : tree K ()) (k : K) (t : Tree K ()).

Lemma insertOrReplace_insert_key (knull : K) this k :
  TreeSet.insertOrReplace knull this k
  = ('(t, res) ← insert_key INSERT_REPLACE (TreeSet.__t this) k None;
     Ok (TreeSet.mkTreeSet t, res)).
Proof. unfold TreeSet.insertOrReplace. by rewrite new_node_eq. Qed.

Lemma has_true_present t st k :
  Shape t st → TreeSet.has (TreeSet.mkTreeSet t) k = Ok true →
  present (compare t) k (keys st).
Proof.
  intros HS. unfold TreeSet.has. simpl.
  destruct (find_spec t st k HS) as ([[y|]] & -> & Hpost); simpl; [|done]. intros _.
  destruct (find_post_node _ _ _ _ Hpost) as (c & col & l & ky & v & r & -> & Hky).
  unfold present. rewrite keys_plug_node, Exists_app, Exists_cons. tauto.
Qed.

Lemma has_total t st k :
  valid_compare (compare t) → Shape t st → nondecreasing (compare t) (keys st) →
  ∃ b, TreeSet.has (TreeSet.mkTreeSet t) k = Ok b ∧
       (b = true ↔ present (compare t) k (keys st)).
Proof.
  intros Hcmp HS Hnd. unfold TreeSet.has. simpl.
  destruct (find_spec t st k HS) as ([[y|]] & Heq & Hpost); rewrite Heq; simpl.
  - exists true. split; [done|]. split; [intros _|done].
    apply (has_true_present t st k HS). unfold TreeSet.has. simpl. by rewrite Heq.
  - exists false. split; [done|]. split; [done|]. intros Hk.
    by destruct (find_post_end _ _ _ Hcmp Hnd Hpost).
Qed.

(** An insertion of a key into a set, but for [insertMulti]. *)
Lemma set_insert_spec mode t st k :
  mode ≠ INSERT_MULTI →
  valid_compare (compare t) → Shape t st → sorted true (compare t) (keys st) →
  ∃ t' res st' b,
    insert_key mode t k None = Ok (t', res) ∧
    TreeSet.has (TreeSet.mkTreeSet t) k = Ok b ∧ wasInserted res = negb b ∧
    compare t' = compare t ∧ Shape t' st' ∧
    sorted true (compare t) (keys st') ∧
    present (compare t) k (keys st') ∧
    size t' = size t + (if b then 0 else 1) ∧
    (if b then keys st' = keys st
     else ∃ pre post, keys st = pre ++ post ∧ keys st' = pre ++ k :: post).
Proof.
  intros Hmode Hcmp HS Hsorted.
  pose proof (fresh_lookup t) as Hn.
  destruct (insert_new_spec true mode t st _ k None HS Hn)
    as (t' & res & Heq & Hc & Hcases).
  unfold insert_key. rewrite Heq.
  destruct Hcases as [(-> & Hsz & st' & pre & post & HS' & Hel & Hel' & Hord)
    |(y & ky & -> & _ & Ht & Hsz & st' & HS' & Hel & Hin & Hk)].
  - destruct (Hord Hcmp Hsorted) as [Hsorted' Habs]; [done|].
    exists t', (mkInsertionResult true (mkIterator (Some (fresh (dom (nodes t)))))),
      st', false.
    split_and!; try done.
    + by apply (has_absent (TreeSet.mkTreeSet t) st); [|apply Habs].
    + unfold present. rewrite keys_elems, Hel', fmap_app, fmap_cons, Exists_app, Exists_cons.
      right. left. by apply cmp_refl.
    + lia.
    + exists pre.*2, post.*2. by rewrite !keys_elems, Hel, Hel', !fmap_app, fmap_cons.
  - exists t', (mkInsertionResult false (mkIterator (Some y))), st', true.
    assert (Hpres : present (compare t) k (keys st)) by by eapply present_elem.
    split_and!; try done.
    + apply (has_present (TreeSet.mkTreeSet t) st); try done.
      by apply (sorted_nondecreasing true).
    + by rewrite keys_elems, Hel, <-keys_elems.
    + by rewrite keys_elems, Hel, <-keys_elems.
    + lia.
    + by rewrite keys_elems, Hel, <-keys_elems.
Qed.

Lemma present_insert (cmp : K → K → comparison) k k' (pre post : list K) :
  present cmp k' (pre ++ post) → present cmp k' (pre ++ k :: post).
Proof.
  apply present_mono. intros x. rewrite !elem_of_app, elem_of_cons. tauto.
Qed.

(** What the claims say of a reachable set, unfolded. *)
Lemma set_state this :
  valid_compare (compare (TreeSet.__t this)) → reachable true (TreeSet.__t this) →
  ∃ st, Shape (TreeSet.__t this) st ∧
        increasing (compare (TreeSet.__t this)) (keys st) ∧
        TreeSet.iterate this = Ok (keys st).
Proof.
  intros Hcmp Hreach.
  destruct (Inv_Shape _ _ (reachable_Inv _ _ Hreach)) as (st & HS & _ & Hl & Hsorted).
  exists st. split_and!; [done|by apply Hsorted|done].
Qed.

(** An insertion into a reachable set, seen through its operations. *)
Lemma set_insert_reachable mode this k l :
  mode ≠ INSERT_MULTI →
  valid_compare (compare (TreeSet.__t this)) → reachable true (TreeSet.__t this) →
  TreeSet.iterate this = Ok l →
  ∃ t' res b l',
    insert_key mode (TreeSet.__t this) k None = Ok (t', res) ∧
    reachable true t' ∧ compare t' = compare (TreeSet.__t this) ∧
    TreeSet.has this k = Ok b ∧ wasInserted res = negb b ∧
    TreeSet.has (TreeSet.mkTreeSet t') k = Ok true ∧
    size t' = TreeSet.size this + (if b then 0 else 1) ∧
    toList t' = Ok l' ∧
    (if b then l' = l else ∃ pre post, l = pre ++ post ∧ l' = pre ++ k :: post) ∧
    (∀ k', TreeSet.has this k' = Ok true → TreeSet.has (TreeSet.mkTreeSet t') k' = Ok true).
Proof.
  intros Hmode Hcmp Hreach Hl. destruct this as [t]. simpl in *.
  destruct (set_state (TreeSet.mkTreeSet t) Hcmp Hreach) as (st & HS & Hinc & Hl').
  rewrite Hl' in Hl. injection Hl as <-.
  destruct (set_insert_spec mode t st k Hmode Hcmp HS Hinc)
    as (t' & res & st' & b & Heq & Hhas & Hres & Hc & HS' & Hinc' & Hpres & Hsz & Hkeys).
  assert (Hnd' : nondecreasing (compare t') (keys st')).
  { rewrite Hc. by apply (sorted_nondecreasing true). }
  exists t', res, b, (keys st'). split_and!; try done.
  - by eapply reachable_insert_key.
  - apply (has_present (TreeSet.mkTreeSet t') st'); simpl; try done; by rewrite Hc.
  - by apply Shape_toList.
  - intros k' Hk'. apply (has_true_present t st k' HS) in Hk'.
    apply (has_present (TreeSet.mkTreeSet t') st'); simpl; try done; rewrite Hc; [done|].
    destruct b.
    + by rewrite Hkeys.
    + destruct Hkeys as (pre & post & Hst & ->). rewrite Hst in Hk'.
      by apply present_insert.
Qed.

End SetLemmas.

(** X1: on a set with a proper comparator, [has(k)] throws nothing and is
    true exactly when a key of the traversal compares equal to [k]. *)
Theorem has_is_membership {K : Type} (this : TreeSet.TreeSet) (k : K) l :
  valid_compare (compare (TreeSet.__t this)) → reachable true (TreeSet.__t this) →
  TreeSet.iterate this = Ok l →
  ∃ b, TreeSet.has this k = Ok b ∧
       (b = true ↔ present (compare (TreeSet.__t this)) k l).
Proof.
  intros Hcmp Hreach Hl. destruct this as [t]. simpl in *.
  destruct (set_state (TreeSet.mkTreeSet t) Hcmp Hreach) as (st & HS & Hinc & Hl').
  rewrite Hl' in Hl. injection Hl as <-.
  apply has_total; try done. by apply increasing_nondecreasing.
Qed.

Lemma has_is_membership_witness :
  ∃ this, zset (ArgIterable [5; 1; 3; 2; 4]%Z) = Ok this ∧
          TreeSet.has this 3%Z = Ok true ∧ TreeSet.has this 7%Z = Ok false.
Proof.
  assert (∃ this, zset (ArgIterable [5; 1; 3; 2; 4]%Z) = Ok this ∧
                  TreeSet.iterate this = Ok [1; 2; 3; 4; 5]%Z)
    as (this & E & Hl) by (eexists; split_and!; vm_compute; reflexivity).
  destruct (constructor_reachable _ _ _ _ E) as [Hreach Hc].
  assert (Hcmp : valid_compare (compare (TreeSet.__t this)))
    by (rewrite Hc; apply Z_compare_valid).
  destruct (has_is_membership this 3%Z _ Hcmp Hreach Hl) as (b3 & H3 & Hiff3).
  destruct (has_is_membership this 7%Z _ Hcmp Hreach Hl) as (b7 & H7 & Hiff7).
  rewrite Hc in Hiff3, Hiff7. unfold present in Hiff3, Hiff7.
  exists this. clear Hl Hreach. split_and!; [assumption| |].
  - rewrite H3. f_equal. apply Hiff3. rewrite !Exists_cons. right. right. by left.
  - rewrite H7. f_equal. destruct b7; [|done]. exfalso.
    destruct Hiff7 as [H _]. specialize (H eq_refl).
    rewrite !Exists_cons, Exists_nil in H. simpl in H.
    destruct H as [?|[?|[?|[?|[?|[]]]]]]; discriminate.
Defined.

(** X2: on a set with a proper comparator, [add(k)] throws nothing; after
    it [has(k)] is true and every key that [has] found is still found; the
    size grows by one and [k] enters the traversal at one place when
    [has(k)] was false, and nothing changes when it was true. *)
Theorem add_then_has {K : Type} (knull : K) (this : TreeSet.TreeSet) (k : K) l :
  valid_compare (compare (TreeSet.__t this)) → reachable true (TreeSet.__t this) →
  TreeSet.iterate this = Ok l →
  ∃ this' b l',
    TreeSet.has this k = Ok b ∧
    TreeSet.add knull this k = Ok this' ∧
    reachable true (TreeSet.__t this') ∧
    TreeSet.has this' k = Ok true ∧
    TreeSet.size this' = TreeSet.size this + (if b then 0 else 1) ∧
    TreeSet.iterate this' = Ok l' ∧
    (if b then l' = l else ∃ pre post, l = pre ++ post ∧ l' = pre ++ k :: post) ∧
    (∀ k', TreeSet.has this k' = Ok true → TreeSet.has this' k' = Ok true).
Proof.
  intros Hcmp Hreach Hl.
  destruct (set_insert_reachable INSERT_UNIQUE this k l ltac:(done) Hcmp Hreach Hl)
    as (t' & res & b & l' & Heq & Hreach' & _ & Hhas & _ & Hhas' & Hsz & Hl' & Hrel & Hkeep).
  exists (TreeSet.mkTreeSet t'), b, l'. rewrite add_insert_key, Heq. by split_and!.
Qed.

Lemma add_then_has_witness :
  ∃ this this',
    zset (ArgIterable [5; 1; 3]%Z) = Ok this ∧
    TreeSet.add 0%Z this 2%Z = Ok this' ∧
    TreeSet.has this' 2%Z = Ok true ∧ TreeSet.size this' = 4.
Proof.
  assert (∃ this, zset (ArgIterable [5; 1; 3]%Z) = Ok this ∧
                  TreeSet.iterate this = Ok [1; 3; 5]%Z ∧
                  TreeSet.has this 2%Z = Ok false ∧ TreeSet.size this = 3)
    as (this & E & Hl & Hno & Hsize) by (eexists; split_and!; vm_compute; reflexivity).
  destruct (constructor_reachable _ _ _ _ E) as [Hreach Hc].
  assert (Hcmp : valid_compare (compare (TreeSet.__t this)))
    by (rewrite Hc; apply Z_compare_valid).
  destruct (add_then_has 0%Z this 2%Z _ Hcmp Hreach Hl)
    as (this' & b & l' & Hb & Hadd & _ & Hhas & Hsz & _).
  rewrite Hno in Hb. injection Hb as <-. rewrite Hsize in Hsz.
  exists this, this'. clear Hl Hreach Hno. split_and!; assumption.
Defined.

(** X3: on a set with a proper comparator, [insertOrReplace(k)] throws
    nothing and acts as an insertion without duplicates: [wasInserted] is
    the negation of what [has(k)] was; the size grows by one and [k] enters
    the traversal at one place when [has(k)] was false, and the traversal
    and the size are unchanged when it was true. *)
Theorem insertOrReplace_on_set {K : Type} (knull : K) (this : TreeSet.TreeSet) (k : K) l :
  valid_compare (compare (TreeSet.__t this)) → reachable true (TreeSet.__t this) →
  TreeSet.iterate this = Ok l →
  ∃ this' res b l',
    TreeSet.has this k = Ok b ∧
    TreeSet.insertOrReplace knull this k = Ok (this', res) ∧
    wasInserted res = negb b ∧
    reachable true (TreeSet.__t this') ∧
    TreeSet.has this' k = Ok true ∧
    TreeSet.size this' = TreeSet.size this + (if b then 0 else 1) ∧
    TreeSet.iterate this' = Ok l' ∧
    (if b then l' = l else ∃ pre post, l = pre ++ post ∧ l' = pre ++ k :: post).
Proof.
  intros Hcmp Hreach Hl.
  destruct (set_insert_reachable INSERT_REPLACE this k l ltac:(done) Hcmp Hreach Hl)
    as (t' & res & b & l' & Heq & Hreach' & _ & Hhas & Hres & Hhas' & Hsz & Hl' & Hrel & _).
  exists (TreeSet.mkTreeSet t'), res, b, l'.
  rewrite insertOrReplace_insert_key, Heq. by split_and!.
Qed.

Lemma insertOrReplace_on_set_witness :
  ∃ this this' res,
    zset (ArgIterable [5; 1; 3]%Z) = Ok this ∧
    TreeSet.insertOrReplace 0%Z this 3%Z = Ok (this', res) ∧
    wasInserted res = false ∧ TreeSet.size this' = 3 ∧
    TreeSet.iterate this' = Ok [1; 3; 5]%Z.
Proof.
  assert (∃ this, zset (ArgIterable [5; 1; 3]%Z) = Ok this ∧
                  TreeSet.iterate this = Ok [1; 3; 5]%Z ∧
                  TreeSet.has this 3%Z = Ok true ∧ TreeSet.size this = 3)
    as (this & E & Hl & Hyes & Hsize) by (eexists; split_and!; vm_compute; reflexivity).
  destruct (constructor_reachable _ _ _ _ E) as [Hreach Hc].
  assert (Hcmp : valid_compare (compare (TreeSet.__t this)))
    by (rewrite Hc; apply Z_compare_valid).
  destruct (insertOrReplace_on_set 0%Z this 3%Z _ Hcmp Hreach Hl)
    as (this' & res & b & l' & Hb & Heq & Hres & _ & _ & Hsz & Hl' & Hrel).
  rewrite Hyes in Hb. injection Hb as <-. rewrite Hsize in Hsz. simpl in *. subst l'.
  exists this, this', res. clear Hl Hreach Hyes. split_and!; assumption.
Defined.

Section EraseLemmas.
Context {K V : Type}.
Implicit Types (s l r : tree K V) (c : ctx K V) (t : Tree K V) (x y n : positive).

Lemma filter_fst_ne (es : list (positive * K)) y :
  y ∉ es.*1 → filter (λ e, e.1 ≠ y) es = es.
Proof.
  induction es as [|[x k] es IH]; simpl; [done|].
  rewrite not_elem_of_cons. intros [Hne Hnin].
  rewrite filter_cons_True by (simpl; congruence). by rewrite IH.
Qed.

(** Erasing a node of the tree takes this node, and no other, out of the
    traversal. *)
Lemma erase_node_spec u t y :
  reachable u t → in_tree t y →
  ∃ t' es,
    erase t (Some y) = Ok t' ∧ reachable u t' ∧ compare t' = compare t ∧
    entries t = Ok es ∧ entries t' = Ok (filter (λ e, e.1 ≠ y) es) ∧
    S (size t') = size t.
Proof.
  intros Hreach Hin.
  destruct (reachable_Inv _ _ Hreach) as (s & HS & _).
  pose proof Hin as Hids. apply (in_tree_ids _ _ _ HS) in Hids.
  destruct (focus_id _ _ Hids) as (c & cn & l & kn & vn & r & ->).
  destruct (erase_spec _ _ _ _ _ _ _ _ HS) as (t' & s' & Heq & HS' & Hel & Hc & _ & Hsz).
  exists t', (elems (plug (Node cn l y kn vn r) c)).
  pose proof HS as ((_ & _ & Hnd) & _ & _ & Hsize).
  rewrite ids_elems, elems_plug in Hnd. simpl in Hnd.
  rewrite !fmap_app, fmap_cons in Hnd. simpl in Hnd.
  apply NoDup_app in Hnd as (_ & Hpre & Hnd).
  apply NoDup_app in Hnd as (Hmid & Hpost & _).
  apply NoDup_app in Hmid as (_ & Hl & Hyr).
  apply NoDup_cons in Hyr as (Hr & _).
  assert (Hbefore : y ∉ (ctx_before c).*1).
  { intros Hy. apply (Hpre _ Hy). rewrite !elem_of_app, elem_of_cons. tauto. }
  assert (Hleft : y ∉ (elems l).*1).
  { intros Hy. apply (Hl _ Hy). by left. }
  assert (Hafter : y ∉ (ctx_after c).*1).
  { apply Hpost. rewrite elem_of_app, elem_of_cons. tauto. }
  split_and!; try done.
  - by eapply reach_erase.
  - by apply Shape_entries.
  - rewrite (Shape_entries _ _ HS'), Hel, elems_plug. simpl.
    rewrite !filter_app, filter_cons_False by (simpl; tauto).
    by rewrite !filter_fst_ne.
  - rewrite Hsz, Hsize, length_elems_plug. simpl. rewrite length_app. simpl. lia.
Qed.

End EraseLemmas.

(** X4: on a set with a proper comparator that holds a key equal to [k]
    ([has(k)] is true), [delete(k)] throws nothing, takes out of the
    traversal one key, equal to [k], and nothing else, decrements the size,
    and [has(k)] is false afterwards. *)
Theorem delete_present {K : Type} (this : TreeSet.TreeSet) (k : K) l :
  valid_compare (compare (TreeSet.__t this)) → reachable true (TreeSet.__t this) →
  TreeSet.iterate this = Ok l → TreeSet.has this k = Ok true →
  ∃ this' pre ky post,
    TreeSet.delete this k = Ok this' ∧
    reachable true (TreeSet.__t this') ∧
    l = pre ++ ky :: post ∧ compare (TreeSet.__t this) k ky = Eq ∧
    TreeSet.iterate this' = Ok (pre ++ post) ∧
    S (TreeSet.size this') = TreeSet.size this ∧
    TreeSet.has this' k = Ok false.
Proof.
  intros Hcmp Hreach Hl Hhas. destruct this as [t]. simpl in *.
  destruct (Inv_Shape _ _ (reachable_Inv _ _ Hreach)) as (st & HS & Hes & Hl' & _).
  unfold TreeSet.iterate in Hl. simpl in Hl. rewrite Hl' in Hl. injection Hl as <-.
  pose proof (has_true_present t st k HS Hhas) as Hk. rewrite keys_elems in Hk.
  destruct (erase_find_spec true t k _ Hcmp Hreach Hes Hk)
    as (y & ky & pre & post & t' & Hfind & Hsplit & Hky & Herase & Hreach' & Hes' & Hsz & Hend).
  exists (TreeSet.mkTreeSet t'), pre.*2, ky, post.*2.
  unfold TreeSet.delete, TreeSet.has, TreeSet.iterate, TreeSet.size, toList. simpl.
  rewrite Hfind. simpl. rewrite Herase, Hes', (Hend eq_refl). simpl.
  split_and!; try done.
  - by rewrite keys_elems, Hsplit, fmap_app, fmap_cons.
  - by rewrite fmap_app.
Qed.

Lemma delete_present_witness :
  ∃ this this',
    zset (ArgIterable [5; 1; 3; 2; 4]%Z) = Ok this ∧
    TreeSet.delete this 3%Z = Ok this' ∧
    TreeSet.has this' 3%Z = Ok false ∧ S (TreeSet.size this') = 5.
Proof.
  assert (∃ this, zset (ArgIterable [5; 1; 3; 2; 4]%Z) = Ok this ∧
                  TreeSet.iterate this = Ok [1; 2; 3; 4; 5]%Z ∧
                  TreeSet.has this 3%Z = Ok true ∧ TreeSet.size this = 5)
    as (this & E & Hl & Hyes & Hsize) by (eexists; split_and!; vm_compute; reflexivity).
  destruct (constructor_reachable _ _ _ _ E) as [Hreach Hc].
  assert (Hcmp : valid_compare (compare (TreeSet.__t this)))
    by (rewrite Hc; apply Z_compare_valid).
  destruct (delete_present this 3%Z _ Hcmp Hreach Hl Hyes)
    as (this' & pre & ky & post & Hdel & _ & _ & _ & _ & Hsz & Hno).
  rewrite Hsize in Hsz.
  exists this, this'. clear Hl Hreach Hyes. split_and!; assumption.
Defined.

(** X5: in every state of a set, whatever the comparator, the traversal
    throws nothing and yields as many keys as [size] says. *)
Theorem size_counts_keys {K : Type} (this : @TreeSet.TreeSet K) :
  reachable true (TreeSet.__t this) →
  ∃ l, TreeSet.iterate this = Ok l ∧ length l = TreeSet.size this.
Proof.
  intros Hreach.
  destruct (Inv_Shape _ _ (reachable_Inv _ _ Hreach)) as (st & HS & _ & Hl & _).
  exists (keys st). split; [done|]. destruct HS as (_ & _ & _ & Hsz).
  unfold TreeSet.size. by rewrite Hsz, keys_elems, length_fmap.
Qed.

Lemma size_counts_keys_witness :
  ∃ this l, zset (ArgIterable [3; 1; 3; 2; 1]%Z) = Ok this ∧
            TreeSet.iterate this = Ok l ∧ length l = TreeSet.size this.
Proof.
  destruct (zset (ArgIterable [3; 1; 3; 2; 1]%Z)) as [this|e] eqn:E;
    [|by vm_compute in E].
  destruct (constructor_reachable _ _ _ _ E) as [Hreach _].
  destruct (size_counts_keys this Hreach) as (l & Hl & Hlen).
  exists this, l. clear E Hreach. split_and!; [reflexivity|assumption..].
Defined.

(** X6: with a proper comparator, the constructor makes of an iterable a
    set whose traversal is strictly increasing, holds keys of the iterable
    only, and holds for each element of the iterable a key equal to it;
    its size is the number of keys traversed. *)
Theorem constructor_sorts {K : Type} (knull : K) (cmp : K → K → comparison) ks :
  valid_compare cmp →
  ∃ this l,
    TreeSet.constructor knull cmp (ArgIterable ks) = Ok this ∧
    TreeSet.iterate this = Ok l ∧ increasing cmp l ∧
    (∀ k, k ∈ l → k ∈ ks) ∧ (∀ k, k ∈ ks → present cmp k l) ∧
    length l = TreeSet.size this.
Proof.
  intros Hcmp.
  set (this0 := TreeSet.mkTreeSet (with_valuePolicy KeyOnlyPolicy (Tree_new cmp))).
  assert (Hreach0 : reachable true (TreeSet.__t this0)) by by apply reach_empty.
  destruct (add_all_spec knull ks this0 Hreach0)
    as (this & l0 & l & Heq & Hreach & Hc & Hl0 & Hl & Hsub & _ & Hpres).
  injection Hl0 as <-. simpl in Hc.
  assert (Hcmp' : valid_compare (compare (TreeSet.__t this))) by by rewrite Hc.
  destruct (set_state this Hcmp' Hreach) as (st & HS & Hinc & Hl').
  rewrite Hl' in Hl. injection Hl as <-. rewrite Hc in Hinc.
  exists this, (keys st). split_and!; try done.
  - intros k Hk. destruct (Hsub k Hk) as [?%elem_of_nil|?]; done.
  - by apply Hpres.
  - destruct HS as (_ & _ & _ & Hsz). unfold TreeSet.size. rewrite Hsz.
    by rewrite keys_elems, length_fmap.
Qed.

Lemma constructor_sorts_witness :
  ∃ this, zset (ArgIterable [3; 1; 3; 2; 1]%Z) = Ok this ∧
          TreeSet.iterate this = Ok [1; 2; 3]%Z ∧
          increasing Z.compare [1; 2; 3]%Z.
Proof.
  assert (∃ this, zset (ArgIterable [3; 1; 3; 2; 1]%Z) = Ok this ∧
                  TreeSet.iterate this = Ok [1; 2; 3]%Z)
    as (this0 & E & Hl0) by (eexists; split_and!; vm_compute; reflexivity).
  destruct (constructor_sorts 0%Z Z.compare [3; 1; 3; 2; 1]%Z Z_compare_valid)
    as (this & l & Heq & Hl & Hinc & _).
  unfold zset in E. rewrite E in Heq. injection Heq as <-.
  rewrite Hl0 in Hl. injection Hl as <-.
  exists this0. split_and!; [exact E|exact Hl0|exact Hinc].
Defined.

(** X7: [erase(iterator)] with a cursor on a node of the set throws
    nothing, takes this node, and no other, out of the traversal, and
    decrements the size, whatever the comparator. *)
Theorem erase_cursor {K : Type} (this : @TreeSet.TreeSet K) (y : positive) :
  reachable true (TreeSet.__t this) → in_tree (TreeSet.__t this) y →
  ∃ this' es,
    TreeSet.erase this (mkIterator (Some y)) = Ok this' ∧
    reachable true (TreeSet.__t this') ∧
    entries (TreeSet.__t this) = Ok es ∧
    entries (TreeSet.__t this') = Ok (filter (λ e, e.1 ≠ y) es) ∧
    TreeSet.iterate this' = Ok (filter (λ e, e.1 ≠ y) es).*2 ∧
    S (TreeSet.size this') = TreeSet.size this.
Proof.
  intros Hreach Hin.
  destruct (erase_node_spec true _ y Hreach Hin)
    as (t' & es & Heq & Hreach' & _ & Hes & Hes' & Hsz).
  exists (TreeSet.mkTreeSet t'), es.
  unfold TreeSet.erase, TreeSet.iterate, toList. simpl. rewrite Heq. simpl.
  rewrite Hes'. by split_and!.
Qed.

Lemma erase_cursor_witness :
  ∃ this b this',
    zset (ArgIterable [5; 1; 3; 2; 4]%Z) = Ok this ∧
    TreeSet.begin this = Ok b ∧ TreeSet.erase this b = Ok this' ∧
    TreeSet.iterate this' = Ok [2; 3; 4; 5]%Z.
Proof.
  assert (∃ this, zset (ArgIterable [5; 1; 3; 2; 4]%Z) = Ok this ∧
                  TreeSet.begin this = Ok (mkIterator (Some 2%positive)) ∧
                  entries (TreeSet.__t this)
                  = Ok [(2%positive, 1%Z); (4%positive, 2%Z); (3%positive, 3%Z);
                        (5%positive, 4%Z); (1%positive, 5%Z)])
    as (this & E & Hb & Hes) by (eexists; split_and!; vm_compute; reflexivity).
  destruct (constructor_reachable _ _ _ _ E) as [Hreach _].
  assert (Hin : in_tree (TreeSet.__t this) 2).
  { eexists. split; [exact Hes|]. simpl. rewrite !elem_of_cons. tauto. }
  destruct (erase_cursor this 2 Hreach Hin) as (this' & es & Heq & _ & Hes0 & _ & Hl & _).
  rewrite Hes in Hes0. injection Hes0 as <-.
  exists this, (mkIterator (Some 2%positive)), this'.
  clear Hes Hreach Hin. split_and!; assumption.
Defined.

Lemma foldl_collect {A B : Type} (f : A → B) (l : list A) : ∀ acc : list B,
  foldl (λ a k, a ++ [f k]) acc l = acc ++ (f <$> l).
Proof.
  induction l as [|k l IH]; intros acc; simpl; [by rewrite app_nil_r|].
  by rewrite IH, <-app_assoc.
Qed.

(** X8: in every state of a set, [forEach(callback)] throws nothing of
    its own and calls the callback once for each key of the traversal, in
    the order of the traversal, [size] times in all, with the key as its
    first and second argument and the set as its third. *)
Theorem forEach_visits {K : Type} (this : @TreeSet.TreeSet K) :
  reachable true (TreeSet.__t this) →
  ∃ l, TreeSet.iterate this = Ok l ∧ length l = TreeSet.size this ∧
       TreeSet.forEach this (λ v k s calls, calls ++ [(v, k, s)]) []
       = Ok ((λ k, (k, k, this)) <$> l).
Proof.
  intros Hreach.
  destruct (Inv_Shape _ _ (reachable_Inv _ _ Hreach)) as (st & HS & _ & Hl & _).
  exists (keys st). split_and!; [done| |].
  - destruct HS as (_ & _ & _ & Hsz).
    unfold TreeSet.size. by rewrite Hsz, keys_elems, length_fmap.
  - unfold TreeSet.forEach. rewrite Hl. simpl. f_equal.
    apply (foldl_collect (λ k, (k, k, this)) (keys st) []).
Qed.

Lemma forEach_visits_witness :
  ∃ this, zset (ArgIterable [2; 1]%Z) = Ok this ∧
          TreeSet.forEach this (λ v k s calls, calls ++ [(v, k, s)]) []
          = Ok [(1%Z, 1%Z, this); (2%Z, 2%Z, this)].
Proof.
  assert (∃ this, zset (ArgIterable [2; 1]%Z) = Ok this ∧
                  TreeSet.iterate this = Ok [1; 2]%Z)
    as (this & E & Hl) by (eexists; split_and!; vm_compute; reflexivity).
  destruct (constructor_reachable _ _ _ _ E) as [Hreach _].
  destruct (forEach_visits this Hreach) as (l & Hl' & _ & Hf).
  rewrite Hl in Hl'. injection Hl' as <-.
  exists this. clear Hl Hreach. split_and!; assumption.
Defined.

(** X9: [sibling()] is its own inverse between the two children of a
    node: when [sibling()] of a child [x] of [p] is another node [s] whose
    parent is [p] too, [sibling()] of [s] is [x]. *)
Theorem sibling_involutive {K V : Type} (h : gmap positive (TreeNode K V))
    (x s p : positive) (nx ns pn : TreeNode K V) :
  h !! x = Some nx → parent nx = Some p → h !! p = Some pn →
  left pn = Some x ∨ right pn = Some x →
  sibling h x = Ok (Some s) → s ≠ x →
  h !! s = Some ns → parent ns = Some p →
  sibling h s = Ok (Some x).
Proof.
  intros Hx Hpx Hp Hchild Hsib Hne Hs Hps.
  unfold sibling, node in *. rewrite Hx in Hsib. rewrite Hs. simpl in *.
  rewrite Hpx in Hsib. rewrite Hps. rewrite Hp in *. simpl in *.
  destruct (decide (Some x = left pn)) as [Hl|Hl].
  - injection Hsib as Hr. rewrite decide_False; [by rewrite Hl|].
    rewrite <-Hl. congruence.
  - injection Hsib as Hl'. rewrite decide_True by done.
    destruct Hchild as [Hc|Hc]; [congruence|by rewrite Hc].
Qed.

Lemma sibling_involutive_witness :
  sibling family 2 = Ok (Some 3%positive) ∧ sibling family 3 = Ok (Some 2%positive).
Proof.
  split; [reflexivity|].
  apply (sibling_involutive family 2 3 1
           (mkTreeNode (Some 4%positive) null (Some 1%positive) 5%Z None BLACK)
           (mkTreeNode null null (Some 1%positive) 15%Z None BLACK)
           (mkTreeNode (Some 2%positive) (Some 3%positive) null 10%Z None BLACK));
    try reflexivity; [by left|discriminate].
Defined.

Section Navigation.
Context {K V : Type}.
Implicit Types (s l r : tree K V) (c : ctx K V) (t : Tree K V) (x y n : positive).

Lemma ref_of_ids s y : ref_of s = Some y → y ∈ ids s.
Proof.
  destruct s as [|col l x k v r]; simpl; [done|]. intros [= ->].
  rewrite elem_of_app, elem_of_cons. tauto.
Qed.

(** The helpers of a node under the context [c]: its sibling is the other
    subtree of its parent, its uncle the other subtree of its
    grandparent. *)
Lemma navigation_at t c (col : Color) l x (k : K) (v : option V) r :
  Rep_at t c (Node col l x k v r) →
  match c with
  | [] =>
      grandparent (nodes t) x = Ok null ∧ sibling (nodes t) x = Ok null ∧
      uncle (nodes t) x = Ok null
  | [Frame _ _ p _ _ sib] =>
      grandparent (nodes t) x = Ok null ∧ sibling (nodes t) x = Ok (ref_of sib) ∧
      uncle (nodes t) x = Ok null ∧ ref_of sib ≠ Some x
  | Frame _ _ p _ _ sib :: Frame _ _ g _ _ sib' :: _ =>
      grandparent (nodes t) x = Ok (Some g) ∧ sibling (nodes t) x = Ok (ref_of sib) ∧
      uncle (nodes t) x = Ok (ref_of sib') ∧ ref_of sib ≠ Some x
  end.
Proof.
  intros ((Hx & _ & _) & Hctx & Hnd).
  destruct c as [|[d1 c1 p k1 v1 sib1] c']; [simpl in Hx; by hsimpl|].
  destruct Hctx as (Hp & _ & Hctx'). simpl in Hx, Hp.
  assert (Hne1 : ref_of sib1 ≠ Some x).
  { apply ref_of_ne. nd. }
  destruct c' as [|[d2 c2 g k2 v2 sib2] c''].
  - simpl in Hp. destruct d1; hsimpl; split_and!; done.
  - destruct Hctx' as (Hg & _ & _). simpl in Hp, Hg.
    assert (Hne2 : ref_of sib2 ≠ Some p).
    { apply ref_of_ne. nd. }
    destruct d1, d2; hsimpl; split_and!; try done;
      rewrite ?decide_False by done; hsimpl; rewrite ?decide_False by done; done.
Qed.

End Navigation.

(** X10: on every node of a tree that the operations have built,
    [grandparent()], [sibling()] and [uncle()] fail on no missing object;
    [sibling()] is never the node itself, a node without grandparent has
    no uncle, and the nodes they return are nodes of the tree. *)
Theorem navigation_in_tree {K V : Type} (u : bool) (t : Tree K V) (x : positive) :
  reachable u t → in_tree t x →
  ∃ g s un,
    grandparent (nodes t) x = Ok g ∧ sibling (nodes t) x = Ok s ∧
    uncle (nodes t) x = Ok un ∧
    s ≠ Some x ∧ (g = null → un = null) ∧
    (∀ y, g = Some y ∨ s = Some y ∨ un = Some y → in_tree t y).
Proof.
  intros Hreach Hin.
  destruct (reachable_Inv _ _ Hreach) as (st & HS & _).
  assert (Hmem : ∀ y, y ∈ ids st → in_tree t y).
  { intros y. apply (in_tree_ids _ _ _ HS). }
  apply (in_tree_ids _ _ _ HS) in Hin.
  destruct (focus_id _ _ Hin) as (c & cn & l & kn & vn & r & ->).
  assert (Hsub : ∀ y, y ∈ ctx_ids c → in_tree t y).
  { intros y Hy. apply Hmem. rewrite ids_plug, elem_of_app. by right. }
  destruct HS as (Hrep & _). apply Rep_at_plug in Hrep.
  pose proof (navigation_at _ _ _ _ _ _ _ _ Hrep) as Hnav.
  destruct c as [|[d1 c1 p k1 v1 sib1] [|[d2 c2 g k2 v2 sib2] c'']].
  - destruct Hnav as (Hg & Hs & Hu). exists null, null, null.
    split_and!; try done. by intros y [?|[?|?]].
  - destruct Hnav as (Hg & Hs & Hu & Hne). exists null, (ref_of sib1), null.
    split_and!; try done. intros y [?|[Hy|?]]; try done.
    apply Hsub. simpl. rewrite elem_of_cons, elem_of_app. right. left.
    by apply ref_of_ids.
  - destruct Hnav as (Hg & Hs & Hu & Hne). exists (Some g), (ref_of sib1), (ref_of sib2).
    split_and!; try done. intros y [[= <-]|[Hy|Hy]]; apply Hsub; simpl;
      rewrite !elem_of_cons, !elem_of_app, ?elem_of_cons, ?elem_of_app.
    + tauto.
    + right. left. by apply ref_of_ids.
    + right. right. right. left. by apply ref_of_ids.
Qed.

Lemma navigation_in_tree_witness :
  ∃ (t : Tree Z ()) g s un,
    insert_keys INSERT_UNIQUE (Tree_new Z.compare) [5; 1; 3; 2; 4]%Z = Ok t ∧
    grandparent (nodes t) 4 = Ok g ∧ sibling (nodes t) 4 = Ok s ∧
    uncle (nodes t) 4 = Ok un ∧ s ≠ Some 4%positive.
Proof.
  assert (∃ t : Tree Z (),
            insert_keys INSERT_UNIQUE (Tree_new Z.compare) [5; 1; 3; 2; 4]%Z = Ok t ∧
            entries t = Ok [(2%positive, 1%Z); (4%positive, 2%Z); (3%positive, 3%Z);
                            (5%positive, 4%Z); (1%positive, 5%Z)])
    as (t & E & Hes) by (eexists; split; vm_compute; reflexivity).
  assert (Hreach : reachable true t).
  { eapply (reachable_insert_keys true INSERT_UNIQUE); [| |exact E];
      [apply reachable_new|done]. }
  assert (Hin : in_tree t 4).
  { eexists. split; [exact Hes|]. simpl. rewrite !elem_of_cons. tauto. }
  destruct (navigation_in_tree true t 4 Hreach Hin) as (g & s & un & Hg & Hs & Hu & Hne & _).
  exists t, g, s, un. clear Hes Hreach Hin. split_and!; assumption.
Defined.

Lemma split_unique {A : Type} (P : A → Prop) : ∀ l1 l2 r1 r2 : list A,
  l1 ++ r1 = l2 ++ r2 →
  Forall P l1 → Forall (λ a, ¬ P a) r1 →
  Forall P l2 → Forall (λ a, ¬ P a) r2 →
  l1 = l2 ∧ r1 = r2.
Proof.
  induction l1 as [|a l1 IH]; intros [|b l2] r1 r2 Heq Hl1 Hr1 Hl2 Hr2; simpl in *.
  - done.
  - subst r1. apply Forall_cons in Hr1 as [Hb _]. apply Forall_cons in Hl2 as [Hb' _]. done.
  - subst r2. apply Forall_cons in Hr2 as [Ha _]. apply Forall_cons in Hl1 as [Ha' _]. done.
  - injection Heq as -> Heq.
    apply Forall_cons in Hl1 as [_ Hl1]. apply Forall_cons in Hl2 as [_ Hl2].
    destruct (IH l2 r1 r2 Heq Hl1 Hr1 Hl2 Hr2) as [-> ->]. done.
Qed.

Section Bounds.
Context {K V : Type}.
Implicit Types (s l r st : tree K V) (c : ctx K V) (t : Tree K V) (x y n : positive).

(** In a tree without equal keys, the two bounds of [k] are the same
    cursor unless a key equal to [k] is there; then the lower bound is on
    its node, where [find] is too. *)
Lemma bounds_find t st k :
  valid_compare (compare t) → Shape t st → increasing (compare t) (keys st) →
  ∃ lb ub f,
    lowerBound t k = Ok lb ∧ upperBound t k = Ok ub ∧ find t k = Ok f ∧
    (present (compare t) k (keys st) → f = lb ∧ f ≠ end_ t ∧ lb ≠ ub) ∧
    (¬ present (compare t) k (keys st) → f = end_ t ∧ lb = ub).
Proof.
  intros Hcmp HS Hinc.
  pose proof (increasing_nondecreasing _ _ Hinc) as Hnd.
  destruct (lowerBound_spec t st k Hcmp HS Hnd) as (pre1 & post1 & Hes1 & Hlb & Hpre1 & Hpost1).
  destruct (upperBound_spec t st k Hcmp HS Hnd) as (pre2 & post2 & Hes2 & Hub & Hpre2 & Hpost2).
  exists (mkIterator (hd_ref post1)), (mkIterator (hd_ref post2)).
  destruct (find_spec t st k HS) as (f & Hf & Hpost). exists f.
  split_and!; [done..| |].
  - intros Hk.
    destruct (find_present t st k Hcmp HS Hnd Hk)
      as (y & c & col & l & ky & v & r & Hfy & -> & Hky).
    rewrite Hfy in Hf. injection Hf as <-.
    pose proof HS as ((_ & _ & Hnodup) & _).
    rewrite ids_elems, elems_plug in Hnodup. rewrite elems_plug in Hes1, Hes2.
    rewrite keys_plug_node in Hinc. simpl in *. unfold increasing in Hinc.
    apply StronglySorted_app in Hinc as (Hlt & _ & Hgt).
    apply StronglySorted_cons in Hgt as (Hgt & _).
    destruct (cmp_eq_le _ Hcmp _ _ Hky) as [Hle Hge].
    assert (Hynin : y ∉ (elems r ++ ctx_after c).*1).
    { replace (ctx_before c ++ (elems l ++ (y, ky) :: elems r) ++ ctx_after c)
        with ((ctx_before c ++ elems l) ++ (y, ky) :: (elems r ++ ctx_after c))
        in Hnodup by (by rewrite <-!app_assoc).
      rewrite fmap_app, fmap_cons in Hnodup.
      apply NoDup_app in Hnodup as (_ & _ & Hnodup).
      by apply NoDup_cons in Hnodup as (? & _). }
    clear Hnodup.
    set (A := ctx_before c ++ elems l) in *. set (B := elems r ++ ctx_after c) in *.
    assert (HA : Forall (λ e, compare t e.2 k = Lt) A).
    { apply Forall_forall. intros e He.
      apply (cmp_lt_le_trans _ Hcmp _ ky); [|done].
      apply Hlt; [|by left]. apply list_elem_of_fmap. by exists e. }
    assert (HB : Forall (λ e, compare t k e.2 = Lt) B).
    { apply Forall_forall. intros e He.
      apply (cmp_le_lt_trans _ Hcmp _ ky); [done|].
      rewrite Forall_forall in Hgt. apply Hgt. apply list_elem_of_fmap. by exists e. }
    assert (Hsplit1 : pre1 = A ∧ post1 = (y, ky) :: B).
    { apply (split_unique (λ e, compare t e.2 k = Lt)).
      - rewrite <-Hes1. unfold A, B. by rewrite <-!app_assoc.
      - exact Hpre1.
      - exact Hpost1.
      - exact HA.
      - apply Forall_cons. split.
        + simpl. rewrite (cmp_antisym _ Hcmp k ky), Hky. done.
        + eapply Forall_impl; [exact HB|]. intros e He. simpl in *.
          apply (cmp_lt_gt _ Hcmp) in He. congruence. }
    assert (Hsplit2 : pre2 = A ++ [(y, ky)] ∧ post2 = B).
    { apply (split_unique (λ e, compare t k e.2 ≠ Lt)).
      - rewrite <-Hes2. unfold A, B. by rewrite <-!app_assoc.
      - exact Hpre2.
      - eapply Forall_impl; [exact Hpost2|]. intros e He. simpl in *. tauto.
      - apply Forall_app. split.
        + eapply Forall_impl; [exact HA|]. intros e He. simpl in *.
          apply (cmp_lt_gt _ Hcmp) in He. congruence.
        + apply Forall_singleton. simpl. congruence.
      - eapply Forall_impl; [exact HB|]. intros e He. simpl in *. tauto. }
    destruct Hsplit1 as [-> ->]. destruct Hsplit2 as [-> ->]. simpl.
    split_and!; [done|done|].
    intros [= Hhd]. apply Hynin. destruct B as [|[z kz] B']; [done|]. simpl in Hhd.
    injection Hhd as ->. simpl. by left.
  - intros Hk. rewrite (find_absent t st k HS Hk) in Hf. injection Hf as <-.
    split; [done|].
    assert (Hne : ∀ e, e ∈ elems st → compare t k e.2 ≠ Eq).
    { intros e He Heq. apply Hk. unfold present. apply Exists_exists.
      exists e.2. split; [|done]. rewrite keys_elems. apply list_elem_of_fmap. by exists e. }
    destruct (split_unique (λ e, compare t e.2 k = Lt) pre1 pre2 post1 post2)
      as [_ ->]; [by rewrite <-Hes1, <-Hes2|exact Hpre1|exact Hpost1| | |done].
    + apply Forall_forall. intros e He.
      assert (He' : e ∈ elems st) by (rewrite Hes2, elem_of_app; by left).
      rewrite Forall_forall in Hpre2. specialize (Hpre2 e He). specialize (Hne e He').
      apply (cmp_lt_gt _ Hcmp). by destruct (compare t k e.2).
    + eapply Forall_impl; [exact Hpost2|]. intros e He. simpl in *.
      apply (cmp_lt_gt _ Hcmp) in He. congruence.
Qed.

End Bounds.

(** X11: on a set with a proper comparator, [lowerBound(k)] and
    [upperBound(k)] are the same cursor exactly when [has(k)] is false;
    when [has(k)] is true, [find(k)] is the cursor of [lowerBound(k)], and
    otherwise it is [end()]. *)
Theorem bounds_and_has {K : Type} (this : TreeSet.TreeSet) (k : K) :
  valid_compare (compare (TreeSet.__t this)) → reachable true (TreeSet.__t this) →
  ∃ lb ub f b,
    TreeSet.lowerBound this k = Ok lb ∧ TreeSet.upperBound this k = Ok ub ∧
    TreeSet.find this k = Ok f ∧ TreeSet.has this k = Ok b ∧
    equals lb ub = negb b ∧
    f = (if b then lb else TreeSet.end_ this).
Proof.
  intros Hcmp Hreach.
  destruct (set_state this Hcmp Hreach) as (st & HS & Hinc & _).
  destruct (bounds_find _ st k Hcmp HS Hinc) as (lb & ub & f & Hlb & Hub & Hf & Hyes & Hno).
  destruct this as [t]. simpl in *.
  destruct (has_total t st k Hcmp HS (increasing_nondecreasing _ _ Hinc))
    as (b & Hhas & Hb).
  exists lb, ub, f, b. unfold TreeSet.lowerBound, TreeSet.upperBound, TreeSet.find. simpl.
  split_and!; try done.
  - destruct b.
    + destruct Hyes as (_ & _ & Hne); [by apply Hb|].
      unfold equals. apply bool_decide_eq_false. intros Heq. apply Hne.
      destruct lb, ub. simpl in *. by subst.
    + destruct Hno as [_ ->]; [intros Hp; by apply Hb in Hp|].
      unfold equals. by apply bool_decide_eq_true.
  - destruct b.
    + by destruct Hyes as (-> & _); [apply Hb|].
    + by destruct Hno as [-> _]; [intros Hp; by apply Hb in Hp|].
Qed.

Lemma bounds_and_has_witness :
  ∃ this lb ub,
    zset (ArgIterable [5; 1; 3]%Z) = Ok this ∧
    TreeSet.lowerBound this 2%Z = Ok lb ∧ TreeSet.upperBound this 2%Z = Ok ub ∧
    equals lb ub = true.
Proof.
  assert (∃ this, zset (ArgIterable [5; 1; 3]%Z) = Ok this ∧
                  TreeSet.has this 2%Z = Ok false)
    as (this & E & Hno) by (eexists; split_and!; vm_compute; reflexivity).
  destruct (constructor_reachable _ _ _ _ E) as [Hreach Hc].
  assert (Hcmp : valid_compare (compare (TreeSet.__t this)))
    by (rewrite Hc; apply Z_compare_valid).
  destruct (bounds_and_has this 2%Z Hcmp Hreach)
    as (lb & ub & f & b & Hlb & Hub & _ & Hb & Heq & _).
  rewrite Hno in Hb. injection Hb as <-. simpl in Heq.
  exists this, lb, ub. clear Hreach Hno. split_and!; assumption.
Defined.

(** X12: in every state of a set, [begin()] throws nothing and equals
    [end()] exactly when the size is 0. *)
Theorem begin_is_end_iff_empty {K : Type} (this : @TreeSet.TreeSet K) :
  reachable true (TreeSet.__t this) →
  ∃ b, TreeSet.begin this = Ok b ∧
       (equals b (TreeSet.end_ this) = true ↔ TreeSet.size this = 0).
Proof.
  intros Hreach.
  destruct (reachable_Inv _ _ Hreach) as (st & HS & _).
  pose proof HS as (Hrep & _ & _ & Hsz).
  exists (mkIterator (hd_ref (elems st))). split.
  - apply begin_spec; [done|lia].
  - unfold TreeSet.size, equals. rewrite Hsz, bool_decide_eq_true. simpl.
    destruct (elems st) as [|[y ky] es]; simpl; split; done.
Qed.

Lemma begin_is_end_iff_empty_witness :
  ∃ this b, zset (ArgIterable [5; 1; 3]%Z) = Ok this ∧
            TreeSet.begin this = Ok b ∧ equals b (TreeSet.end_ this) = false.
Proof.
  assert (∃ this, zset (ArgIterable [5; 1; 3]%Z) = Ok this ∧ TreeSet.size this = 3)
    as (this & E & Hsize) by (eexists; split_and!; vm_compute; reflexivity).
  destruct (constructor_reachable _ _ _ _ E) as [Hreach _].
  destruct (begin_is_end_iff_empty this Hreach) as (b & Hb & Hiff).
  exists this, b. split_and!; [exact E|exact Hb|].
  destruct (equals b (TreeSet.end_ this)); [|done].
  rewrite Hsize in Hiff. discriminate (proj1 Hiff eq_refl).
Defined.

(** X13: after [compareFunc] has been set to a proper comparator,
    whatever the set held and whatever its former comparator, adding keys
    throws nothing and gives a set in the new order: the traversal is
    strictly increasing for the new comparator, holds keys that were added
    only, and [has] is true of each key added. *)
Theorem compareFunc_then_add {K : Type} (knull : K) (this : TreeSet.TreeSet)
    (func : K → K → comparison) ks :
  valid_compare func →
  ∃ this' l,
    TreeSet.add_all knull (TreeSet.set_compareFunc this func) ks = Ok this' ∧
    compare (TreeSet.__t this') = func ∧
    TreeSet.iterate this' = Ok l ∧ increasing func l ∧
    (∀ k, k ∈ l → k ∈ ks) ∧
    (∀ k, k ∈ ks → TreeSet.has this' k = Ok true).
Proof.
  intros Hcmp.
  assert (Hreach0 : reachable true (TreeSet.__t (TreeSet.set_compareFunc this func)))
    by by apply reach_empty.
  destruct (add_all_spec knull ks _ Hreach0)
    as (this' & l0 & l & Heq & Hreach & Hc & Hl0 & Hl & Hsub & _ & Hpres).
  injection Hl0 as <-. simpl in Hc.
  assert (Hcmp' : valid_compare (compare (TreeSet.__t this'))) by by rewrite Hc.
  destruct (set_state this' Hcmp' Hreach) as (st & HS & Hinc & Hl').
  rewrite Hl' in Hl. injection Hl as <-. rewrite Hc in Hinc.
  exists this', (keys st). split_and!; try done.
  - intros k Hk. destruct (Hsub k Hk) as [?%elem_of_nil|?]; done.
  - intros k Hk. apply (has_of_present this' (keys st) k); try done.
    rewrite Hc. by apply Hpres.
Qed.

Lemma compareFunc_then_add_witness :
  ∃ this this' l,
    zset (ArgIterable [5; 1; 3]%Z) = Ok this ∧
    TreeSet.add_all 0%Z (TreeSet.set_compareFunc this (λ a b, Z.compare b a)) [2; 9; 4]%Z
    = Ok this' ∧
    TreeSet.iterate this' = Ok l ∧ increasing (λ a b, Z.compare b a) l ∧
    TreeSet.has this' 9%Z = Ok true.
Proof.
  assert (Hrev : valid_compare (λ a b : Z, Z.compare b a)).
  { split.
    - intros a b. apply Z.compare_antisym.
    - intros a b c Hab Hbc. change ((c ≤ a)%Z). etrans; [exact Hbc|exact Hab]. }
  destruct (zset (ArgIterable [5; 1; 3]%Z)) as [this|e] eqn:E; [|by vm_compute in E].
  destruct (compareFunc_then_add 0%Z this _ [2; 9; 4]%Z Hrev)
    as (this' & l & Heq & _ & Hl & Hinc & _ & Hhas).
  exists this, this', l. clear E. split_and!; [reflexivity|assumption..|].
  apply Hhas. rewrite !elem_of_cons. tauto.
Defined.
